(** * Handwrought: world model, fog of war and grid path search

    A shallow embedding of the simulation core of the Handwrought
    repository (TypeScript): [math.ts], [world.ts], [gameplay.ts] and
    [pathfinding.ts].

    Conventions of the embedding:
    - grid coordinates and array indices are integers ([Z]); every JS
      number that carries a height, a score or a probability is an
      element of a [Number] structure, whose instance [JsFloat] is IEEE
      binary64 (the primitive floats), with [n_fround] the rounding done
      by a store into a [Float32Array];
    - typed arrays are lists read with [aget] (an index out of range
      reads [undefined], here [None]) and written with [aset] (a write
      out of range is dropped);
    - loops whose trip count is not syntactically bounded carry fuel, and
      the theorems show that the fuel given by the callers is enough. *)

From Stdlib Require Import ZArith Floats Lia Bool Reals Lra Psatz.
From stdpp Require Import base list.

Local Open Scope Z_scope.

(** ** JS numbers *)

(** The operations on numbers used by the world accessors, the fog of war
    and the path search. *)
Class Number := {
  num : Type;
  n_of_Z : Z -> num;
  n_add : num -> num -> num;
  n_sub : num -> num -> num;
  n_mul : num -> num -> num;
  n_abs : num -> num;
  n_max : num -> num -> num;    (* Math.max *)
  n_ltb : num -> num -> bool;
  n_leb : num -> num -> bool;
  n_sqrt2 : num;                (* Math.SQRT2 *)
  n_fround : num -> num         (* Math.fround: the Float32Array store *)
}.

(** Division and the literal 0.5, used by the noise and by generation. *)
Class Fractional (N : Number) := {
  n_div : num -> num -> num;
  n_half : num
}.

Module JsFloat.

(** Conversion of an integer to a double (exact below 2^53). *)
Definition of_Z (z : Z) : float :=
  if z <? 0 then PrimFloat.opp (PrimFloat.of_uint63 (Uint63.of_Z (- z)))
  else PrimFloat.of_uint63 (Uint63.of_Z z).

(** Rounding of a double to the nearest binary32 value, ties to even. *)
Definition fround (x : float) : float :=
  match Prim2SF x with
  | S754_finite s m e =>
      SF2Prim (binary_normalize 24 128 (cond_Zopp s (Zpos m)) e s)
  | _ => x
  end.

(** [Math.max]: NaN when either argument is, and +0 above -0. *)
Definition max (a b : float) : float :=
  if PrimFloat.is_nan a || PrimFloat.is_nan b then PrimFloat.nan
  else if PrimFloat.ltb a b then b
  else if PrimFloat.ltb b a then a
  else if PrimFloat.is_zero a then PrimFloat.add a b
  else a.

Definition half : float := 0.5%float.
Definition sqrt2 : float := 0x1.6a09e667f3bcdp+0%float.

#[export] Instance number : Number := {|
  num := float;
  n_of_Z := of_Z;
  n_add := PrimFloat.add;
  n_sub := PrimFloat.sub;
  n_mul := PrimFloat.mul;
  n_abs := PrimFloat.abs;
  n_max := max;
  n_ltb := PrimFloat.ltb;
  n_leb := PrimFloat.leb;
  n_sqrt2 := sqrt2;
  n_fround := fround
|}.

#[global] Instance fractional : Fractional number := {|
  n_div := PrimFloat.div;
  n_half := half
|}.

End JsFloat.

(** ** Typed arrays *)

Definition aget {A} (a : list A) (i : Z) : option A :=
  if i <? 0 then None else a !! Z.to_nat i.

Definition aset {A} (a : list A) (i : Z) (v : A) : list A :=
  if i <? 0 then a else <[Z.to_nat i := v]> a.

Definition alen {A} (a : list A) : Z := Z.of_nat (length a).

(** ** world.ts *)

Inductive GroundType := Water | Sand | Soil | Rock.

Definition GroundType_eqb (a b : GroundType) : bool :=
  match a, b with
  | Water, Water | Sand, Sand | Soil, Soil | Rock, Rock => true
  | _, _ => false
  end.

Inductive WorldObjectType := tree | rock.

Record WorldObject := {
  obj_x : Z;
  obj_y : Z;
  obj_type : WorldObjectType
}.

Record GridPoint := { gx : Z; gy : Z }.

Section World.
Context {N : Number}.

Record WorldData := {
  width : Z;
  height : Z;
  heightmap : list num;
  ground : list GroundType;
  objects : list WorldObject
}.

Definition getIndex (w x y : Z) : Z := x + y * w.

Definition inBounds (world : WorldData) (x y : Z) : bool :=
  (x >=? 0) && (y >=? 0) && (x <? width world) && (y <? height world).

Definition getHeight (world : WorldData) (x y : Z) : num :=
  if negb (inBounds world x y) then n_of_Z 0
  else match aget (heightmap world) (getIndex (width world) x y) with
       | Some h => h
       | None => n_of_Z 0
       end.

Definition getGround (world : WorldData) (x y : Z) : GroundType :=
  if negb (inBounds world x y) then Water
  else match aget (ground world) (getIndex (width world) x y) with
       | Some g => g
       | None => Water
       end.

Definition cellHasObject (world : WorldData) (x y : Z) : bool :=
  existsb (fun obj => (obj_x obj =? x) && (obj_y obj =? y)) (objects world).

(** Maximum over the in-range axis neighbours of the height difference;
    [offsets] is the constant table of the source. *)
Definition slope_offsets : list (Z * Z) := [(1, 0); (-1, 0); (0, 1); (0, -1)].

Definition getSlopeAt (hm : list num) (w h x y : Z) : num :=
  let center := default (n_of_Z 0) (aget hm (getIndex w x y)) in
  fold_left
    (fun maxDelta '(dx, dy) =>
       let nx := x + dx in
       let ny := y + dy in
       if (nx <? 0) || (ny <? 0) || (nx >=? w) || (ny >=? h) then maxDelta
       else
         let neighbor := default center (aget hm (getIndex w nx ny)) in
         n_max maxDelta (n_abs (n_sub center neighbor)))
    slope_offsets (n_of_Z 0).

End World.

Arguments WorldData {N}.

(** ** gameplay.ts: fog of war *)

Section Gameplay.
Context {N : Number}.

(** The values taken by [for (let d = -radius; d <= radius; d += 1)]. *)
Definition span (radius : Z) : list Z := seqZ (- radius) (2 * radius + 1).

(** Body of the inner loop of [revealAround]; the state is the mask
    (mutated in place by the source) and the list [newly]. *)
Definition reveal_cell (world : WorldData) (center : GridPoint) (radius : Z)
    (dy dx : Z) (st : list Z * list Z) : list Z * list Z :=
  let '(mask, newly) := st in
  if dx * dx + dy * dy >? radius * radius then st
  else
    let x := gx center + dx in
    let y := gy center + dy in
    if negb (inBounds world x y) then st
    else
      let index := getIndex (width world) x y in
      match aget mask index with
      | Some 0 => (aset mask index 1, newly ++ [index])
      | _ => st
      end.

(** Returns the mask after the call and the returned list. *)
Definition revealAround (world : WorldData) (revealedMask : list Z)
    (center : GridPoint) (radius : Z) : list Z * list Z :=
  fold_left
    (fun st dy =>
       fold_left (fun st dx => reveal_cell world center radius dy dx st)
                 (span radius) st)
    (span radius) (revealedMask, []).

(** The mask after a sequence of calls [(center, radius)]. *)
Definition revealSequence (world : WorldData) (mask : list Z)
    (calls : list (GridPoint * Z)) : list Z :=
  fold_left (fun m '(c, r) => fst (revealAround world m c r)) calls mask.

Definition isCellStandable (worldData : WorldData) (x y : Z)
    (blockedMask : list Z) : bool :=
  match getGround worldData x y with
  | Water => false
  | _ =>
      let index := getIndex (width worldData) x y in
      match aget blockedMask index with
      | Some 1 => false
      | _ => negb (cellHasObject worldData x y)
      end
  end.

End Gameplay.

(** ** pathfinding.ts *)

(** Result of a loop run with fuel. *)
Inductive Outcome (A : Type) :=
| Returned (a : A)
| OutOfFuel.
Arguments Returned {A} a.
Arguments OutOfFuel {A}.

Section Pathfinding.
Context {N : Number}.

Record PathOptions := {
  maxSlope : num;
  allowDiagonal : bool;
  blockedMask : option (list Z)
}.

Definition blockedAt (options : PathOptions) (index : Z) : bool :=
  match blockedMask options with
  | Some bm => match aget bm index with Some 1 => true | _ => false end
  | None => false
  end.

Definition isCellPassable (world : WorldData) (revealed : list Z)
    (x y : Z) (options : PathOptions) : bool :=
  if negb (inBounds world x y) then false
  else
    let index := getIndex (width world) x y in
    match aget revealed index with
    | Some 0 => false
    | _ =>
        if blockedAt options index then false
        else
          match getGround world x y with
          | Water => false
          | _ => negb (cellHasObject world x y)
          end
    end.

Definition heuristic (x0 y0 x1 y1 : Z) : num :=
  let dx := Z.abs (x0 - x1) in
  let dy := Z.abs (y0 - y1) in
  n_add (n_add (n_of_Z dx) (n_of_Z dy))
        (n_mul (n_sub n_sqrt2 (n_of_Z 2)) (n_of_Z (Z.min dx dy))).

(** *** class MinHeap

    The heap object holds references to [fScore] (its [scores]) and to
    [openPositions] (its [positions]); the scores are passed to every
    method, the positions live in the record with the heap array. *)

Record MinHeap := {
  hp_heap : list Z;
  hp_positions : list Z
}.

Definition hp_size (h : MinHeap) : Z := alen (hp_heap h).

Definition swap (h : MinHeap) (a b : Z) : MinHeap :=
  match aget (hp_heap h) a, aget (hp_heap h) b with
  | Some temp, Some other =>
      {| hp_heap := aset (aset (hp_heap h) a other) b temp;
         hp_positions := aset (aset (hp_positions h) other a) temp b |}
  | _, _ => h
  end.

(** [while (i > 0)]: [i] strictly decreases, so fuel [i] is enough. *)
Fixpoint bubbleUp_loop (fuel : nat) (scores : list num) (h : MinHeap)
    (i : Z) : MinHeap :=
  if i >? 0 then
    match fuel with
    | O => h
    | S fuel' =>
        let parent := (i - 1) / 2 in
        match aget (hp_heap h) i, aget (hp_heap h) parent with
        | Some node, Some parentNode =>
            match aget scores node, aget scores parentNode with
            | Some nodeScore, Some parentScore =>
                if n_leb parentScore nodeScore then h
                else bubbleUp_loop fuel' scores (swap h i parent) parent
            | _, _ => h
            end
        | _, _ => h
        end
    end
  else h.

Definition bubbleUp (scores : list num) (h : MinHeap) (index : Z) : MinHeap :=
  bubbleUp_loop (Z.to_nat index) scores h index.

(** One test of a child in [bubbleDown]: the current candidate is
    [(smallest, smallestScore)]. *)
Definition pick_child (scores : list num) (h : MinHeap) (len child : Z)
    (cand : Z * num) : Z * num :=
  if child <? len then
    match aget (hp_heap h) child with
    | Some childNode =>
        match aget scores childNode with
        | Some childScore =>
            if n_ltb childScore (snd cand) then (child, childScore) else cand
        | None => cand
        end
    | None => cand
    end
  else cand.

(** [while (true)]: [i] strictly increases below the heap length. *)
Fixpoint bubbleDown_loop (fuel : nat) (scores : list num) (h : MinHeap)
    (i : Z) : MinHeap :=
  match fuel with
  | O => h
  | S fuel' =>
      let len := hp_size h in
      let left := i * 2 + 1 in
      let right := i * 2 + 2 in
      match aget (hp_heap h) i with
      | None => h
      | Some smallestNode =>
          match aget scores smallestNode with
          | None => h
          | Some smallestScore =>
              let c1 := pick_child scores h len left (i, smallestScore) in
              let c2 := pick_child scores h len right c1 in
              if fst c2 =? i then h
              else bubbleDown_loop fuel' scores (swap h i (fst c2)) (fst c2)
          end
      end
  end.

Definition bubbleDown (scores : list num) (h : MinHeap) (index : Z) : MinHeap :=
  bubbleDown_loop (length (hp_heap h)) scores h index.

Definition push (scores : list num) (h : MinHeap) (node : Z) : MinHeap :=
  let fresh :=
    match aget (hp_positions h) node with
    | Some position => position =? -1
    | None => true
    end in
  if fresh then
    let heap' := hp_heap h ++ [node] in
    let h' := {| hp_heap := heap';
                 hp_positions := aset (hp_positions h) node (alen heap' - 1) |} in
    bubbleUp scores h' (alen heap' - 1)
  else h.

Definition update (scores : list num) (h : MinHeap) (node : Z) : MinHeap :=
  match aget (hp_positions h) node with
  | Some index => if index =? -1 then push scores h node
                  else bubbleUp scores h index
  | None => push scores h node
  end.

Definition pop (scores : list num) (h : MinHeap) : Z * MinHeap :=
  match hp_heap h with
  | [] => (-1, h)
  | root :: _ =>
      let lastv := last (hp_heap h) in
      let heap1 := take (length (hp_heap h) - 1) (hp_heap h) in
      let pos1 := aset (hp_positions h) root (-1) in
      match heap1, lastv with
      | _ :: _, Some l =>
          (root, bubbleDown scores
                   {| hp_heap := aset heap1 0 l;
                      hp_positions := aset pos1 l 0 |} 0)
      | _, _ => (root, {| hp_heap := heap1; hp_positions := pos1 |})
      end
  end.

(** *** findPath *)

Record Search := {
  gScore : list num;        (* Float32Array *)
  fScore : list num;        (* Float32Array, shared with the heap *)
  cameFrom : list Z;        (* Int32Array *)
  closed : list Z;          (* Uint8Array *)
  openHeap : MinHeap
}.

Definition big : num := n_of_Z 1000000000.

Definition neighbors (options : PathOptions) : list (Z * Z * num) :=
  if allowDiagonal options then
    [ (1, 0, n_of_Z 1); (-1, 0, n_of_Z 1); (0, 1, n_of_Z 1); (0, -1, n_of_Z 1);
      (1, 1, n_sqrt2); (-1, 1, n_sqrt2); (1, -1, n_sqrt2); (-1, -1, n_sqrt2) ]
  else
    [ (1, 0, n_of_Z 1); (-1, 0, n_of_Z 1); (0, 1, n_of_Z 1); (0, -1, n_of_Z 1) ].

(** [while (node !== -1)] of [reconstructPath]; [path] is in push order. *)
Fixpoint reconstruct_loop (fuel : nat) (cf : list Z) (w : Z) (node : Z)
    (path : list GridPoint) : Outcome (list GridPoint) :=
  if node =? -1 then Returned path
  else
    match fuel with
    | O => OutOfFuel
    | S fuel' =>
        let path' := path ++ [ {| gx := Z.rem node w; gy := node / w |} ] in
        match aget cf node with
        | None => Returned path'
        | Some next => reconstruct_loop fuel' cf w next path'
        end
    end.

Definition reconstructPath (fuel : nat) (cf : list Z) (current w : Z)
    : Outcome (list GridPoint) :=
  match reconstruct_loop fuel cf w current [] with
  | Returned path => Returned (rev path)
  | OutOfFuel => OutOfFuel
  end.

(** Body of [for (const [dx, dy, cost] of neighbors)]. *)
Definition relax (world : WorldData) (revealed : list Z) (goal : GridPoint)
    (options : PathOptions) (current currentX currentY : Z)
    (st : Search) (nb : Z * Z * num) : Search :=
  let '(dx, dy, cost) := nb in
  let nx := currentX + dx in
  let ny := currentY + dy in
  if negb (inBounds world nx ny) then st
  else
    let neighborIndex := getIndex (width world) nx ny in
    match aget (closed st) neighborIndex with
    | Some 1 => st
    | _ =>
        if negb (isCellPassable world revealed nx ny options) then st
        else
          let slope := n_abs (n_sub (getHeight world currentX currentY)
                                    (getHeight world nx ny)) in
          if n_ltb (maxSlope options) slope then st
          else
            let currentScore := default big (aget (gScore st) current) in
            let neighborScore := default big (aget (gScore st) neighborIndex) in
            let tentativeG := n_add currentScore cost in
            if n_ltb tentativeG neighborScore then
              let fScore' :=
                aset (fScore st) neighborIndex
                     (n_fround (n_add tentativeG
                                      (heuristic nx ny (gx goal) (gy goal)))) in
              {| gScore := aset (gScore st) neighborIndex (n_fround tentativeG);
                 fScore := fScore';
                 cameFrom := aset (cameFrom st) neighborIndex current;
                 closed := closed st;
                 openHeap := update fScore' (openHeap st) neighborIndex |}
            else st
    end.

(** [while (openHeap.size > 0)]. *)
Fixpoint search_loop (fuel : nat) (world : WorldData) (revealed : list Z)
    (goal : GridPoint) (goalIndex : Z) (options : PathOptions)
    (st : Search) : Outcome (option (list GridPoint)) :=
  if hp_size (openHeap st) >? 0 then
    match fuel with
    | O => OutOfFuel
    | S fuel' =>
        let '(current, h) := pop (fScore st) (openHeap st) in
        if current =? -1 then Returned None
        else if current =? goalIndex then
          match reconstructPath (S (length (cameFrom st))) (cameFrom st)
                                current (width world) with
          | Returned path => Returned (Some path)
          | OutOfFuel => OutOfFuel
          end
        else
          let currentX := Z.rem current (width world) in
          let currentY := current / width world in
          let st1 := {| gScore := gScore st; fScore := fScore st;
                        cameFrom := cameFrom st;
                        closed := aset (closed st) current 1;
                        openHeap := h |} in
          search_loop fuel' world revealed goal goalIndex options
            (fold_left (relax world revealed goal options
                              current currentX currentY)
                       (neighbors options) st1)
    end
  else Returned None.

(** The arrays allocated and filled by [findPath] before the loop. *)
Definition initial (world : WorldData) (start goal : GridPoint) : Search :=
  let total := Z.to_nat (width world * height world) in
  let startIndex := getIndex (width world) (gx start) (gy start) in
  let fScore0 :=
    aset (replicate total (n_fround big)) startIndex
         (n_fround (heuristic (gx start) (gy start) (gx goal) (gy goal))) in
  {| gScore := aset (replicate total (n_fround big)) startIndex
                    (n_fround (n_of_Z 0));
     fScore := fScore0;
     cameFrom := replicate total (-1);
     closed := replicate total 0;
     openHeap := push fScore0 {| hp_heap := [];
                                 hp_positions := replicate total (-1) |}
                      startIndex |}.

(** [findPath] with the fuel of its main loop explicit. *)
Definition findPath_fuel (fuel : nat) (world : WorldData) (revealed : list Z)
    (start goal : GridPoint) (options : PathOptions)
    : Outcome (option (list GridPoint)) :=
  if negb (inBounds world (gx start) (gy start))
     || negb (inBounds world (gx goal) (gy goal)) then Returned None
  else
    let goalIndex := getIndex (width world) (gx goal) (gy goal) in
    match aget revealed goalIndex with
    | Some 0 => Returned None
    | _ =>
        if negb (isCellPassable world revealed (gx goal) (gy goal) options)
        then Returned None
        else search_loop fuel world revealed goal goalIndex options
                         (initial world start goal)
    end.

(** Every pass of the main loop closes one more cell, so one pass per
    cell and one more for the final test are enough. *)
Definition findPath (world : WorldData) (revealed : list Z)
    (start goal : GridPoint) (options : PathOptions)
    : Outcome (option (list GridPoint)) :=
  findPath_fuel (S (Z.to_nat (width world * height world)))
                world revealed start goal options.

End Pathfinding.

(** ** math.ts *)

Section Math.
Context {N : Number} {F : Fractional N}.

(** Loop state of [fbm] and [ridgedFbm]. *)
Record Octaves := {
  amplitude : num;
  frequency : num;
  sum : num;
  normalization : num
}.

Definition octaves_init : Octaves :=
  {| amplitude := n_half; frequency := n_of_Z 1;
     sum := n_of_Z 0; normalization := n_of_Z 0 |}.

Definition fbm_step (noise2D : num -> num -> num) (x y lacunarity gain : num)
    (s : Octaves) : Octaves :=
  {| sum := n_add (sum s)
              (n_mul (amplitude s)
                     (noise2D (n_mul x (frequency s)) (n_mul y (frequency s))));
     normalization := n_add (normalization s) (amplitude s);
     amplitude := n_mul (amplitude s) gain;
     frequency := n_mul (frequency s) lacunarity |}.

(** [for (let i = 0; i < octaves; i += 1)] runs [octaves] times, and not
    at all when [octaves <= 0]. *)
Definition fbm (noise2D : num -> num -> num) (x y : num) (octaves : Z)
    (lacunarity gain : num) : num :=
  let s := Nat.iter (Z.to_nat octaves)
                    (fbm_step noise2D x y lacunarity gain) octaves_init in
  let value := n_div (sum s) (normalization s) in
  n_add (n_mul value n_half) n_half.

Definition ridged_step (noise2D : num -> num -> num) (x y lacunarity gain : num)
    (s : Octaves) : Octaves :=
  let n := noise2D (n_mul x (frequency s)) (n_mul y (frequency s)) in
  let ridge := n_sub (n_of_Z 1) (n_abs n) in
  let sharp := n_mul ridge ridge in
  {| sum := n_add (sum s) (n_mul sharp (amplitude s));
     normalization := n_add (normalization s) (amplitude s);
     amplitude := n_mul (amplitude s) gain;
     frequency := n_mul (frequency s) lacunarity |}.

Definition ridgedFbm (noise2D : num -> num -> num) (x y : num) (octaves : Z)
    (lacunarity gain : num) : num :=
  let s := Nat.iter (Z.to_nat octaves)
                    (ridged_step noise2D x y lacunarity gain) octaves_init in
  if n_ltb (n_of_Z 0) (normalization s)
  then n_div (sum s) (normalization s)
  else n_of_Z 0.

(** *** mulberry32

    The closure variable [t] is a JS number that grows by [0x6d2b79f5] at
    every call; it is an exact integer as long as it stays below 2^53.
    The bit operations read it modulo 2^32. *)

Definition toUint32 (z : Z) : Z := z mod 4294967296.

Definition toInt32 (z : Z) : Z :=
  let u := toUint32 z in if u <? 2147483648 then u else u - 4294967296.

Definition imul (a b : Z) : Z := toInt32 (toInt32 a * toInt32 b).

(** [a >>> k] *)
Definition ushr (a k : Z) : Z := Z.shiftr (toUint32 a) k.

Definition mulberry32 (seed : Z) : Z := toUint32 seed.

(** One call of the generator returned by [mulberry32]: the value and the
    new [t]. *)
Definition mulberry32_next (t : Z) : num * Z :=
  let t := t + 0x6d2b79f5 in
  let r := imul (Z.lxor (toInt32 t) (ushr t 15)) (Z.lor 1 (toInt32 t)) in
  let r := Z.lxor r (toInt32 (r + imul (Z.lxor r (ushr r 7)) (Z.lor 61 r))) in
  (n_div (n_of_Z (toUint32 (Z.lxor r (ushr r 14)))) (n_of_Z 4294967296), t).

End Math.

(** ** world.ts: generation *)

(** The variable [t] of every generator created by [mulberry32] so far;
    a generator is the index of its variable. *)
Definition RngHeap := list Z.

Section Generation.
Context {N : Number} {F : Fractional N}.

(** [mulberry32(seed)] allocates a fresh generator. *)
Definition mulberry32_new (seed : Z) (rngs : RngHeap) : Z * RngHeap :=
  (alen rngs, rngs ++ [mulberry32 seed]).

(** A call [g()] of a generator. *)
Definition rng_call (g : Z) (rngs : RngHeap) : num * RngHeap :=
  match aget rngs g with
  | Some t => let '(v, t') := mulberry32_next t in (v, aset rngs g t')
  | None => (n_of_Z 0, rngs)
  end.

(** [k] calls in a row, the values in the order drawn. *)
Fixpoint rng_draw (k : nat) (g : Z) (rngs : RngHeap) : list num * RngHeap :=
  match k with
  | O => ([], rngs)
  | S k' =>
      let '(v, rngs1) := rng_call g rngs in
      let '(vs, rngs2) := rng_draw k' g rngs1 in
      (v :: vs, rngs2)
  end.

(** The package simplex-noise and [Math.pow] are not part of the
    repository: [createNoise2D(random)] draws [noise_draws] values from
    [random] to build its permutation table and returns the noise function
    [noise_of] of these values. *)
Variable noise_draws : nat.
Variable noise_of : list num -> num -> num -> num.
Variable pow : num -> num -> num.

Definition createNoise2D (random : Z) (rngs : RngHeap)
    : (num -> num -> num) * RngHeap :=
  let '(vs, rngs') := rng_draw noise_draws random rngs in (noise_of vs, rngs').

Record WorldGenConfig := {
  cfg_width : Z;
  cfg_height : Z;
  seed : Z;
  seaLevel : num;
  mountainHeight : num;
  slopeRock : num;
  sandHeight : num;
  sandChance : num;
  treeSlopeMax : num;
  forestScale : num;
  forestThreshold : num;
  treeChance : num;
  rockSlopeMax : num;
  rockChance : num
}.

(** [heightmap[i] ?? 0] *)
Definition heightAt (hm : list num) (i : Z) : num := default (n_of_Z 0) (aget hm i).

Definition isNearSea (hm : list num) (w h x y : Z) (sea : num) (radius : Z) : bool :=
  existsb
    (fun dy =>
       existsb
         (fun dx =>
            if (dx =? 0) && (dy =? 0) then false
            else
              let nx := x + dx in
              let ny := y + dy in
              if (nx <? 0) || (ny <? 0) || (nx >=? w) || (ny >=? h) then false
              else n_ltb (heightAt hm (getIndex w nx ny)) sea)
         (span radius))
    (span radius).

(** The cells in the order of [for y ... for x ...]. *)
Definition scan (w h : Z) : list (Z * Z) :=
  flat_map (fun y => map (fun x => (x, y)) (seqZ 0 w)) (seqZ 0 h).

Definition baseScale : num := n_div (n_of_Z 1) (n_of_Z 80).

(** First loop: heights. *)
Definition height_cell (config : WorldGenConfig) (heightNoise : num -> num -> num)
    (hm : list num) (c : Z * Z) : list num :=
  let '(x, y) := c in
  let idx := getIndex (cfg_width config) x y in
  let h := fbm heightNoise (n_mul (n_of_Z x) baseScale) (n_mul (n_of_Z y) baseScale)
               5 (n_of_Z 2) n_half in
  aset hm idx (n_fround (pow h (n_div (n_of_Z 105) (n_of_Z 100)))).

(** Second loop: ground; the state is the ground array and the
    generators. *)
Definition ground_cell (config : WorldGenConfig) (hm : list num) (objectRng : Z)
    (st : list GroundType * RngHeap) (c : Z * Z) : list GroundType * RngHeap :=
  let '(x, y) := c in
  let '(ground, rngs) := st in
  let idx := getIndex (cfg_width config) x y in
  let h := heightAt hm idx in
  if n_ltb h (seaLevel config) then (aset ground idx Water, rngs)
  else
    let slope := getSlopeAt hm (cfg_width config) (cfg_height config) x y in
    if n_ltb (mountainHeight config) h || n_ltb (slopeRock config) slope
    then (aset ground idx Rock, rngs)
    else
      let nearWater :=
        isNearSea hm (cfg_width config) (cfg_height config) x y (seaLevel config) 2 in
      if nearWater && n_ltb h (n_add (seaLevel config) (sandHeight config)) then
        let '(roll, rngs') := rng_call objectRng rngs in
        if n_ltb roll (sandChance config) then (aset ground idx Sand, rngs')
        else (aset ground idx Soil, rngs')
      else (aset ground idx Soil, rngs).

(** Third loop: objects. *)
Definition object_cell (config : WorldGenConfig) (hm : list num)
    (ground : list GroundType) (forestNoise : num -> num -> num) (objectRng : Z)
    (st : list WorldObject * RngHeap) (c : Z * Z) : list WorldObject * RngHeap :=
  let '(x, y) := c in
  let idx := getIndex (cfg_width config) x y in
  match aget ground idx with
  | None => st
  | Some groundType =>
      let h := heightAt hm idx in
      let slope := getSlopeAt hm (cfg_width config) (cfg_height config) x y in
      let st1 :=
        if GroundType_eqb groundType Soil
           && n_ltb slope (treeSlopeMax config)
           && n_ltb (n_add (seaLevel config) (n_div (n_of_Z 2) (n_of_Z 100))) h
        then
          let patch :=
            fbm forestNoise (n_mul (n_of_Z x) (forestScale config))
                (n_mul (n_of_Z y) (forestScale config)) 3 (n_of_Z 2) n_half in
          if n_ltb (forestThreshold config) patch then
            let '(roll, rngs') := rng_call objectRng (snd st) in
            if n_ltb roll (treeChance config)
            then (fst st ++ [ {| obj_x := x; obj_y := y; obj_type := tree |} ], rngs')
            else (fst st, rngs')
          else st
        else st in
      if GroundType_eqb groundType Rock && n_ltb slope (rockSlopeMax config) then
        let '(roll, rngs') := rng_call objectRng (snd st1) in
        if n_ltb roll (rockChance config)
        then (fst st1 ++ [ {| obj_x := x; obj_y := y; obj_type := rock |} ], rngs')
        else (fst st1, rngs')
      else st1
  end.

(** [generateWorld], run with the generators [rngs] that exist already;
    it returns the world and all generators after the call. *)
Definition generateWorld (config : WorldGenConfig) (rngs : RngHeap)
    : WorldData * RngHeap :=
  let total := Z.to_nat (cfg_width config * cfg_height config) in
  let cells := scan (cfg_width config) (cfg_height config) in
  let '(heightRng, rngs) := mulberry32_new (seed config) rngs in
  let '(heightNoise, rngs) := createNoise2D heightRng rngs in
  let '(forestRng, rngs) := mulberry32_new (seed config + 1337) rngs in
  let '(forestNoise, rngs) := createNoise2D forestRng rngs in
  let '(objectRng, rngs) := mulberry32_new (seed config + 9001) rngs in
  let hm := fold_left (height_cell config heightNoise) cells
                      (replicate total (n_of_Z 0)) in
  let '(ground, rngs) :=
    fold_left (ground_cell config hm objectRng) cells
              (replicate total Water, rngs) in
  let '(objects, rngs) :=
    fold_left (object_cell config hm ground forestNoise objectRng) cells
              ([], rngs) in
  ({| width := cfg_width config; height := cfg_height config;
      heightmap := hm; ground := ground; objects := objects |}, rngs).

End Generation.

(** ** gameplay.ts: spawn *)

Section Spawn.
Context {N : Number}.

Definition isCellSpawnable (worldData : WorldData) (x y : Z)
    (maxSlope seaLevel : num) (blockedMask : list Z) : bool :=
  if negb (inBounds worldData x y) then false
  else
    let index := getIndex (width worldData) x y in
    match aget (heightmap worldData) index with
    | None => false
    | Some h =>
        if n_ltb h seaLevel then false
        else
          match aget (ground worldData) index with
          | None | Some Water => false
          | Some _ =>
              match aget blockedMask index with
              | Some 1 => false
              | _ =>
                  if cellHasObject worldData x y then false
                  else
                    n_leb (getSlopeAt (heightmap worldData) (width worldData)
                                      (height worldData) x y)
                          maxSlope
              end
          end
    end.

(** The cells visited by [for dy ... for dx ...] around [(cx, cy)], in
    the order visited. *)
Definition square (cx cy r : Z) : list (Z * Z) :=
  flat_map (fun dy => map (fun dx => (cx + dx, cy + dy)) (span r)) (span r).

(** The cells visited by [for r ... for dy ... for dx ...] of [findSpawn]
    and [findSpawnNearForest]. *)
Definition spawn_scan (worldData : WorldData) : list (Z * Z) :=
  let centerX := width worldData / 2 in
  let centerY := height worldData / 2 in
  let maxRadius := Z.max (width worldData) (height worldData) in
  flat_map (square centerX centerY) (seqZ 0 maxRadius).

Definition findSpawn (worldData : WorldData) (maxSlope seaLevel : num)
    (blockedMask : list Z) : GridPoint :=
  match find (fun c => isCellSpawnable worldData c.1 c.2 maxSlope seaLevel blockedMask)
             (spawn_scan worldData) with
  | Some (x, y) => {| gx := x; gy := y |}
  | None => {| gx := 0; gy := 0 |}
  end.

Definition findSpawnAroundCell (worldData : WorldData) (centerX centerY : Z)
    (maxSlope seaLevel : num) (blockedMask : list Z) (radius : Z)
    : option GridPoint :=
  match find (fun c => isCellSpawnable worldData c.1 c.2 maxSlope seaLevel blockedMask)
             (square centerX centerY radius) with
  | Some (x, y) => Some {| gx := x; gy := y |}
  | None => None
  end.

(** The first result that is not [null], in the order of the loop. *)
Fixpoint first_result {A B} (f : A -> option B) (l : list A) : option B :=
  match l with
  | [] => None
  | a :: l' => match f a with Some b => Some b | None => first_result f l' end
  end.

Definition findSpawnNearForest (worldData : WorldData) (maxSlope seaLevel : num)
    (blockedMask : list Z) : option GridPoint :=
  first_result
    (fun c =>
       let '(x, y) := c in
       if negb (inBounds worldData x y) then None
       else
         match aget blockedMask (getIndex (width worldData) x y) with
         | Some 1 =>
             findSpawnAroundCell worldData x y maxSlope seaLevel blockedMask 3
         | _ => None
         end)
    (spawn_scan worldData).

End Spawn.

(** ** forest.ts: the mask of dense forest *)

Section Forest.
Context {N : Number} {F : Fractional N}.

(** Body of the loops of [buildDenseForestMask]; the state is the mask. *)
Definition forest_cell (worldData : WorldData) (noise2D : num -> num -> num)
    (threshold : num) (config : WorldGenConfig) (mask : list Z) (c : Z * Z)
    : list Z :=
  let '(x, y) := c in
  let index := getIndex (width worldData) x y in
  match aget (ground worldData) index with
  | Some Soil =>
      let h := heightAt (heightmap worldData) index in
      if n_ltb h (n_add (seaLevel config) (n_div (n_of_Z 2) (n_of_Z 100)))
      then mask
      else
        let slope := getSlopeAt (heightmap worldData) (width worldData)
                                (height worldData) x y in
        if n_ltb (treeSlopeMax config) slope then mask
        else
          let patch :=
            fbm noise2D (n_mul (n_of_Z x) (forestScale config))
                (n_mul (n_of_Z y) (forestScale config)) 3 (n_of_Z 2) n_half in
          if n_ltb threshold patch then aset mask index 1 else mask
  | _ => mask
  end.

Definition buildDenseForestMask (worldData : WorldData)
    (noise2D : num -> num -> num) (threshold : num) (config : WorldGenConfig)
    : list Z :=
  fold_left (forest_cell worldData noise2D threshold config)
            (scan (width worldData) (height worldData))
            (replicate (Z.to_nat (width worldData * height worldData)) 0).

End Forest.

(** ** main.ts: the click handler *)

Section Click.
Context {N : Number}.

(** The tests of [handleRightClick] on the clicked cell, before it calls
    [findPath] with this cell as the goal. *)
Definition clickAccepts (world : WorldData) (revealed denseForestMask : list Z)
    (cell : GridPoint) : bool :=
  if negb (inBounds world (gx cell) (gy cell)) then false
  else
    match aget revealed (getIndex (width world) (gx cell) (gy cell)) with
    | Some 0 => false
    | _ => isCellStandable world (gx cell) (gy cell) denseForestMask
    end.

End Click.

(** ** math.ts: clamp, on doubles *)

(** [Math.min]: NaN when either argument is, and -0 below +0. *)
Definition Math_min (a b : float) : float :=
  if PrimFloat.is_nan a || PrimFloat.is_nan b then PrimFloat.nan
  else if PrimFloat.ltb a b then a
  else if PrimFloat.ltb b a then b
  else if PrimFloat.is_zero a
       then PrimFloat.opp (PrimFloat.add (PrimFloat.opp a) (PrimFloat.opp b))
  else a.

Definition clamp (value min max : float) : float :=
  JsFloat.max min (Math_min max value).

(** ** gameplay.ts, earlier version: findSpawn with its tests inline *)

Section SpawnInline.
Context {N : Number}.

(** The tests of the loop body of the earlier [findSpawn]; the last one
    is [slope > maxSlope]. *)
Definition spawnTests (worldData : WorldData) (x y : Z)
    (maxSlope seaLevel : num) (blockedMask : list Z) : bool :=
  if negb (inBounds worldData x y) then false
  else
    let index := getIndex (width worldData) x y in
    match aget (heightmap worldData) index with
    | None => false
    | Some h =>
        if n_ltb h seaLevel then false
        else
          match aget (ground worldData) index with
          | None | Some Water => false
          | Some _ =>
              match aget blockedMask index with
              | Some 1 => false
              | _ =>
                  if cellHasObject worldData x y then false
                  else
                    negb (n_ltb maxSlope
                                (getSlopeAt (heightmap worldData) (width worldData)
                                            (height worldData) x y))
              end
          end
    end.

Definition findSpawn_inline (worldData : WorldData) (maxSlope seaLevel : num)
    (blockedMask : list Z) : GridPoint :=
  match find (fun c => spawnTests worldData c.1 c.2 maxSlope seaLevel blockedMask)
             (spawn_scan worldData) with
  | Some (x, y) => {| gx := x; gy := y |}
  | None => {| gx := 0; gy := 0 |}
  end.

End SpawnInline.

(** * Specification vocabulary *)

(** ** Fog of war *)

Section RevealSpec.
Context {N : Number}.

(** What [revealAround] does to one index of the mask. *)
Definition mark (st : list Z * list Z) (index : Z) : list Z * list Z :=
  match aget (fst st) index with
  | Some 0 => (aset (fst st) index 1, snd st ++ [index])
  | _ => st
  end.

(** The indices examined by a call, in loop order. *)
Definition targets world (center : GridPoint) (radius : Z) : list Z :=
  flat_map
    (fun dy =>
       flat_map
         (fun dx =>
            if dx * dx + dy * dy >? radius * radius then []
            else if negb (inBounds world (gx center + dx) (gy center + dy)) then []
            else [getIndex (width world) (gx center + dx) (gy center + dy)])
         (span radius))
    (span radius).

End RevealSpec.

(** ** Concrete worlds, on doubles *)

Module Samples.

Definition flat (w h : Z) : @WorldData JsFloat.number :=
  @Build_WorldData JsFloat.number w h
    (replicate (Z.to_nat (w * h)) 0.5%float)
    (replicate (Z.to_nat (w * h)) Soil) [].

Definition walk (diag : bool) (bm : option (list Z)) : @PathOptions JsFloat.number :=
  @Build_PathOptions JsFloat.number 1%float diag bm.

Definition config : @WorldGenConfig JsFloat.number :=
  @Build_WorldGenConfig JsFloat.number 4 3 7
    0.25%float 0.75%float 0.125%float 0.0625%float 0.5%float 0.125%float
    0.0625%float 0.5%float 0.5%float 0.25%float 0.5%float.

Definition noise (vs : list float) (x y : float) : float := 0.5%float.
Definition power (a b : float) : float := a.

Definition generated : @WorldData JsFloat.number :=
  fst (@generateWorld JsFloat.number JsFloat.fractional 255 noise power config []).

(** A grid of 587 by 6 cells with two corridors from (0, 3) to (517, 2):
    the upper one climbs 517 diagonal moves along rows 2 and 3; the lower
    one makes 179 diagonal moves along rows 4 and 5, then runs along row 4
    to the last column, up to row 2 and back to the goal.  The heights
    keep the corridors apart and forbid cutting the corners. *)
Definition maze_width : Z := 587.
Definition maze_height : Z := 6.

Definition maze_cell (x y : Z) : option float :=
  if (x =? 0) && (y =? 3) then Some 0.5%float
  else if (x =? 517) && (y =? 2) then Some 0.5%float
  else if (1 <=? x) && (x <=? 517) && (y =? (if Z.odd x then 2 else 3))
  then Some 0%float
  else if (1 <=? x) && (x <=? 179) && (y =? (if Z.odd x then 4 else 5))
  then Some 1%float
  else if (y =? 4) && (180 <=? x) && (x <=? 585) then Some 1%float
  else if (x =? 586) && (y =? 4) then Some 1.5%float
  else if (x =? 586) && (y =? 3) then Some 2%float
  else if (x =? 586) && (y =? 2) then Some 2.5%float
  else if (y =? 2) && (518 <=? x) && (x <=? 585) then
    if x =? 585 then Some 3%float
    else if x =? 584 then Some 2.5%float
    else if x =? 583 then Some 2%float
    else if x =? 582 then Some 1.5%float
    else Some 1%float
  else None.

Definition maze_cells : list (option float) :=
  map (fun i => maze_cell (Z.rem i maze_width) (i / maze_width))
      (seqZ 0 (maze_width * maze_height)).

Definition maze : @WorldData JsFloat.number :=
  @Build_WorldData JsFloat.number maze_width maze_height
    (map (default 0%float) maze_cells)
    (replicate (Z.to_nat (maze_width * maze_height)) Soil) [].

Definition maze_revealed : list Z :=
  map (fun c => match c with Some _ => 1 | None => 0 end) maze_cells.

Definition maze_walk : @PathOptions JsFloat.number :=
  @Build_PathOptions JsFloat.number 0.5%float true None.

Definition maze_start : GridPoint := {| gx := 0; gy := 3 |}.
Definition maze_goal : GridPoint := {| gx := 517; gy := 2 |}.

Definition upper_way : list GridPoint :=
  maze_start
  :: map (fun x => {| gx := x; gy := if Z.odd x then 2 else 3 |}) (seqZ 1 517).

Definition lower_way : list GridPoint :=
  maze_start
  :: map (fun x => {| gx := x; gy := if Z.odd x then 4 else 5 |}) (seqZ 1 179)
  ++ map (fun x => {| gx := x; gy := 4 |}) (seqZ 180 407)
  ++ [ {| gx := 586; gy := 3 |} ]
  ++ map (fun x => {| gx := 586 - x; gy := 2 |}) (seqZ 0 69)
  ++ [ maze_goal ].

End Samples.

(** ** Path search *)

Section SearchSpec.
Context {N : Number}.

(** The grid point of a cell index, as [findPath] and [reconstructPath]
    compute it. *)
Definition point_of (w node : Z) : GridPoint :=
  {| gx := Z.rem node w; gy := node / w |}.

Definition in_heap (h : MinHeap) (n : Z) : Prop :=
  exists i, aget (hp_heap h) i = Some n.

(** The heap array and the position map describe each other. *)
Record heap_wf (T : Z) (h : MinHeap) : Prop := {
  wf_pos_len : alen (hp_positions h) = T;
  wf_heap_pos : forall i n,
    aget (hp_heap h) i = Some n -> 0 <= n < T /\ aget (hp_positions h) n = Some i;
  wf_pos_heap : forall n p,
    aget (hp_positions h) n = Some p -> p = -1 \/ aget (hp_heap h) p = Some n
}.

(** 4-connectivity, or 8-connectivity when [diag] holds. *)
Definition adjacent (diag : bool) (p q : GridPoint) : Prop :=
  let dx := Z.abs (gx q - gx p) in
  let dy := Z.abs (gy q - gy p) in
  dx + dy = 1 \/ (diag = true /\ dx = 1 /\ dy = 1).

(** The slope test of the source: the height difference is not greater
    than [maxSlope]. *)
Definition slope_ok (world : WorldData) (options : PathOptions)
    (p q : GridPoint) : Prop :=
  n_ltb (maxSlope options)
        (n_abs (n_sub (getHeight world (gx p) (gy p))
                      (getHeight world (gx q) (gy q)))) = false.

Definition passable (world : WorldData) (revealed : list Z)
    (options : PathOptions) (q : GridPoint) : Prop :=
  isCellPassable world revealed (gx q) (gy q) options = true.

(** A move of the search from [p] to [q]. *)
Definition step_ok (world : WorldData) (revealed : list Z)
    (options : PathOptions) (p q : GridPoint) : Prop :=
  adjacent (allowDiagonal options) p q
  /\ passable world revealed options q
  /\ slope_ok world options p q.

(** Every two consecutive points of [path] are a move. *)
Definition path_ok (world : WorldData) (revealed : list Z)
    (options : PathOptions) (path : list GridPoint) : Prop :=
  forall i p q, path !! i = Some p -> path !! S i = Some q ->
                step_ok world revealed options p q.

(** The same tests as functions, to check a given path. *)
Definition adjacentb (diag : bool) (p q : GridPoint) : bool :=
  let dx := Z.abs (gx q - gx p) in
  let dy := Z.abs (gy q - gy p) in
  (dx + dy =? 1) || (diag && (dx =? 1) && (dy =? 1)).

Definition step_okb (world : WorldData) (revealed : list Z)
    (options : PathOptions) (p q : GridPoint) : bool :=
  adjacentb (allowDiagonal options) p q
  && isCellPassable world revealed (gx q) (gy q) options
  && negb (n_ltb (maxSlope options)
                 (n_abs (n_sub (getHeight world (gx p) (gy p))
                               (getHeight world (gx q) (gy q))))).

Fixpoint path_okb (world : WorldData) (revealed : list Z)
    (options : PathOptions) (path : list GridPoint) : bool :=
  match path with
  | p :: (q :: _) as rest =>
      step_okb world revealed options p q && path_okb world revealed options rest
  | _ => true
  end.

(** The parents recorded for the cells of [order] (closed cells, the
    latest first) point to cells closed earlier. *)
Fixpoint chain_ok (cf : list Z) (order : list Z) : Prop :=
  match order with
  | [] => True
  | n :: rest =>
      (forall p, aget cf n = Some p -> p = -1 \/ p ∈ rest) /\ chain_ok cf rest
  end.

(** The cells met by [reconstructPath] from [n]. *)
Inductive trace (cf : list Z) : Z -> list Z -> Prop :=
| trace_end n : aget cf n = Some (-1) -> trace cf n [n]
| trace_step n p l :
    aget cf n = Some p -> p <> -1 -> trace cf p l -> trace cf n (n :: l).

Record search_inv (world : WorldData) (revealed : list Z)
    (options : PathOptions) (startIndex : Z) (st : Search) (order : list Z)
    : Prop := {
  inv_heap : heap_wf (width world * height world) (openHeap st);
  inv_closed_len : alen (closed st) = width world * height world;
  inv_came_len : alen (cameFrom st) = width world * height world;
  inv_closed_bits : forall n v, aget (closed st) n = Some v -> v = 0 \/ v = 1;
  inv_open : forall n, in_heap (openHeap st) n -> aget (closed st) n = Some 0;
  inv_order_closed : forall n, n ∈ order -> aget (closed st) n = Some 1;
  inv_order_nodup : NoDup order;
  inv_edges : forall n p,
    aget (cameFrom st) n = Some p -> p <> -1 ->
    p ∈ order
    /\ step_ok world revealed options (point_of (width world) p)
                                      (point_of (width world) n);
  inv_chain : chain_ok (cameFrom st) order;
  inv_start : aget (cameFrom st) startIndex = Some (-1);
  inv_roots : forall n, aget (cameFrom st) n = Some (-1) ->
                        in_heap (openHeap st) n \/ n ∈ order -> n = startIndex;
  inv_start_seen :
    startIndex ∈ order
    \/ (order = [] /\ forall n, in_heap (openHeap st) n -> n = startIndex)
}.

End SearchSpec.

(** ** Ground classification, in the words of the specification *)

Section GenerationSpec.
Context {N : Number} {F : Fractional N}.

(** Some other cell within Chebyshev radius 2 is below sea level. *)
Definition near_water (hm : list num) (w h x y : Z) (sea : num) : Prop :=
  exists nx ny,
    (nx, ny) <> (x, y)
    /\ Z.abs (nx - x) <= 2 /\ Z.abs (ny - y) <= 2
    /\ 0 <= nx < w /\ 0 <= ny < h
    /\ n_ltb (heightAt hm (getIndex w nx ny)) sea = true.

Definition is_water (config : WorldGenConfig) (hm : list num) (x y : Z) : Prop :=
  n_ltb (heightAt hm (getIndex (cfg_width config) x y)) (seaLevel config) = true.

Definition is_rocky (config : WorldGenConfig) (hm : list num) (x y : Z) : Prop :=
  n_ltb (mountainHeight config) (heightAt hm (getIndex (cfg_width config) x y)) = true
  \/ n_ltb (slopeRock config)
           (getSlopeAt hm (cfg_width config) (cfg_height config) x y) = true.

Definition is_sandy (config : WorldGenConfig) (hm : list num) (x y : Z)
    (roll : num) : Prop :=
  near_water hm (cfg_width config) (cfg_height config) x y (seaLevel config)
  /\ n_ltb (heightAt hm (getIndex (cfg_width config) x y))
           (n_add (seaLevel config) (sandHeight config)) = true
  /\ n_ltb roll (sandChance config) = true.

(** The four rules, in priority order. *)
Inductive classified (config : WorldGenConfig) (hm : list num) (x y : Z)
    (roll : num) : GroundType -> Prop :=
| class_water :
    is_water config hm x y -> classified config hm x y roll Water
| class_rock :
    ~ is_water config hm x y -> is_rocky config hm x y ->
    classified config hm x y roll Rock
| class_sand :
    ~ is_water config hm x y -> ~ is_rocky config hm x y ->
    is_sandy config hm x y roll -> classified config hm x y roll Sand
| class_soil :
    ~ is_water config hm x y -> ~ is_rocky config hm x y ->
    ~ is_sandy config hm x y roll -> classified config hm x y roll Soil.

End GenerationSpec.

(** ** Order of the binary heap *)

(** What the comparisons of the heap must satisfy for it to be a
    priority queue.  The values that compare with themselves are the
    [comparable] ones: of the doubles, all but NaN. *)
Class ScoreOrder (N : Number) := {
  comparable : num -> Prop;
  le_refl : forall a : num, comparable a -> n_leb a a = true;
  le_trans : forall a b c : num,
    n_leb a b = true -> n_leb b c = true -> n_leb a c = true;
  le_total : forall a b : num,
    comparable a -> comparable b -> n_leb a b = false -> n_leb b a = true;
  lt_le : forall a b : num, n_ltb a b = true -> n_leb a b = true;
  nlt_le : forall a b : num,
    comparable a -> comparable b -> n_ltb a b = false -> n_leb b a = true
}.

(** Every score of the array is comparable: the array holds no NaN. *)
Definition comparable_scores {N : Number} {Ord : ScoreOrder N}
    (scores : list num) : Prop :=
  forall i s, aget scores i = Some s -> comparable s.

Section HeapOrderSpec.
Context {N : Number}.

(** The score of the cell at index [i] of the heap array. *)
Definition score_of (scores : list num) (h : MinHeap) (i : Z) : option num :=
  match aget (hp_heap h) i with
  | Some n => aget scores n
  | None => None
  end.

Definition parent (i : Z) : Z := (i - 1) / 2.

(** Every cell of the heap array scores at least as much as its parent. *)
Definition heap_ordered (scores : list num) (h : MinHeap) : Prop :=
  forall j a b, 0 < j ->
    score_of scores h (parent j) = Some a -> score_of scores h j = Some b ->
    n_leb a b = true.

(** The order holds except between [i] and its parent, and the children
    of [i] score at least as much as its parent: the state of [bubbleUp]. *)
Definition up_inv (scores : list num) (h : MinHeap) (i : Z) : Prop :=
  (forall j a b, 0 < j -> j <> i ->
     score_of scores h (parent j) = Some a -> score_of scores h j = Some b ->
     n_leb a b = true)
  /\ (forall j a b, 0 < i -> 0 < j -> parent j = i ->
        score_of scores h (parent i) = Some a -> score_of scores h j = Some b ->
        n_leb a b = true).

(** The order holds except between [i] and its children, which score at
    least as much as its parent: the state of [bubbleDown]. *)
Definition down_inv (scores : list num) (h : MinHeap) (i : Z) : Prop :=
  (forall j a b, 0 < j -> parent j <> i ->
     score_of scores h (parent j) = Some a -> score_of scores h j = Some b ->
     n_leb a b = true)
  /\ (forall j a b, 0 < i -> 0 < j -> parent j = i ->
        score_of scores h (parent i) = Some a -> score_of scores h j = Some b ->
        n_leb a b = true).

End HeapOrderSpec.

(** ** Costs of paths *)

(** The cost of a path is a sum of moves of cost 1 and of cost sqrt 2:
    a number [a + b * sqrt 2] with [a] and [b] integers, written
    [mk a b].  Such costs are added and compared exactly. *)

Module Exact.

Record Zs2 := mk { ra : Z; rb : Z }.

(** [0 < p + q * sqrt 2] *)
Definition is_pos (p q : Z) : bool :=
  if (0 <=? p) && (0 <=? q) then (0 <? p) || (0 <? q)
  else if (p <=? 0) && (q <=? 0) then false
  else if 0 <? p then 2 * q * q <? p * p
  else p * p <? 2 * q * q.

Definition add (x y : Zs2) : Zs2 := mk (ra x + ra y) (rb x + rb y).
Definition ltb (x y : Zs2) : bool := is_pos (ra y - ra x) (rb y - rb x).

End Exact.

(** The real number a cost stands for. *)
Definition to_R (x : Exact.Zs2) : R :=
  (IZR (Exact.ra x) + IZR (Exact.rb x) * sqrt 2)%R.

(** The cost of a move between adjacent points: 1 along an axis and
    sqrt 2 on a diagonal. *)
Definition step_cost (p q : GridPoint) : Exact.Zs2 :=
  if (gx p =? gx q) || (gy p =? gy q) then Exact.mk 1 0 else Exact.mk 0 1.

(** The sum of the costs of the moves of a path. *)
Fixpoint path_cost (path : list GridPoint) : Exact.Zs2 :=
  match path with
  | p :: (q :: _) as rest => Exact.add (step_cost p q) (path_cost rest)
  | _ => Exact.mk 0 0
  end.

(** ** Spawn search *)

(** The distance of the scan of [findSpawn]: a cell is reached at the
    radius that is the greater of its two offsets. *)
Definition chebyshev (x y cx cy : Z) : Z := Z.max (Z.abs (x - cx)) (Z.abs (y - cy)).

(** ** The heap of the search *)

(** The heap as [findPath] creates it: no node, and a position map of
    [T] entries filled with -1. *)
Definition empty_heap (T : Z) : MinHeap :=
  {| hp_heap := []; hp_positions := replicate (Z.to_nat T) (-1) |}.

Module HeapSamples.

Definition scores : list (@num JsFloat.number) := [1%float; 0%float].
Definition one_node : MinHeap := push (N := JsFloat.number) scores (empty_heap 2) 0.

End HeapSamples.

(** ** Dense forest *)

Section ForestSpec.
Context {N : Number} {F : Fractional N}.

(** The test of [buildDenseForestMask] on a cell. *)
Definition dense (worldData : WorldData) (noise2D : num -> num -> num)
    (threshold : num) (config : WorldGenConfig) (x y : Z) : bool :=
  match aget (ground worldData) (getIndex (width worldData) x y) with
  | Some Soil =>
      negb (n_ltb (heightAt (heightmap worldData) (getIndex (width worldData) x y))
                  (n_add (seaLevel config) (n_div (n_of_Z 2) (n_of_Z 100))))
      && negb (n_ltb (treeSlopeMax config)
                     (getSlopeAt (heightmap worldData) (width worldData)
                                 (height worldData) x y))
      && n_ltb threshold
               (fbm noise2D (n_mul (n_of_Z x) (forestScale config))
                    (n_mul (n_of_Z y) (forestScale config)) 3 (n_of_Z 2) n_half)
  | _ => false
  end.

End ForestSpec.

(** ** Objects of a generated world *)

(** The cell of an object. *)
Definition obj_cell (o : WorldObject) : Z * Z := (obj_x o, obj_y o).

(** The ground that [generateWorld] requires under an object. *)
Definition obj_ground (o : WorldObject) : GroundType :=
  match obj_type o with tree => Soil | rock => Rock end.

(** ** Comparison of doubles *)

(** Two values that no comparison tells apart: the same value, or two
    zeros. *)
Definition same_order (a b : spec_float) : Prop :=
  forall z, SFcompare a z = SFcompare b z /\ SFcompare z a = SFcompare z b.

(** * Properties *)

(** ** Typed arrays *)

Section Arrays.
Context {A : Type}.
Implicit Types (a : list A) (i j : Z) (v w : A).

Lemma aget_range a i v : aget a i = Some v -> 0 <= i < alen a.
Proof.
  unfold aget, alen. destruct (Z.ltb_spec i 0) as [Hn|Hn]; [discriminate|].
  intros H%lookup_lt_Some. lia.
Qed.

Lemma aget_is_Some a i : 0 <= i < alen a -> is_Some (aget a i).
Proof.
  unfold aget, alen. intros [H0 H1]. destruct (Z.ltb_spec i 0) as [Hn|Hn]; [lia|].
  apply lookup_lt_is_Some. lia.
Qed.

Lemma aget_None a i : aget a i = None <-> ~ (0 <= i < alen a).
Proof.
  split.
  - intros H Hr. destruct (aget_is_Some a i Hr) as [v Hv]. congruence.
  - intros H. destruct (aget a i) eqn:E; [|done].
    apply aget_range in E. contradiction.
Qed.

Lemma alen_aset a i v : alen (aset a i v) = alen a.
Proof. unfold alen, aset. destruct (i <? 0); [done|]. by rewrite length_insert. Qed.

Lemma length_aset a i v : length (aset a i v) = length a.
Proof. unfold aset. destruct (i <? 0); [done|]. by rewrite length_insert. Qed.

Lemma aget_aset_eq a i v : 0 <= i < alen a -> aget (aset a i v) i = Some v.
Proof.
  unfold aget, aset, alen. intros [H0 H1]. destruct (Z.ltb_spec i 0) as [Hn|Hn]; [lia|].
  apply list_lookup_insert_eq. lia.
Qed.

Lemma aget_aset_ne a i j v : i <> j -> aget (aset a i v) j = aget a j.
Proof.
  unfold aget, aset. intros Hne.
  destruct (Z.ltb_spec j 0) as [Hj|Hj]; [done|]. destruct (Z.ltb_spec i 0) as [Hi|Hi]; [done|].
  apply list_lookup_insert_ne. lia.
Qed.

Lemma aget_aset_Some a i j v w :
  aget (aset a i v) j = Some w -> (i = j /\ w = v) \/ (i <> j /\ aget a j = Some w).
Proof.
  intros H. destruct (decide (i = j)) as [->|Hne].
  - left. split; [done|]. pose proof (aget_range _ _ _ H) as Hr.
    rewrite alen_aset in Hr. rewrite aget_aset_eq in H by done. congruence.
  - right. by rewrite aget_aset_ne in H.
Qed.

Lemma aget_replicate n v i : 0 <= i < Z.of_nat n -> aget (replicate n v) i = Some v.
Proof.
  intros [H0 H1]. unfold aget. destruct (Z.ltb_spec i 0); [lia|].
  apply lookup_replicate_2. lia.
Qed.

Lemma aget_replicate_Some n v i w : aget (replicate n v) i = Some w -> w = v.
Proof.
  unfold aget. destruct (i <? 0); [done|]. intros H%lookup_replicate. tauto.
Qed.

Lemma alen_replicate n v : alen (replicate n v) = Z.of_nat n.
Proof. unfold alen. by rewrite length_replicate. Qed.

End Arrays.

(** ** Fog of war *)

Section RevealFacts.
Context {N : Number}.
Implicit Types (world : WorldData) (mask newly : list Z).

Lemma fold_left_flat_map {S B C} (f : S -> C -> S) (g : B -> list C) (l : list B) (s : S) :
  fold_left f (flat_map g l) s = fold_left (fun s b => fold_left f (g b) s) l s.
Proof.
  revert s. induction l as [|b l IH]; intros s; simpl; [done|].
  by rewrite fold_left_app, IH.
Qed.

Lemma fold_left_ext_in {S B} (f g : S -> B -> S) (l : list B) (s : S) :
  (forall s b, f s b = g s b) -> fold_left f l s = fold_left g l s.
Proof.
  intros H. revert s. induction l as [|b l IH]; intros s; simpl; [done|].
  by rewrite H, IH.
Qed.

Lemma revealAround_targets world mask center radius :
  revealAround world mask center radius
  = fold_left mark (targets world center radius) (mask, []).
Proof.
  unfold revealAround, targets. rewrite fold_left_flat_map.
  apply fold_left_ext_in. intros st dy. rewrite fold_left_flat_map.
  apply fold_left_ext_in. intros [m nw] dx.
  unfold reveal_cell, mark. simpl.
  destruct (_ >? _); [done|]. destruct (negb _); [done|]. done.
Qed.

Lemma mark_keeps_one st index c :
  aget (fst st) c = Some 1 -> aget (fst (mark st index)) c = Some 1.
Proof.
  intros H. unfold mark. destruct (aget (fst st) index) as [[| |]|] eqn:E; simpl; try done.
  destruct (decide (index = c)) as [->|Hne]; [congruence|].
  by rewrite aget_aset_ne.
Qed.

Lemma mark_nonzero st index c :
  aget (fst st) c <> Some 0 -> aget (fst (mark st index)) c <> Some 0.
Proof.
  intros H. unfold mark. destruct (aget (fst st) index) as [[| |]|] eqn:E; simpl; try done.
  destruct (decide (index = c)) as [->|Hne]; [congruence|].
  by rewrite aget_aset_ne.
Qed.

Lemma mark_self_nonzero st index : aget (fst (mark st index)) index <> Some 0.
Proof.
  unfold mark. destruct (aget (fst st) index) as [[| |]|] eqn:E; simpl; try congruence.
  rewrite aget_aset_eq; [done|]. eapply aget_range; eauto.
Qed.

Lemma marks_keep_one l st c :
  aget (fst st) c = Some 1 -> aget (fst (fold_left mark l st)) c = Some 1.
Proof.
  revert st. induction l as [|i l IH]; intros st H; simpl; [done|].
  apply IH. by apply mark_keeps_one.
Qed.

Lemma marks_nonzero l st c :
  aget (fst st) c <> Some 0 -> aget (fst (fold_left mark l st)) c <> Some 0.
Proof.
  revert st. induction l as [|i l IH]; intros st H; simpl; [done|].
  apply IH. by apply mark_nonzero.
Qed.

Lemma marks_cover l st c :
  c ∈ l -> aget (fst (fold_left mark l st)) c <> Some 0.
Proof.
  revert st. induction l as [|i l IH]; intros st Hin; simpl.
  - by apply not_elem_of_nil in Hin.
  - apply elem_of_cons in Hin as [->|Hin]; [|by apply IH].
    apply marks_nonzero, mark_self_nonzero.
Qed.

Lemma marks_newly l st c :
  c ∈ snd (fold_left mark l st) -> c ∈ snd st \/ aget (fst st) c = Some 0.
Proof.
  revert st. induction l as [|i l IH]; intros st Hin; simpl in *; [by left|].
  apply IH in Hin as [Hin|Hz].
  - unfold mark in Hin. destruct (aget (fst st) i) as [[| |]|] eqn:E; simpl in *; auto.
    apply elem_of_app in Hin as [Hin|Hin]; [by left|].
    apply list_elem_of_singleton in Hin as ->. by right.
  - right. unfold mark in Hz.
    destruct (aget (fst st) i) as [[| |]|] eqn:E; simpl in *; auto.
    destruct (decide (i = c)) as [->|Hne]; [done|].
    by rewrite aget_aset_ne in Hz.
Qed.

Lemma marks_idle l st :
  (forall c, c ∈ l -> aget (fst st) c <> Some 0) -> fold_left mark l st = st.
Proof.
  induction l as [|i l IH]; intros H; simpl; [done|].
  assert (mark st i = st) as ->.
  { unfold mark. specialize (H i (list_elem_of_here _ _)).
    destruct (aget (fst st) i) as [[| |]|]; done. }
  apply IH. intros c Hc. apply H. by apply list_elem_of_further.
Qed.

Lemma revealAround_keeps_one world mask center radius c :
  aget mask c = Some 1 ->
  aget (fst (revealAround world mask center radius)) c = Some 1.
Proof. intros H. rewrite revealAround_targets. by apply marks_keep_one. Qed.

Lemma revealSequence_keeps_one world calls mask c :
  aget mask c = Some 1 -> aget (revealSequence world mask calls) c = Some 1.
Proof.
  unfold revealSequence. revert mask.
  induction calls as [|[ctr r] calls IH]; intros mask H; simpl; [done|].
  apply IH. by apply revealAround_keeps_one.
Qed.

Lemma revealSequence_app world mask calls1 calls2 :
  revealSequence world mask (calls1 ++ calls2)
  = revealSequence world (revealSequence world mask calls1) calls2.
Proof. unfold revealSequence. by rewrite fold_left_app. Qed.

(** C6 (reveal monotonicity). Whatever calls were made so far and
    whatever calls follow, a mask entry equal to 1 stays 1; and every
    index returned by a call had its entry equal to 0 just before that
    call. *)
Theorem reveal_monotone world mask calls1 :
  (forall c calls2,
      aget (revealSequence world mask calls1) c = Some 1 ->
      aget (revealSequence world mask (calls1 ++ calls2)) c = Some 1)
  /\ (forall center radius i,
         i ∈ snd (revealAround world (revealSequence world mask calls1) center radius) ->
         aget (revealSequence world mask calls1) i = Some 0).
Proof.
  split.
  - intros c calls2 H. rewrite revealSequence_app.
    by apply revealSequence_keeps_one.
  - intros center radius i. rewrite revealAround_targets.
    intros [Hin|Hz]%marks_newly; [|done].
    simpl in Hin. by apply not_elem_of_nil in Hin.
Qed.

(** C7 (reveal idempotence). A second call with the same centre and
    radius returns the empty list and leaves the mask as the first call
    left it. *)
Theorem reveal_idempotent world mask center radius :
  revealAround world (fst (revealAround world mask center radius)) center radius
  = (fst (revealAround world mask center radius), []).
Proof.
  rewrite !revealAround_targets.
  apply marks_idle. intros c Hc. simpl. by apply marks_cover.
Qed.

End RevealFacts.

(** ** Cell predicates *)

Section CellFacts.
Context {N : Number}.

Lemma inBounds_spec (world : WorldData) x y :
  inBounds world x y = true <-> 0 <= x < width world /\ 0 <= y < height world.
Proof. unfold inBounds. rewrite !andb_true_iff. lia. Qed.

Lemma index_range (world : WorldData) x y :
  inBounds world x y = true ->
  0 <= getIndex (width world) x y < width world * height world.
Proof. rewrite inBounds_spec. unfold getIndex. nia. Qed.

Lemma index_rem w x y : 0 <= x < w -> 0 <= y -> Z.rem (getIndex w x y) w = x.
Proof.
  intros Hx Hy. unfold getIndex. rewrite Z.rem_mod_nonneg by nia.
  rewrite Z.mod_add by lia. apply Z.mod_small. lia.
Qed.

Lemma index_div w x y : 0 <= x < w -> (getIndex w x y) / w = y.
Proof.
  intros Hx. unfold getIndex. rewrite Z.div_add by lia.
  rewrite Z.div_small by lia. lia.
Qed.

Lemma index_inj w x y x' y' :
  0 <= x < w -> 0 <= x' < w -> getIndex w x y = getIndex w x' y' -> x = x' /\ y = y'.
Proof. unfold getIndex. intros Hx Hx' He. assert (y = y') by nia. subst. lia. Qed.

Lemma getGround_not_water_inBounds (world : WorldData) x y :
  getGround world x y <> Water -> inBounds world x y = true.
Proof. unfold getGround. destruct (inBounds world x y); simpl; congruence. Qed.

(** C8, as the code has it. A cell is passable for pathing iff it is in
    bounds, its reveal entry is not 0, it is not blocked, its ground is
    not Water and no object stands on it; [isCellStandable] asks for the
    same except that it never looks at the reveal mask. *)
Theorem cell_predicates (world : WorldData) (revealed bm : list Z) (x y : Z)
    (options : PathOptions) :
  (isCellPassable world revealed x y options = true <->
     inBounds world x y = true
     /\ aget revealed (getIndex (width world) x y) <> Some 0
     /\ blockedAt options (getIndex (width world) x y) = false
     /\ getGround world x y <> Water
     /\ cellHasObject world x y = false)
  /\ (isCellStandable world x y bm = true <->
       inBounds world x y = true
       /\ aget bm (getIndex (width world) x y) <> Some 1
       /\ getGround world x y <> Water
       /\ cellHasObject world x y = false).
Proof.
  split.
  - unfold isCellPassable.
    destruct (inBounds world x y) eqn:Hb; simpl; [|intuition congruence].
    destruct (aget revealed _) as [[| |]|] eqn:Hr;
      destruct (blockedAt options _) eqn:Hbl;
      destruct (getGround world x y) eqn:Hg;
      rewrite ?negb_true_iff; intuition congruence.
  - unfold isCellStandable.
    destruct (getGround world x y) eqn:Hg.
    + intuition congruence.
    + assert (inBounds world x y = true) as -> by (apply getGround_not_water_inBounds; congruence).
      destruct (aget bm _) as [[|[]|]|]; rewrite ?negb_true_iff; intuition congruence.
    + assert (inBounds world x y = true) as -> by (apply getGround_not_water_inBounds; congruence).
      destruct (aget bm _) as [[|[]|]|]; rewrite ?negb_true_iff; intuition congruence.
    + assert (inBounds world x y = true) as -> by (apply getGround_not_water_inBounds; congruence).
      destruct (aget bm _) as [[|[]|]|]; rewrite ?negb_true_iff; intuition congruence.
Qed.

End CellFacts.

(** C8, as stated, fails: on a one-cell world of Soil whose cell is not
    revealed, the cell is standable although it is not passable. *)
Lemma standable_ignores_reveal :
  aget [0] (getIndex (width (Samples.flat 1 1)) 0 0) = Some 0
  /\ isCellStandable (Samples.flat 1 1) 0 0 [0] = true
  /\ isCellPassable (Samples.flat 1 1) [0] 0 0 (Samples.walk true (Some [0])) = false.
Proof. repeat split. Qed.

(** ** Fractal noise *)

(** C9 at [octaves <= 0], on doubles: [ridgedFbm] returns 0, and [fbm]
    divides 0 by 0 and returns NaN. *)
Theorem fbm_without_octaves (noise2D : float -> float -> float)
    (x y lacunarity gain : float) (k : nat) :
  PrimFloat.is_nan (fbm (N := JsFloat.number) noise2D x y (- Z.of_nat k) lacunarity gain) = true
  /\ ridgedFbm (N := JsFloat.number) noise2D x y (- Z.of_nat k) lacunarity gain = 0%float.
Proof.
  unfold fbm, ridgedFbm.
  replace (Z.to_nat (- Z.of_nat k)) with O by lia.
  split; reflexivity.
Qed.

(** ** The binary heap *)

Section HeapFacts.
Context {N : Number}.
Implicit Types (h : MinHeap) (scores : list num).

Ltac asimpl :=
  repeat first
    [ rewrite alen_aset in *
    | rewrite aget_aset_eq in * by (rewrite ?alen_aset; lia)
    | rewrite aget_aset_ne in * by lia ].

Lemma heap_wf_inj T h i j n :
  heap_wf T h -> aget (hp_heap h) i = Some n -> aget (hp_heap h) j = Some n -> i = j.
Proof.
  intros W Hi Hj. apply (wf_heap_pos _ _ W) in Hi as [_ Hi].
  apply (wf_heap_pos _ _ W) in Hj as [_ Hj]. congruence.
Qed.

Lemma swap_heap_lookup T h a b t o i :
  heap_wf T h -> aget (hp_heap h) a = Some t -> aget (hp_heap h) b = Some o ->
  aget (aset (aset (hp_heap h) a o) b t) i
  = if decide (i = b) then Some t else if decide (i = a) then Some o
    else aget (hp_heap h) i.
Proof.
  intros W Ha Hb.
  pose proof (aget_range _ _ _ Ha). pose proof (aget_range _ _ _ Hb).
  repeat case_decide; subst; asimpl; done.
Qed.

Lemma swap_pos_lookup T h a b t o n :
  heap_wf T h -> aget (hp_heap h) a = Some t -> aget (hp_heap h) b = Some o ->
  aget (aset (aset (hp_positions h) o a) t b) n
  = if decide (n = t) then Some b else if decide (n = o) then Some a
    else aget (hp_positions h) n.
Proof.
  intros W Ha Hb.
  destruct (wf_heap_pos _ _ W _ _ Ha) as [Rt _].
  destruct (wf_heap_pos _ _ W _ _ Hb) as [Ro _].
  pose proof (wf_pos_len _ _ W).
  repeat case_decide; subst; asimpl; done.
Qed.

Lemma swap_wf T h a b : heap_wf T h -> heap_wf T (swap h a b).
Proof.
  intros W. unfold swap.
  destruct (aget (hp_heap h) a) as [t|] eqn:Ha; [|done].
  destruct (aget (hp_heap h) b) as [o|] eqn:Hb; [|done].
  destruct (wf_heap_pos _ _ W _ _ Ha) as [Rt Pt].
  destruct (wf_heap_pos _ _ W _ _ Hb) as [Ro Po].
  split; simpl.
  - rewrite !alen_aset. apply W.
  - intros i n. rewrite (swap_heap_lookup T h a b t o i W Ha Hb).
    rewrite (swap_pos_lookup T h a b t o n W Ha Hb).
    repeat case_decide; subst; intros Hn; simplify_eq;
      try (pose proof (heap_wf_inj _ _ _ _ _ W Hn Ha));
      try (pose proof (heap_wf_inj _ _ _ _ _ W Hn Hb));
      try (pose proof (heap_wf_inj _ _ _ _ _ W Ha Hb));
      subst; try done; try (split; [done|congruence]).
    by apply W.
  - intros n p. rewrite (swap_pos_lookup T h a b t o n W Ha Hb).
    rewrite (swap_heap_lookup T h a b t o p W Ha Hb).
    repeat case_decide; subst; intros Hn; simplify_eq;
      try (by right); try (by left); try congruence;
      destruct (wf_pos_heap _ _ W _ _ Hn) as [?|?]; try (by left);
      try congruence.
    by right.
Qed.

Lemma swap_in_heap T h a b n :
  heap_wf T h -> in_heap (swap h a b) n <-> in_heap h n.
Proof.
  intros W. unfold swap, in_heap.
  destruct (aget (hp_heap h) a) as [t|] eqn:Ha; [|done].
  destruct (aget (hp_heap h) b) as [o|] eqn:Hb; [|done]. simpl.
  split.
  - intros [i Hi]. rewrite (swap_heap_lookup T h a b t o i W Ha Hb) in Hi.
    repeat case_decide; simplify_eq; eauto.
  - intros [i Hi].
    destruct (decide (i = a)) as [->|Na]; [|destruct (decide (i = b)) as [->|Nb]].
    + exists b. rewrite (swap_heap_lookup T h a b t o b W Ha Hb).
      rewrite decide_True by done. congruence.
    + exists a. rewrite (swap_heap_lookup T h a b t o a W Ha Hb).
      case_decide; [congruence|]. rewrite decide_True by done. congruence.
    + exists i. rewrite (swap_heap_lookup T h a b t o i W Ha Hb).
      by rewrite !decide_False.
Qed.

Lemma swap_size h a b : hp_size (swap h a b) = hp_size h.
Proof.
  unfold swap, hp_size.
  destruct (aget (hp_heap h) a); [|done]. destruct (aget (hp_heap h) b); [|done].
  simpl. by rewrite !alen_aset.
Qed.

Lemma bubbleUp_loop_wf T fuel scores h i :
  heap_wf T h ->
  heap_wf T (bubbleUp_loop fuel scores h i)
  /\ (forall n, in_heap (bubbleUp_loop fuel scores h i) n <-> in_heap h n).
Proof.
  revert h i. induction fuel as [|fuel IH]; intros h i W; simpl.
  - destruct (i >? 0); done.
  - destruct (i >? 0); [|done].
    destruct (aget (hp_heap h) i) as [node|]; [|done].
    destruct (aget (hp_heap h) ((i - 1) / 2)) as [parentNode|]; [|done].
    destruct (aget scores node); [|done].
    destruct (aget scores parentNode); [|done].
    destruct (n_leb _ _); [done|].
    destruct (IH (swap h i ((i - 1) / 2)) ((i - 1) / 2)) as [W' E'].
    { by apply swap_wf. }
    split; [done|]. intros m. rewrite E'. by apply (swap_in_heap T).
Qed.

Lemma bubbleDown_loop_wf T fuel scores h i :
  heap_wf T h ->
  heap_wf T (bubbleDown_loop fuel scores h i)
  /\ (forall n, in_heap (bubbleDown_loop fuel scores h i) n <-> in_heap h n).
Proof.
  revert h i. induction fuel as [|fuel IH]; intros h i W; simpl; [done|].
  destruct (aget (hp_heap h) i) as [node|]; [|done].
  destruct (aget scores node); [|done].
  destruct (_ =? i); [done|].
  match goal with |- context [swap h i ?c] =>
    destruct (IH (swap h i c) c) as [W' E']; [by apply swap_wf|] end.
  split; [done|]. intros m. rewrite E'. by apply (swap_in_heap T).
Qed.

Lemma push_wf T scores h node :
  heap_wf T h -> 0 <= node < T ->
  heap_wf T (push scores h node)
  /\ (forall n, in_heap (push scores h node) n <-> in_heap h n \/ n = node).
Proof.
  intros W R. unfold push.
  pose proof (wf_pos_len _ _ W) as L.
  destruct (aget_is_Some (hp_positions h) node) as [p Hp]; [lia|].
  rewrite Hp. destruct (Z.eqb_spec p (-1)) as [->|Np].
  - assert (forall i, aget (hp_heap h) i <> Some node) as Fresh.
    { intros i Hi. pose proof (aget_range _ _ _ Hi) as Hr.
      apply (wf_heap_pos _ _ W) in Hi as [_ Hi]. rewrite Hp in Hi.
      simplify_eq. lia. }
    match goal with |- context [bubbleUp scores ?h' ?i] =>
      destruct (bubbleUp_loop_wf T (Z.to_nat i) scores h' i) as [W' E'] end.
    + split; simpl.
      * by rewrite alen_aset.
      * intros i n Hi. unfold aget in Hi.
        destruct (Z.ltb_spec i 0) as [?|Hi0]; [done|].
        apply lookup_app_Some in Hi as [Hi|[Hlen Hi]].
        -- assert (aget (hp_heap h) i = Some n) as Hi'.
           { unfold aget. destruct (Z.ltb_spec i 0); [lia|done]. }
           destruct (wf_heap_pos _ _ W _ _ Hi') as [? ?]. split; [done|].
           rewrite aget_aset_ne; [done|]. intros ->. by eapply Fresh.
        -- apply list_lookup_singleton_Some in Hi as [Hi ->].
           split; [done|]. rewrite aget_aset_eq by lia. f_equal.
           unfold alen. rewrite length_app. simpl. lia.
      * intros n q. destruct (decide (n = node)) as [->|Nn].
        -- rewrite aget_aset_eq by lia. intros [= <-]. right.
           unfold aget, alen. rewrite length_app. simpl.
           destruct (Z.ltb_spec (Z.of_nat (length (hp_heap h) + 1) - 1) 0); [lia|].
           rewrite lookup_app_r by lia.
           replace (_ - _)%nat with O by lia. done.
        -- rewrite aget_aset_ne by done. intros Hq.
           destruct (wf_pos_heap _ _ W _ _ Hq) as [?|Hh]; [by left|right].
           unfold aget in *. destruct (q <? 0); [done|].
           by apply lookup_app_l_Some.
    + split; [done|]. intros n. unfold bubbleUp. rewrite E'.
      unfold in_heap. simpl. split.
      * intros [i Hi]. unfold aget in Hi. destruct (Z.ltb_spec i 0); [done|].
        apply lookup_app_Some in Hi as [Hi|[Hlen Hi]].
        -- left. exists i. unfold aget. destruct (Z.ltb_spec i 0); [lia|done].
        -- apply list_lookup_singleton_Some in Hi as [_ ->]. by right.
      * intros [[i Hi]| ->].
        -- exists i. unfold aget in *. destruct (i <? 0); [done|].
           by apply lookup_app_l_Some.
        -- exists (alen (hp_heap h)). unfold aget, alen.
           destruct (Z.ltb_spec (Z.of_nat (length (hp_heap h))) 0); [lia|].
           rewrite lookup_app_r by lia.
           replace (_ - _)%nat with O by lia. done.
  - split; [done|]. intros n. split; [by left|]. intros [?| ->]; [done|].
    destruct (wf_pos_heap _ _ W _ _ Hp) as [?|?]; [done|]. by exists p.
Qed.

Lemma update_wf T scores h node :
  heap_wf T h -> 0 <= node < T ->
  heap_wf T (update scores h node)
  /\ (forall n, in_heap (update scores h node) n <-> in_heap h n \/ n = node).
Proof.
  intros W R. unfold update.
  destruct (aget (hp_positions h) node) as [p|] eqn:Hp; [|by apply push_wf].
  destruct (Z.eqb_spec p (-1)) as [->|Np]; [by apply push_wf|].
  destruct (bubbleUp_loop_wf T (Z.to_nat p) scores h p W) as [W' E'].
  split; [done|]. intros n. unfold bubbleUp. rewrite E'.
  split; [by left|]. intros [?| ->]; [done|].
  destruct (wf_pos_heap _ _ W _ _ Hp) as [?|?]; [done|]. by exists p.
Qed.

Lemma aget_take {A} (l : list A) (k : nat) i :
  aget (take k l) i = if decide (i < Z.of_nat k) then aget l i else None.
Proof.
  unfold aget. destruct (Z.ltb_spec i 0) as [?|Hi]; [by case_decide|].
  case_decide.
  - apply lookup_take_lt. lia.
  - apply lookup_take_ge. lia.
Qed.

Lemma aget_head {A} (x : A) l : aget (x :: l) 0 = Some x.
Proof. done. Qed.

Lemma pop_wf T scores h root h' :
  heap_wf T h -> pop scores h = (root, h') ->
  (hp_heap h = [] /\ root = -1 /\ h' = h)
  \/ (in_heap h root /\ heap_wf T h'
      /\ forall n, in_heap h' n <-> in_heap h n /\ n <> root).
Proof.
  intros W Hpop. unfold pop in Hpop.
  destruct (hp_heap h) as [|r rest] eqn:Hh; [left; by simplify_eq|].
  right. revert Hpop.
  assert (aget (hp_heap h) 0 = Some r) as H0 by (by rewrite Hh).
  destruct (wf_heap_pos _ _ W _ _ H0) as [Rr Pr].
  pose proof (wf_pos_len _ _ W) as L.
  assert (in_heap h r) as Hin by (by exists 0).
  rewrite <- Hh.
  destruct (last (hp_heap h)) as [l|] eqn:Hl;
    [|rewrite last_lookup, Hh in Hl; apply lookup_ge_None in Hl;
      simpl in Hl; lia].
  rewrite last_lookup in Hl.
  set (len := length (hp_heap h)) in *.
  assert (len = S (length rest)) as Hlen by (unfold len; by rewrite Hh).
  assert (aget (hp_heap h) (Z.of_nat len - 1) = Some l) as Hl'.
  { unfold aget. destruct (Z.ltb_spec (Z.of_nat len - 1) 0); [lia|].
    rewrite <- Hl. f_equal. lia. }
  destruct (wf_heap_pos _ _ W _ _ Hl') as [Rl Pl].
  destruct (take (len - 1) (hp_heap h)) as [|x heap1'] eqn:Ht.
  - (* the heap held the root only *)
    intros [= <- <-].
    assert (len = 1%nat) as Hone.
    { apply (f_equal length) in Ht. rewrite length_take in Ht. simpl in Ht.
      fold len in Ht. lia. }
    assert (forall i n, aget (hp_heap h) i = Some n -> i = 0 /\ n = r) as Only.
    { intros i n Hi. pose proof (aget_range _ _ _ Hi) as Hr. unfold alen in Hr.
      fold len in Hr. assert (i = 0) as -> by lia. split; congruence. }
    split; [done|]. split; [split; simpl|].
    + by rewrite alen_aset.
    + intros i n Hi. unfold aget in Hi. destruct (i <? 0); by rewrite ?lookup_nil in Hi.
    + intros n p Hp. destruct (decide (n = r)) as [->|Nr].
      * rewrite aget_aset_eq in Hp by lia. left. congruence.
      * rewrite aget_aset_ne in Hp by done.
        destruct (wf_pos_heap _ _ W _ _ Hp) as [?|Hq]; [by left|].
        apply Only in Hq as [_ ?]. done.
    + intros n. unfold in_heap at 1. simpl. split.
      * intros [i Hi]. unfold aget in Hi. destruct (i <? 0); by rewrite ?lookup_nil in Hi.
      * intros [[i Hi] Hn]. apply Only in Hi as [_ ?]. done.
  - (* the last cell moves to the root *)
    rewrite <- Ht.
    assert (2 <= len)%nat as Htwo.
    { apply (f_equal length) in Ht. rewrite length_take in Ht. simpl in Ht.
      fold len in Ht. lia. }
    assert (l <> r) as Nlr.
    { intros ->. pose proof (heap_wf_inj _ _ _ _ _ W H0 Hl'). lia. }
    set (h2 := {| hp_heap := aset (take (len - 1) (hp_heap h)) 0 l;
                  hp_positions := aset (aset (hp_positions h) r (-1)) l 0 |}).
    assert (forall i, aget (hp_heap h2) i
              = if decide (i = 0) then Some l
                else if decide (i < Z.of_nat len - 1) then aget (hp_heap h) i
                else None) as Lk.
    { intros i. simpl. destruct (decide (i = 0)) as [->|Ni].
      - rewrite aget_aset_eq; [done|]. unfold alen. rewrite length_take.
        fold len. lia.
      - rewrite aget_aset_ne by done. rewrite aget_take.
        repeat case_decide; done || lia. }
    assert (forall n, aget (hp_positions h2) n
              = if decide (n = l) then Some 0
                else if decide (n = r) then Some (-1)
                else aget (hp_positions h) n) as Lp.
    { intros n. simpl. repeat case_decide; subst.
      - rewrite aget_aset_eq; [done|]. rewrite alen_aset. lia.
      - rewrite aget_aset_ne by done. rewrite aget_aset_eq; [done|lia].
      - by rewrite !aget_aset_ne. }
    assert (heap_wf T h2) as W2.
    { split.
      - simpl. by rewrite !alen_aset.
      - intros i n. rewrite Lk, Lp. repeat case_decide; subst; intros Hi;
          simplify_eq; try done;
          try (pose proof (heap_wf_inj _ _ _ _ _ W Hi Hl'));
          try (pose proof (heap_wf_inj _ _ _ _ _ W Hi H0));
          try lia.
        by apply W.
      - intros n p. rewrite Lk, Lp. repeat case_decide; subst; intros Hp;
          simplify_eq; try (by left); try (by right);
          destruct (wf_pos_heap _ _ W _ _ Hp) as [?|Hq]; try (by left);
          try (pose proof (heap_wf_inj _ _ _ _ _ W Hq Hl'));
          try (pose proof (heap_wf_inj _ _ _ _ _ W Hq H0));
          try (pose proof (aget_range _ _ _ Hq) as Hrange; unfold alen in Hrange);
          try lia; try congruence; try (by right).
        assert (p = Z.of_nat (length (hp_heap h)) - 1) as -> by lia.
        congruence. }
    assert (forall n, in_heap h2 n <-> in_heap h n /\ n <> r) as E2.
    { intros n. unfold in_heap. split.
      - intros [i Hi]. rewrite Lk in Hi. repeat case_decide; simplify_eq.
        + split; [by eexists|done].
        + split; [by eexists|]. intros ->.
          pose proof (heap_wf_inj _ _ _ _ _ W Hi H0). lia.
      - intros [[i Hi] Hn].
        destruct (decide (i = Z.of_nat len - 1)) as [->|Ni].
        + exists 0. rewrite Lk. rewrite decide_True by done. congruence.
        + exists i. rewrite Lk.
          pose proof (aget_range _ _ _ Hi) as Hrange. unfold alen in Hrange.
          fold len in Hrange.
          rewrite decide_False by (intros ->; congruence).
          rewrite decide_True by lia. done. }
    intros [= <- <-]. split; [done|].
    destruct (bubbleDown_loop_wf T (length (hp_heap h2)) scores h2 0 W2) as [W3 E3].
    split; [done|]. intros n. unfold bubbleDown. rewrite E3. apply E2.
Qed.

End HeapFacts.

(** ** The search loop *)

Section SearchFacts.
Context {N : Number}.
Implicit Types (world : WorldData) (options : PathOptions) (st : Search).

Lemma point_of_index world x y :
  inBounds world x y = true ->
  point_of (width world) (getIndex (width world) x y) = {| gx := x; gy := y |}.
Proof.
  intros [Hx Hy]%inBounds_spec. unfold point_of.
  rewrite index_rem by lia. rewrite index_div by lia. done.
Qed.

Lemma neighbors_adjacent options dx dy cost p :
  (dx, dy, cost) ∈ neighbors options ->
  adjacent (allowDiagonal options) p {| gx := gx p + dx; gy := gy p + dy |}.
Proof.
  unfold neighbors, adjacent. simpl.
  destruct (allowDiagonal options); intros Hin;
    repeat (apply elem_of_cons in Hin as [[= -> -> ->]|Hin]; [lia|]);
    by apply not_elem_of_nil in Hin.
Qed.

Lemma chain_ok_aset cf order n v :
  n ∉ order -> chain_ok cf order -> chain_ok (aset cf n v) order.
Proof.
  induction order as [|m rest IH]; simpl; [done|].
  intros Hn [Hm Hrest]. apply not_elem_of_cons in Hn as [Hne Hn].
  split; [|by apply IH]. intros p. rewrite aget_aset_ne by done. apply Hm.
Qed.

Lemma NoDup_range_length (l : list Z) (T : Z) :
  NoDup l -> (forall n, n ∈ l -> 0 <= n < T) -> (length l <= Z.to_nat T)%nat.
Proof.
  intros Hnd Hr.
  assert (NoDup (Z.to_nat <$> l)) as Hnd'.
  { apply NoDup_fmap_2_strong; [|done]. intros a b Ha Hb Hab.
    apply Hr in Ha. apply Hr in Hb. lia. }
  assert (length (Z.to_nat <$> l) <= length (seq 0 (Z.to_nat T)))%nat as Hle.
  { apply submseteq_length, NoDup_submseteq; [done|].
    intros x [n [-> Hn]]%list_elem_of_fmap. apply Hr in Hn.
    apply elem_of_seq. lia. }
  by rewrite length_fmap, length_seq in Hle.
Qed.

Lemma initial_inv world revealed options start goal :
  inBounds world (gx start) (gy start) = true ->
  search_inv world revealed options
    (getIndex (width world) (gx start) (gy start))
    (initial world start goal) [].
Proof.
  intros Hb. pose proof (index_range _ _ _ Hb) as Hr.
  set (T := width world * height world) in *.
  set (s := getIndex (width world) (gx start) (gy start)) in *.
  assert (Z.of_nat (Z.to_nat T) = T) as HT by lia.
  assert (heap_wf T {| hp_heap := []; hp_positions := replicate (Z.to_nat T) (-1) |})
    as W0.
  { split; simpl.
    - by rewrite alen_replicate.
    - intros i n Hi. unfold aget in Hi. destruct (i <? 0); by rewrite ?lookup_nil in Hi.
    - intros n p Hp. apply aget_replicate_Some in Hp. by left. }
  unfold initial; fold T; fold s.
  match goal with |- context [push ?sc ?h0 s] =>
    destruct (push_wf T sc h0 s W0 Hr) as [W1 E1] end.
  assert (forall n, in_heap {| hp_heap := []; hp_positions := replicate (Z.to_nat T) (-1) |} n -> False)
    as Hempty.
  { intros n [i Hi]. simpl in Hi. unfold aget in Hi.
    destruct (i <? 0); by rewrite ?lookup_nil in Hi. }
  split; simpl.
  - done.
  - by rewrite alen_replicate.
  - by rewrite alen_replicate.
  - intros n v Hv. apply aget_replicate_Some in Hv. by left.
  - intros n [Hn| ->]%E1; [by apply Hempty in Hn|].
    apply aget_replicate. lia.
  - intros n Hn. by apply not_elem_of_nil in Hn.
  - constructor.
  - intros n p Hp Hne. apply aget_replicate_Some in Hp. done.
  - done.
  - apply aget_replicate. lia.
  - intros n _ [[Hn| ->]%E1|Hn]; [by apply Hempty in Hn|done|].
    by apply not_elem_of_nil in Hn.
  - right. split; [done|]. intros n [Hn| ->]%E1; [by apply Hempty in Hn|done].
Qed.

Lemma relax_inv world revealed goal options startIndex st order current nb :
  search_inv world revealed options startIndex st order ->
  current ∈ order ->
  nb ∈ neighbors options ->
  search_inv world revealed options startIndex
    (relax world revealed goal options current
           (Z.rem current (width world)) (current / width world) st nb)
    order.
Proof.
  intros I Hcur Hnb. destruct nb as [[dx dy] cost]. unfold relax.
  set (nx := Z.rem current (width world) + dx).
  set (ny := current / width world + dy).
  destruct (inBounds world nx ny) eqn:Hb; simpl; [|done].
  set (ni := getIndex (width world) nx ny).
  pose proof (index_range _ _ _ Hb) as Hr. fold ni in Hr.
  destruct (aget_is_Some (closed st) ni) as [c Hc];
    [by rewrite (inv_closed_len _ _ _ _ _ _ I)|].
  rewrite Hc.
  destruct (inv_closed_bits _ _ _ _ _ _ I _ _ Hc) as [->| ->]; [|done].
  destruct (isCellPassable world revealed nx ny options) eqn:Hp; simpl; [|done].
  destruct (n_ltb (maxSlope options) _) eqn:Hs; [done|].
  match goal with |- context [if n_ltb ?a ?b then _ else _] =>
    destruct (n_ltb a b); [|done] end.
  assert (ni ∉ order) as Hni.
  { intros Hin. apply (inv_order_closed _ _ _ _ _ _ I) in Hin. congruence. }
  assert (0 <= current) as Hc0.
  { apply (inv_order_closed _ _ _ _ _ _ I) in Hcur. apply aget_range in Hcur. lia. }
  assert (startIndex ∈ order) as Hst.
  { destruct (inv_start_seen _ _ _ _ _ _ I) as [?|[-> _]]; [done|].
    by apply not_elem_of_nil in Hcur. }
  assert (ni <> startIndex) as Hns by (intros ->; done).
  match goal with |- context [update ?sc (openHeap st) ni] =>
    destruct (update_wf _ sc (openHeap st) ni (inv_heap _ _ _ _ _ _ I) Hr)
      as [W' E'] end.
  split; simpl.
  - done.
  - apply I.
  - rewrite alen_aset. apply I.
  - apply I.
  - intros n [Hn| ->]%E'; [by apply I|done].
  - apply I.
  - apply I.
  - intros n p Hn Hne. destruct (decide (ni = n)) as [<-|Hd].
    + rewrite aget_aset_eq in Hn by (rewrite (inv_came_len _ _ _ _ _ _ I); lia).
      injection Hn as <-. split; [done|].
      unfold ni. rewrite point_of_index by done.
      split; [|split].
      * apply (neighbors_adjacent options dx dy cost
                 (point_of (width world) current) Hnb).
      * done.
      * done.
    + rewrite aget_aset_ne in Hn by done. by apply I.
  - apply chain_ok_aset; [done|apply I].
  - rewrite aget_aset_ne by done. apply I.
  - intros n Hn Hw. destruct (decide (ni = n)) as [<-|Hd].
    + rewrite aget_aset_eq in Hn by (rewrite (inv_came_len _ _ _ _ _ _ I); lia).
      injection Hn as ?. lia.
    + rewrite aget_aset_ne in Hn by done.
      apply (inv_roots _ _ _ _ _ _ I n Hn).
      destruct Hw as [[?| ->]%E'|?]; [by left|done|by right].
  - by left.
Qed.

Lemma relax_all_inv world revealed goal options startIndex order current l st :
  search_inv world revealed options startIndex st order ->
  current ∈ order ->
  (forall nb, nb ∈ l -> nb ∈ neighbors options) ->
  search_inv world revealed options startIndex
    (fold_left (relax world revealed goal options current
                      (Z.rem current (width world)) (current / width world))
               l st)
    order.
Proof.
  revert st. induction l as [|nb l IH]; intros st I Hcur Hl; simpl; [done|].
  apply IH; [|done|].
  - apply relax_inv; [done|done|]. apply Hl. by left.
  - intros nb' Hnb'. apply Hl. by right.
Qed.

Lemma close_inv world revealed options startIndex st order current h :
  search_inv world revealed options startIndex st order ->
  pop (fScore st) (openHeap st) = (current, h) ->
  hp_heap (openHeap st) <> [] ->
  in_heap (openHeap st) current
  /\ (current ∉ order)
  /\ search_inv world revealed options startIndex
       {| gScore := gScore st; fScore := fScore st; cameFrom := cameFrom st;
          closed := aset (closed st) current 1; openHeap := h |}
       (current :: order).
Proof.
  intros I Hpop Hne.
  destruct (pop_wf _ _ _ _ _ (inv_heap _ _ _ _ _ _ I) Hpop)
    as [[? _]|(Hin & W' & E')]; [done|].
  pose proof (inv_open _ _ _ _ _ _ I _ Hin) as Hc0.
  pose proof (aget_range _ _ _ Hc0) as Hr.
  assert (current ∉ order) as Hno.
  { intros Ho. apply (inv_order_closed _ _ _ _ _ _ I) in Ho. congruence. }
  split; [done|]. split; [done|].
  split; simpl.
  - done.
  - rewrite alen_aset. apply I.
  - apply I.
  - intros n v Hv. apply aget_aset_Some in Hv as [[_ ->]|[_ Hv]]; [by right|].
    by apply (inv_closed_bits _ _ _ _ _ _ I) in Hv.
  - intros n [Hn Hd]%E'. rewrite aget_aset_ne by done. by apply I.
  - intros n [->|Hn]%elem_of_cons.
    + by rewrite aget_aset_eq.
    + rewrite aget_aset_ne by (intros <-; done). by apply I.
  - constructor; [done|apply I].
  - intros n p Hn Hp. destruct (inv_edges _ _ _ _ _ _ I n p Hn Hp) as [? ?].
    split; [by right|done].
  - split; [|apply I]. intros p Hp.
    destruct (decide (p = -1)) as [?|Hd]; [by left|right].
    by apply (inv_edges _ _ _ _ _ _ I current p Hp Hd).
  - apply I.
  - intros n Hn Hw. apply (inv_roots _ _ _ _ _ _ I n Hn).
    destruct Hw as [[? ?]%E'|[->|?]%elem_of_cons]; [by left|by left|by right].
  - left. destruct (inv_start_seen _ _ _ _ _ _ I) as [?|[_ Hall]].
    + by right.
    + rewrite (Hall _ Hin). by left.
Qed.

Lemma trace_in_range cf n l : trace cf n l -> 0 <= n < alen cf.
Proof. intros Ht. destruct Ht as [n Hn|n p l Hn _ _]; by apply aget_range in Hn. Qed.

Lemma reconstruct_trace cf w n l :
  trace cf n l -> forall fuel acc, (length l <= fuel)%nat ->
  reconstruct_loop fuel cf w n acc = Returned (acc ++ map (point_of w) l).
Proof.
  induction 1 as [n Hn|n p l Hn Hp Ht IH]; intros fuel acc Hf.
  - destruct fuel as [|fuel]; [simpl in Hf; lia|]. simpl.
    apply aget_range in Hn as Hr.
    destruct (Z.eqb_spec n (-1)) as [?|_]; [lia|]. rewrite Hn.
    by destruct fuel.
  - destruct fuel as [|fuel]; [simpl in Hf; lia|]. simpl.
    apply aget_range in Hn as Hr.
    destruct (Z.eqb_spec n (-1)) as [?|_]; [lia|]. rewrite Hn.
    rewrite IH by (simpl in Hf; lia). by rewrite <- app_assoc.
Qed.

Lemma trace_of_order cf order :
  chain_ok cf order -> (forall n, n ∈ order -> is_Some (aget cf n)) ->
  forall n, n ∈ order ->
  exists l, trace cf n l /\ (length l <= length order)%nat
            /\ forall x, x ∈ l -> x ∈ order.
Proof.
  induction order as [|m rest IH]; intros Hc Hs n Hn.
  - by apply not_elem_of_nil in Hn.
  - destruct Hc as [Hm Hrest].
    assert (forall k, k ∈ rest ->
              exists l, trace cf k l /\ (length l <= length rest)%nat
                        /\ forall x, x ∈ l -> x ∈ rest) as IH'.
    { apply IH; [done|]. intros k Hk. apply Hs. by right. }
    apply elem_of_cons in Hn as [->|Hn].
    + destruct (Hs m) as [p Hp]; [by left|].
      destruct (decide (p = -1)) as [->|Hd].
      * exists [m]. split; [by constructor|]. split; [simpl; lia|].
        intros x ->%list_elem_of_singleton. by left.
      * destruct (Hm p Hp) as [?|Hin]; [done|].
        destruct (IH' p Hin) as (l & Ht & Hl & Hsub).
        exists (m :: l). split; [by econstructor|]. split; [simpl; lia|].
        intros x [->|Hx]%elem_of_cons; [by left|]. right. by apply Hsub.
    + destruct (IH' n Hn) as (l & Ht & Hl & Hsub).
      exists l. split; [done|]. split; [simpl; lia|].
      intros x Hx. right. by apply Hsub.
Qed.

Lemma path_ok_snoc world revealed options path q :
  path_ok world revealed options path ->
  (forall p, last path = Some p -> step_ok world revealed options p q) ->
  path_ok world revealed options (path ++ [q]).
Proof.
  intros Hok Hlast i p r Hi Hsi.
  destruct (decide (S i < length path)%nat) as [Hlt|Hge].
  - rewrite lookup_app_l in Hi by lia. rewrite lookup_app_l in Hsi by lia.
    by eapply Hok.
  - pose proof (lookup_lt_Some _ _ _ Hsi) as Hb. rewrite length_app in Hb.
    simpl in Hb. assert (S i = length path) as Hi' by lia.
    rewrite lookup_app_l in Hi by lia.
    rewrite lookup_app_r in Hsi by lia.
    replace (S i - length path)%nat with O in Hsi by lia.
    injection Hsi as <-. apply Hlast. rewrite last_lookup, <- Hi. f_equal. lia.
Qed.

Lemma path_ok_single world revealed options p : path_ok world revealed options [p].
Proof. intros i a b Hi Hsi. by destruct i. Qed.

Lemma trace_path world revealed options cf w n l :
  trace cf n l ->
  (forall a p, aget cf a = Some p -> p <> -1 ->
               step_ok world revealed options (point_of w p) (point_of w a)) ->
  path_ok world revealed options (rev (map (point_of w) l))
  /\ last (rev (map (point_of w) l)) = Some (point_of w n)
  /\ exists x, x ∈ l /\ aget cf x = Some (-1)
               /\ head (rev (map (point_of w) l)) = Some (point_of w x).
Proof.
  intros Ht He. induction Ht as [n Hn|n p l Hn Hp Ht (IHok & IHlast & x & Hx & Hroot & Hhd)].
  - simpl. split; [apply path_ok_single|]. split; [done|].
    exists n. split; [by left|done].
  - simpl. split; [|split].
    + apply path_ok_snoc; [done|]. rewrite IHlast. intros ? [= <-]. by apply He.
    + by rewrite last_snoc.
    + exists x. split; [by right|]. split; [done|].
      destruct (rev (map (point_of w) l)); [done|]. simpl in *. done.
Qed.

Lemma search_loop_sound world revealed goal goalIndex options startIndex fuel :
  forall st order,
  search_inv world revealed options startIndex st order ->
  (Z.to_nat (width world * height world) + 1 <= length order + fuel)%nat ->
  exists r,
    search_loop fuel world revealed goal goalIndex options st = Returned r
    /\ forall path, r = Some path ->
         path_ok world revealed options path
         /\ head path = Some (point_of (width world) startIndex)
         /\ last path = Some (point_of (width world) goalIndex).
Proof.
  induction fuel as [|fuel IH]; intros st order I Hfuel.
  - assert (length order <= Z.to_nat (width world * height world))%nat.
    { apply NoDup_range_length; [apply I|]. intros n Hn.
      apply (inv_order_closed _ _ _ _ _ _ I) in Hn. apply aget_range in Hn.
      by rewrite (inv_closed_len _ _ _ _ _ _ I) in Hn. }
    lia.
  - simpl. destruct (Z.gtb_spec (hp_size (openHeap st)) 0) as [Hsz|Hsz];
      [|by eexists].
    destruct (pop (fScore st) (openHeap st)) as [current h] eqn:Hpop.
    assert (hp_heap (openHeap st) <> []) as Hne.
    { intros He. unfold hp_size, alen in Hsz. rewrite He in Hsz. simpl in Hsz. lia. }
    destruct (close_inv _ _ _ _ _ _ _ _ I Hpop Hne) as (Hin & Hno & I').
    pose proof (inv_open _ _ _ _ _ _ I _ Hin) as Hc0.
    pose proof (aget_range _ _ _ Hc0) as Hr.
    rewrite (inv_closed_len _ _ _ _ _ _ I) in Hr.
    destruct (Z.eqb_spec current (-1)) as [?|_]; [lia|].
    destruct (Z.eqb_spec current goalIndex) as [<-|Hng].
    + (* the goal is popped *)
      assert (length (current :: order) <= Z.to_nat (width world * height world))%nat
        as Hlen.
      { apply NoDup_range_length; [apply I'|]. intros n Hn.
        apply (inv_order_closed _ _ _ _ _ _ I') in Hn. apply aget_range in Hn.
        by rewrite (inv_closed_len _ _ _ _ _ _ I') in Hn. }
      simpl in Hlen.
      assert (Z.to_nat (width world * height world) = length (cameFrom st)) as Hcl.
      { pose proof (inv_came_len _ _ _ _ _ _ I) as Hl. unfold alen in Hl. lia. }
      assert (exists l, trace (cameFrom st) current l
                        /\ (length l <= S (length order))%nat
                        /\ forall x, x ∈ l -> x = current \/ x ∈ order)
        as (l & Ht & Hl & Hsub).
      { destruct (aget_is_Some (cameFrom st) current) as [p Hp];
          [by rewrite (inv_came_len _ _ _ _ _ _ I)|].
        destruct (decide (p = -1)) as [->|Hd].
        - exists [current]. split; [by constructor|]. split; [simpl; lia|].
          intros x ->%list_elem_of_singleton. by left.
        - destruct (inv_edges _ _ _ _ _ _ I _ _ Hp Hd) as [Hpo _].
          destruct (trace_of_order (cameFrom st) order (inv_chain _ _ _ _ _ _ I))
            with (n := p) as (l & Ht & Hl & Hsub); [|done|].
          { intros n Hn. apply aget_is_Some.
            rewrite (inv_came_len _ _ _ _ _ _ I).
            apply (inv_order_closed _ _ _ _ _ _ I) in Hn. apply aget_range in Hn.
            by rewrite (inv_closed_len _ _ _ _ _ _ I) in Hn. }
          exists (current :: l). split; [by econstructor|]. split; [simpl; lia|].
          intros x [->|Hx]%elem_of_cons; [by left|]. right. by apply Hsub. }
      unfold reconstructPath.
      rewrite (reconstruct_trace _ (width world) _ _ Ht) by lia. simpl.
      eexists. split; [done|]. intros path [= <-].
      destruct (trace_path world revealed options (cameFrom st) (width world)
                  current l Ht) as (Hok & Hlast & x & Hx & Hroot & Hhd).
      { intros a p Ha Hp. by apply (inv_edges _ _ _ _ _ _ I a p Ha Hp). }
      split; [done|]. split; [|done].
      rewrite Hhd. do 2 f_equal.
      apply (inv_roots _ _ _ _ _ _ I x Hroot).
      destruct (Hsub x Hx) as [->|?]; [by left|by right].
    + apply (IH _ (current :: order)).
      * apply relax_all_inv; [done|by left|done].
      * simpl. lia.
Qed.

End SearchFacts.

(** ** findPath *)

Section FindPathFacts.
Context {N : Number}.
Implicit Types (world : WorldData) (options : PathOptions).

Lemma findPath_fuel_sound world revealed start goal options fuel :
  (Z.to_nat (width world * height world) + 1 <= fuel)%nat ->
  exists r,
    findPath_fuel fuel world revealed start goal options = Returned r
    /\ forall path, r = Some path ->
         path_ok world revealed options path
         /\ head path = Some start /\ last path = Some goal.
Proof.
  intros Hfuel. unfold findPath_fuel.
  destruct (inBounds world (gx start) (gy start)) eqn:Hs; simpl;
    [|by eexists].
  destruct (inBounds world (gx goal) (gy goal)) eqn:Hg; simpl;
    [|by eexists].
  assert (exists r,
    search_loop fuel world revealed goal
      (getIndex (width world) (gx goal) (gy goal)) options
      (initial world start goal) = Returned r
    /\ forall path, r = Some path ->
         path_ok world revealed options path
         /\ head path = Some start /\ last path = Some goal) as Hloop.
  { destruct (search_loop_sound world revealed goal
                (getIndex (width world) (gx goal) (gy goal)) options
                (getIndex (width world) (gx start) (gy start)) fuel
                (initial world start goal) [])
      as (r & Hr & Hpath).
    - by apply initial_inv.
    - simpl. lia.
    - exists r. split; [done|]. intros path Hp.
      destruct (Hpath path Hp) as (Hok & Hhd & Hlast).
      rewrite point_of_index in Hhd by done.
      rewrite point_of_index in Hlast by done.
      by destruct start, goal. }
  destruct (aget revealed _) as [[| |]|]; try (by eexists);
    (destruct (isCellPassable world revealed (gx goal) (gy goal) options);
     simpl; [done|by eexists]).
Qed.

(** C3. [findPath] always returns, a path or none: the fuel of its main
    loop is never used up.  When an endpoint is out of bounds, or the
    goal is unrevealed or not passable, it returns none before the loop,
    whatever fuel the loop would be given; and the loop returns none as
    soon as the open set is empty. *)
Theorem findPath_returns world revealed start goal options :
  (exists r, findPath world revealed start goal options = Returned r)
  /\ (inBounds world (gx start) (gy start) = false
      \/ inBounds world (gx goal) (gy goal) = false
      \/ aget revealed (getIndex (width world) (gx goal) (gy goal)) = Some 0
      \/ isCellPassable world revealed (gx goal) (gy goal) options = false ->
      forall fuel,
        findPath_fuel fuel world revealed start goal options = Returned None)
  /\ (forall fuel st,
        hp_size (openHeap st) <= 0 ->
        search_loop fuel world revealed goal
          (getIndex (width world) (gx goal) (gy goal)) options st
        = Returned None).
Proof.
  split; [|split].
  - destruct (findPath_fuel_sound world revealed start goal options
                (S (Z.to_nat (width world * height world)))) as (r & Hr & _);
      [lia|]. by exists r.
  - intros Hguard fuel. unfold findPath_fuel.
    destruct (inBounds world (gx start) (gy start)) eqn:Hs; simpl; [|done].
    destruct (inBounds world (gx goal) (gy goal)) eqn:Hg; simpl; [|done].
    destruct Hguard as [?|[?|[Hr|Hp]]]; try done.
    + by rewrite Hr.
    + rewrite Hp. simpl. by destruct (aget revealed _) as [[| |]|].
  - intros fuel st Hsz. destruct fuel; simpl;
      destruct (Z.gtb_spec (hp_size (openHeap st)) 0); done || lia.
Qed.

(** C1, as the code has it. In a returned path, consecutive points are
    adjacent under the selected connectivity and their height difference
    is not greater than [maxSlope]; every point after the first is
    passable; the first point is the start cell, of which [findPath]
    only checks that it is in bounds. *)
Theorem findPath_path_valid world revealed start goal options path :
  findPath world revealed start goal options = Returned (Some path) ->
  (forall i p q, path !! i = Some p -> path !! S i = Some q ->
                 adjacent (allowDiagonal options) p q /\ slope_ok world options p q)
  /\ (forall i q, path !! S i = Some q -> passable world revealed options q)
  /\ head path = Some start
  /\ inBounds world (gx start) (gy start) = true.
Proof.
  intros Hfp.
  destruct (findPath_fuel_sound world revealed start goal options
              (S (Z.to_nat (width world * height world)))) as (r & Hr & Hpath);
    [lia|].
  unfold findPath in Hfp. rewrite Hr in Hfp. injection Hfp as ->.
  destruct (Hpath path eq_refl) as (Hok & Hhd & Hlast).
  split; [|split; [|split]].
  - intros i p q Hp Hq. destruct (Hok i p q Hp Hq) as (? & ? & ?). done.
  - intros i q Hq. destruct (lookup_lt_is_Some_2 path i) as [p Hp].
    { apply lookup_lt_Some in Hq. lia. }
    destruct (Hok i p q Hp Hq) as (? & ? & ?). done.
  - done.
  - unfold findPath_fuel in Hr.
    destruct (inBounds world (gx start) (gy start)); [done|].
    simpl in Hr. done.
Qed.

Lemma search_pops_goal world revealed goal options fuel s st :
  0 <= s -> hp_heap (openHeap st) = [s] -> aget (cameFrom st) s = Some (-1) ->
  search_loop (S fuel) world revealed goal s options st
  = Returned (Some [point_of (width world) s]).
Proof.
  intros Hs Hh Hc. simpl. unfold hp_size, pop. rewrite Hh. simpl.
  destruct (Z.eqb_spec s (-1)) as [?|_]; [lia|].
  rewrite Z.eqb_refl.
  unfold reconstructPath. simpl.
  destruct (Z.eqb_spec s (-1)) as [?|_]; [lia|].
  rewrite Hc. by destruct (length (cameFrom st)).
Qed.

Lemma search_from_start world revealed goal options fuel :
  inBounds world (gx goal) (gy goal) = true ->
  search_loop (S fuel) world revealed goal
    (getIndex (width world) (gx goal) (gy goal)) options
    (initial world goal goal) = Returned (Some [goal]).
Proof.
  intros Hb. pose proof (index_range _ _ _ Hb) as Hr.
  rewrite search_pops_goal.
  - rewrite point_of_index by done. by destruct goal.
  - lia.
  - unfold initial. simpl. unfold push. simpl.
    rewrite aget_replicate by lia. simpl. done.
  - unfold initial. simpl. apply aget_replicate. lia.
Qed.

(** C10. When start and goal are the same passable cell (so in bounds and
    revealed), [findPath] returns the path made of that cell alone, and
    the first pass of its loop is enough for that. *)
Theorem findPath_same_cell world revealed goal options :
  isCellPassable world revealed (gx goal) (gy goal) options = true ->
  findPath world revealed goal goal options = Returned (Some [goal])
  /\ forall fuel,
       findPath_fuel (S fuel) world revealed goal goal options
       = Returned (Some [goal]).
Proof.
  intros Hp.
  assert (inBounds world (gx goal) (gy goal) = true) as Hb.
  { unfold isCellPassable in Hp. by destruct (inBounds world _ _). }
  assert (forall fuel,
            findPath_fuel (S fuel) world revealed goal goal options
            = Returned (Some [goal])) as Hall.
  { intros fuel. unfold findPath_fuel. rewrite Hb, Hp.
    simpl negb. simpl orb. cbv iota.
    rewrite search_from_start by done.
    unfold isCellPassable in Hp. rewrite Hb in Hp. simpl in Hp.
    by destruct (aget revealed _) as [[| |]|]. }
  split; [apply Hall|done].
Qed.

Lemma step_okb_spec world revealed options p q :
  step_okb world revealed options p q = true ->
  step_ok world revealed options p q.
Proof.
  unfold step_okb, step_ok, adjacentb, adjacent, passable, slope_ok.
  cbv zeta.
  rewrite !andb_true_iff, orb_true_iff, !andb_true_iff, negb_true_iff, !Z.eqb_eq.
  intros [[Ha Hp] Hs]. split; [|done].
  destruct Ha as [Ha|[[Hd Hx] Hy]]; [by left|by right].
Qed.

Lemma path_okb_spec world revealed options path :
  path_okb world revealed options path = true ->
  path_ok world revealed options path.
Proof.
  induction path as [|p [|q rest] IH]; intros Hb i a b Ha Hb'.
  - done.
  - by destruct i.
  - cbn [path_okb] in Hb. apply andb_true_iff in Hb as [Hs Hr].
    destruct i as [|i].
    + simpl in Ha, Hb'. simplify_eq. by apply step_okb_spec.
    + by apply (IH Hr i).
Qed.

End FindPathFacts.

(** C1, as stated, fails: the start cell below is not revealed, hence not
    passable, and it is the first point of the returned path. *)
Lemma path_from_unrevealed_start :
  findPath (Samples.flat 2 1) [0; 1] {| gx := 0; gy := 0 |} {| gx := 1; gy := 0 |}
           (Samples.walk true None)
  = Returned (Some [ {| gx := 0; gy := 0 |}; {| gx := 1; gy := 0 |} ])
  /\ isCellPassable (Samples.flat 2 1) [0; 1] 0 0 (Samples.walk true None) = false.
Proof. split; vm_compute; reflexivity. Qed.

Lemma findPath_path_valid_witness :
  (forall i p q,
      [ {| gx := 0; gy := 0 |}; {| gx := 1; gy := 0 |} ] !! i = Some p ->
      [ {| gx := 0; gy := 0 |}; {| gx := 1; gy := 0 |} ] !! S i = Some q ->
      adjacent true p q /\ slope_ok (Samples.flat 2 1) (Samples.walk true None) p q)
  /\ (forall i q,
        [ {| gx := 0; gy := 0 |}; {| gx := 1; gy := 0 |} ] !! S i = Some q ->
        passable (Samples.flat 2 1) [0; 1] (Samples.walk true None) q)
  /\ head [ {| gx := 0; gy := 0 |}; {| gx := 1; gy := 0 |} ] = Some {| gx := 0; gy := 0 |}
  /\ inBounds (Samples.flat 2 1) 0 0 = true.
Proof.
  apply (findPath_path_valid (Samples.flat 2 1) [0; 1] {| gx := 0; gy := 0 |}
           {| gx := 1; gy := 0 |} (Samples.walk true None)).
  vm_compute. reflexivity.
Defined.

Lemma findPath_same_cell_witness :
  findPath (Samples.flat 3 3) (replicate 9 1) {| gx := 1; gy := 2 |}
           {| gx := 1; gy := 2 |} (Samples.walk true None)
  = Returned (Some [ {| gx := 1; gy := 2 |} ])
  /\ forall fuel,
       findPath_fuel (S fuel) (Samples.flat 3 3) (replicate 9 1) {| gx := 1; gy := 2 |}
                     {| gx := 1; gy := 2 |} (Samples.walk true None)
       = Returned (Some [ {| gx := 1; gy := 2 |} ]).
Proof.
  apply (findPath_same_cell (Samples.flat 3 3) (replicate 9 1) {| gx := 1; gy := 2 |}
           (Samples.walk true None)).
  vm_compute. reflexivity.
Defined.

(** ** World generation *)

Section GenerationFacts.
Context {N : Number} {F : Fractional N}.
Variable noise_draws : nat.
Variable noise_of : list num -> num -> num -> num.
Variable pow : num -> num -> num.

Lemma alen_app {A} (l1 l2 : list A) : alen (l1 ++ l2) = alen l1 + alen l2.
Proof. unfold alen. rewrite length_app. lia. Qed.

Lemma aget_app_r {A} (l1 l2 : list A) j :
  0 <= j -> aget (l1 ++ l2) (alen l1 + j) = aget l2 j.
Proof.
  intros Hj. unfold aget, alen.
  destruct (Z.ltb_spec (Z.of_nat (length l1) + j) 0) as [?|_]; [lia|].
  destruct (Z.ltb_spec j 0) as [?|_]; [lia|].
  rewrite lookup_app_r by lia. f_equal. lia.
Qed.

Lemma aset_app_r {A} (l1 l2 : list A) j v :
  0 <= j -> aset (l1 ++ l2) (alen l1 + j) v = l1 ++ aset l2 j v.
Proof.
  intros Hj. unfold aset, alen.
  destruct (Z.ltb_spec (Z.of_nat (length l1) + j) 0) as [?|_]; [lia|].
  destruct (Z.ltb_spec j 0) as [?|_]; [lia|].
  replace (Z.to_nat (Z.of_nat (length l1) + j)) with (length l1 + Z.to_nat j)%nat by lia.
  apply insert_app_r.
Qed.

(** *** The generators of a call are its own *)

Lemma rng_call_frame base own j :
  0 <= j ->
  rng_call (alen base + j) (base ++ own)
  = (fst (rng_call j own), base ++ snd (rng_call j own)).
Proof.
  intros Hj. unfold rng_call. rewrite aget_app_r by done.
  destruct (aget own j) as [t|]; [|done].
  destruct (mulberry32_next t) as [v t']. simpl. by rewrite aset_app_r.
Qed.

Lemma rng_draw_frame k base own j :
  0 <= j ->
  rng_draw k (alen base + j) (base ++ own)
  = (fst (rng_draw k j own), base ++ snd (rng_draw k j own)).
Proof.
  intros Hj. revert own. induction k as [|k IH]; intros own; simpl; [done|].
  rewrite rng_call_frame by done.
  destruct (rng_call j own) as [v own1]. simpl. rewrite IH.
  by destruct (rng_draw k j own1).
Qed.

Lemma createNoise2D_frame base own j :
  0 <= j ->
  createNoise2D noise_draws noise_of (alen base + j) (base ++ own)
  = (fst (createNoise2D noise_draws noise_of j own),
     base ++ snd (createNoise2D noise_draws noise_of j own)).
Proof.
  intros Hj. unfold createNoise2D. rewrite rng_draw_frame by done.
  by destruct (rng_draw noise_draws j own).
Qed.

Lemma fold_left_frame {S C} (stepB step : S * RngHeap -> C -> S * RngHeap)
    (base : RngHeap) (l : list C) :
  (forall a own c, stepB (a, base ++ own) c
                   = (fst (step (a, own) c), base ++ snd (step (a, own) c))) ->
  forall a own,
    fold_left stepB l (a, base ++ own)
    = (fst (fold_left step l (a, own)), base ++ snd (fold_left step l (a, own))).
Proof.
  intros Hstep. induction l as [|c l IH]; intros a own; simpl; [done|].
  rewrite Hstep. destruct (step (a, own) c) as [a' own']. simpl. apply IH.
Qed.

Lemma ground_cell_frame config hm base j a own c :
  0 <= j ->
  ground_cell config hm (alen base + j) (a, base ++ own) c
  = (fst (ground_cell config hm j (a, own) c),
     base ++ snd (ground_cell config hm j (a, own) c)).
Proof.
  intros Hj. destruct c as [x y]. unfold ground_cell.
  repeat (match goal with
          | |- context [if ?b then _ else _] => destruct b; try done
          end).
  all: rewrite rng_call_frame by done; destruct (rng_call j own) as [roll own'];
    simpl; by destruct (n_ltb roll _).
Qed.

Lemma object_cell_frame config hm ground forestNoise base j a own c :
  0 <= j ->
  object_cell config hm ground forestNoise (alen base + j) (a, base ++ own) c
  = (fst (object_cell config hm ground forestNoise j (a, own) c),
     base ++ snd (object_cell config hm ground forestNoise j (a, own) c)).
Proof.
  intros Hj. destruct c as [x y]. unfold object_cell.
  destruct (aget ground _) as [g|]; [|done]. simpl.
  set (c1 := GroundType_eqb g Soil && _ && _).
  set (c2 := n_ltb (forestThreshold config) _).
  set (c3 := GroundType_eqb g Rock && _).
  pose proof (rng_call_frame base own j Hj) as Hcall.
  destruct (rng_call j own) as [roll own'] eqn:Hr. simpl in Hcall.
  destruct c1, c2; simpl; rewrite ?Hcall, ?Hr; simpl;
    try destruct (n_ltb roll (treeChance config)); simpl;
    destruct c3; simpl; try done;
    rewrite ?Hcall, ?Hr; rewrite ?rng_call_frame by done; simpl;
    try (by destruct (n_ltb roll (rockChance config)));
    try (destruct (rng_call j own') as [roll2 own2]; simpl;
         by destruct (n_ltb roll2 (rockChance config))).
Qed.

Lemma generateWorld_frame config rngs :
  generateWorld noise_draws noise_of pow config rngs
  = (fst (generateWorld noise_draws noise_of pow config []),
     rngs ++ snd (generateWorld noise_draws noise_of pow config [])).
Proof.
  unfold generateWorld, mulberry32_new. simpl app.
  replace (alen (@nil Z)) with 0 by done.
  replace (alen rngs) with (alen rngs + 0) at 1 by lia.
  rewrite createNoise2D_frame by done.
  destruct (createNoise2D noise_draws noise_of 0 [mulberry32 (seed config)])
    as [heightNoise own1]. simpl fst. simpl snd. cbv iota beta.
  rewrite alen_app, <- app_assoc.
  rewrite createNoise2D_frame by (unfold alen; lia).
  destruct (createNoise2D noise_draws noise_of (alen own1)
              (own1 ++ [mulberry32 (seed config + 1337)]))
    as [forestNoise own2]. simpl fst. simpl snd. cbv iota beta.
  rewrite alen_app, <- app_assoc.
  rewrite (fold_left_frame _ (ground_cell config _ (alen own2)) rngs)
    by (intros; apply ground_cell_frame; unfold alen; lia).
  destruct (fold_left (ground_cell config _ (alen own2)) _ _) as [ground own3].
  simpl fst. simpl snd. cbv iota beta.
  rewrite <- (app_nil_l (A:=WorldObject) []) at 1.
  change (@nil WorldObject ++ []) with (@nil WorldObject).
  rewrite (fold_left_frame _ (object_cell config _ ground forestNoise (alen own2)) rngs)
    by (intros; apply object_cell_frame; unfold alen; lia).
  by destruct (fold_left (object_cell config _ ground forestNoise (alen own2)) _ _).
Qed.

(** C4 (determinism). Two calls of [generateWorld] with the same
    configuration return the same heightmap, ground array and object
    list, whatever generators exist when each call is made and whatever
    state these are in. *)
Theorem generateWorld_deterministic config rngs1 rngs2 :
  heightmap (fst (generateWorld noise_draws noise_of pow config rngs1))
  = heightmap (fst (generateWorld noise_draws noise_of pow config rngs2))
  /\ ground (fst (generateWorld noise_draws noise_of pow config rngs1))
     = ground (fst (generateWorld noise_draws noise_of pow config rngs2))
  /\ objects (fst (generateWorld noise_draws noise_of pow config rngs1))
     = objects (fst (generateWorld noise_draws noise_of pow config rngs2)).
Proof.
  rewrite (generateWorld_frame config rngs1), (generateWorld_frame config rngs2).
  done.
Qed.

(** *** Ground classification *)

Lemma elem_of_span d r : d ∈ span r <-> - r <= d <= r.
Proof. unfold span. rewrite elem_of_seqZ. lia. Qed.

Lemma isNearSea_spec hm w h x y sea :
  isNearSea hm w h x y sea 2 = true <-> near_water hm w h x y sea.
Proof.
  unfold isNearSea, near_water. rewrite existsb_exists. split.
  - intros (dy & Hdy & Hex). apply existsb_exists in Hex as (dx & Hdx & Ht).
    apply list_elem_of_In, elem_of_span in Hdy.
    apply list_elem_of_In, elem_of_span in Hdx.
    destruct ((dx =? 0) && (dy =? 0)) eqn:Hz; [done|].
    destruct (_ || _) eqn:Hb; [done|].
    apply andb_false_iff in Hz. rewrite !orb_false_iff in Hb.
    exists (x + dx), (y + dy).
    split; [intros [= ? ?]; lia|]. repeat split; try lia. done.
  - intros (nx & ny & Hne & Hx & Hy & Hrx & Hry & Ht).
    exists (ny - y). split; [apply list_elem_of_In, elem_of_span; lia|].
    apply existsb_exists. exists (nx - x).
    split; [apply list_elem_of_In, elem_of_span; lia|].
    replace (x + (nx - x)) with nx by lia. replace (y + (ny - y)) with ny by lia.
    destruct ((nx - x =? 0) && (ny - y =? 0)) eqn:Hz.
    { apply andb_true_iff in Hz as [? ?]. exfalso. apply Hne. f_equal; lia. }
    destruct (_ || _) eqn:Hb; [|done].
    rewrite !orb_true_iff in Hb. lia.
Qed.

Lemma elem_of_scan w h x y : (x, y) ∈ scan w h <-> 0 <= x < w /\ 0 <= y < h.
Proof.
  unfold scan. rewrite list_elem_of_In, in_flat_map. split.
  - intros (y' & Hy & Hin). apply in_map_iff in Hin as (x' & [= <- <-] & Hx).
    apply list_elem_of_In, elem_of_seqZ in Hy.
    apply list_elem_of_In, elem_of_seqZ in Hx. lia.
  - intros [Hx Hy]. exists y. split.
    + apply list_elem_of_In, elem_of_seqZ. lia.
    + apply in_map_iff. exists x. split; [done|].
      apply list_elem_of_In, elem_of_seqZ. lia.
Qed.

Lemma NoDup_scan w h : NoDup (scan w h).
Proof.
  unfold scan. generalize (NoDup_seqZ 0 h).
  assert (forall y', y' ∈ seqZ 0 h -> 0 <= y') as Hlow
    by (intros y' Hy'%elem_of_seqZ; lia).
  induction (seqZ 0 h) as [|y ys IH]; intros Hnd; simpl; [constructor|].
  apply NoDup_cons in Hnd as [Hy Hnd].
  apply NoDup_app. split; [|split].
  - apply NoDup_fmap_2; [|apply NoDup_seqZ]. intros a b [= ->]. done.
  - intros [x' y'] Hin Hin2.
    apply list_elem_of_In, in_map_iff in Hin as (x0 & [= <- <-] & _).
    apply list_elem_of_In, in_flat_map in Hin2 as (y2 & Hy2 & Hin2).
    apply in_map_iff in Hin2 as (x2 & [= <- <-] & _).
    by apply list_elem_of_In in Hy2.
  - apply IH; [|done]. intros y' Hy'. apply Hlow. by right.
Qed.

Lemma rng_call_alen g rngs : alen (snd (rng_call g rngs)) = alen rngs.
Proof.
  unfold rng_call. destruct (aget rngs g) as [t|]; [|done].
  destruct (mulberry32_next t). simpl. by rewrite alen_aset.
Qed.

Lemma rng_call_value g rngs :
  0 <= g < alen rngs -> exists t, fst (rng_call g rngs) = fst (mulberry32_next t).
Proof.
  intros Hg. unfold rng_call. destruct (aget_is_Some rngs g Hg) as [t ->].
  exists t. by destruct (mulberry32_next t).
Qed.

Lemma ground_cell_spec config hm objectRng ground rngs x y :
  exists v,
    fst (ground_cell config hm objectRng (ground, rngs) (x, y))
    = aset ground (getIndex (cfg_width config) x y) v
    /\ alen (snd (ground_cell config hm objectRng (ground, rngs) (x, y))) = alen rngs
    /\ (0 <= objectRng < alen rngs ->
        exists t, classified config hm x y (fst (mulberry32_next t)) v).
Proof.
  unfold ground_cell.
  destruct (n_ltb (heightAt hm _) (seaLevel config)) eqn:Hw.
  { exists Water. repeat split. intros _. exists 0. by constructor. }
  assert (~ is_water config hm x y) as Hnw by (unfold is_water; congruence).
  destruct (_ || _) eqn:Hr.
  { exists Rock. repeat split. intros _. exists 0. apply class_rock; [done|].
    unfold is_rocky. by apply orb_true_iff in Hr. }
  assert (~ is_rocky config hm x y) as Hnr.
  { unfold is_rocky. apply orb_false_iff in Hr as [? ?]. intros [?|?]; congruence. }
  destruct (_ && _) eqn:Hs.
  - apply andb_true_iff in Hs as [Hnear Hlow].
    apply isNearSea_spec in Hnear.
    pose proof (rng_call_alen objectRng rngs) as Hlen.
    pose proof (rng_call_value objectRng rngs) as Hval.
    destruct (rng_call objectRng rngs) as [roll rngs']. simpl in *.
    destruct (n_ltb roll (sandChance config)) eqn:Hroll.
    + exists Sand. repeat split; [done|]. intros Hg.
      destruct (Hval Hg) as [t Ht]. exists t. rewrite <- Ht.
      by apply class_sand.
    + exists Soil. repeat split; [done|]. intros Hg.
      destruct (Hval Hg) as [t Ht]. exists t. rewrite <- Ht.
      apply class_soil; [done|done|]. intros (_ & _ & ?). congruence.
  - exists Soil. repeat split. intros _. exists 0.
    apply class_soil; [done|done|]. intros (Hnear & Hlow & _).
    apply isNearSea_spec in Hnear. rewrite Hnear, Hlow in Hs. done.
Qed.

Lemma ground_fold_other config hm objectRng l st i :
  (forall c, c ∈ l -> getIndex (cfg_width config) c.1 c.2 <> i) ->
  aget (fst (fold_left (ground_cell config hm objectRng) l st)) i = aget (fst st) i.
Proof.
  revert st. induction l as [|[x y] l IH]; intros [g rngs] Hl; cbn [fold_left];
    [done|].
  rewrite IH by (intros c Hc; apply Hl; by right).
  destruct (ground_cell_spec config hm objectRng g rngs x y) as (v & -> & _).
  apply aget_aset_ne. apply (Hl (x, y)). by left.
Qed.

Lemma ground_fold_spec config hm objectRng l :
  forall st,
  (forall c c', c ∈ l -> c' ∈ l ->
     getIndex (cfg_width config) c.1 c.2 = getIndex (cfg_width config) c'.1 c'.2 ->
     c = c') ->
  NoDup l ->
  (forall c, c ∈ l -> 0 <= getIndex (cfg_width config) c.1 c.2 < alen (fst st)) ->
  0 <= objectRng < alen (snd st) ->
  forall c, c ∈ l ->
  exists v t,
    aget (fst (fold_left (ground_cell config hm objectRng) l st))
         (getIndex (cfg_width config) c.1 c.2) = Some v
    /\ classified config hm c.1 c.2 (fst (mulberry32_next t)) v.
Proof.
  induction l as [|[x y] l IH]; intros [g rngs] Hinj Hnd Hrange Hg c Hc.
  { by apply not_elem_of_nil in Hc. }
  cbn [fold_left fst snd] in *. apply NoDup_cons in Hnd as [Hxy Hnd].
  destruct (ground_cell_spec config hm objectRng g rngs x y)
    as (v & Hfst & Hlen & Hcls).
  unfold RngHeap in *.
  destruct (ground_cell config hm objectRng (g, rngs) (x, y)) as [g1 rngs1].
  cbn [fst snd] in *. subst g1.
  apply elem_of_cons in Hc as [->|Hc].
  - destruct (Hcls Hg) as [t Ht]. exists v, t. split; [|done]. simpl.
    rewrite ground_fold_other.
    + simpl. apply aget_aset_eq. apply (Hrange (x, y)). by left.
    + intros c Hc Heq. apply Hxy.
      rewrite <- (Hinj c (x, y)); [done|by right|by left|done].
  - apply IH; try done.
    + intros c1 c2 H1 H2. apply Hinj; by right.
    + intros c' Hc'. simpl. rewrite alen_aset. apply Hrange. by right.
    + simpl. lia.
Qed.

Lemma rng_draw_alen k g rngs : alen (snd (rng_draw k g rngs)) = alen rngs.
Proof.
  revert rngs. induction k as [|k IH]; intros rngs; simpl; [done|].
  pose proof (rng_call_alen g rngs) as Hc.
  destruct (rng_call g rngs) as [v r1]. simpl in Hc.
  specialize (IH r1). destruct (rng_draw k g r1). simpl in *. lia.
Qed.

Lemma height_fold_alen config heightNoise l hm :
  alen (fold_left (height_cell pow config heightNoise) l hm) = alen hm.
Proof.
  revert hm. induction l as [|[x y] l IH]; intros hm; simpl; [done|].
  rewrite IH. apply alen_aset.
Qed.

(** C5. In the world returned by [generateWorld], the ground of every
    cell follows the four rules in priority order, the roll being a value
    of the generator [mulberry32]. *)
Theorem ground_classification config rngs x y :
  0 <= x < cfg_width config -> 0 <= y < cfg_height config ->
  exists g t,
    aget (ground (fst (generateWorld noise_draws noise_of pow config rngs)))
         (getIndex (cfg_width config) x y) = Some g
    /\ classified config
         (heightmap (fst (generateWorld noise_draws noise_of pow config rngs)))
         x y (fst (mulberry32_next t)) g.
Proof.
  intros Hx Hy. rewrite generateWorld_frame. simpl fst.
  unfold generateWorld, mulberry32_new.
  destruct (createNoise2D noise_draws noise_of _ _) as [heightNoise own1] eqn:E1.
  destruct (createNoise2D noise_draws noise_of _ (own1 ++ _))
    as [forestNoise own2] eqn:E2.
  set (hm := fold_left (height_cell pow config heightNoise) _ _).
  set (cells := scan (cfg_width config) (cfg_height config)).
  set (total := Z.to_nat (cfg_width config * cfg_height config)).
  destruct (ground_fold_spec config hm (alen own2) cells
              (replicate total Water, own2 ++ [mulberry32 (seed config + 9001)]))
    with (c := (x, y)) as (v & t & Hv & Hcls).
  - intros [x1 y1] [x2 y2] [H1 ?]%elem_of_scan [H2 ?]%elem_of_scan Heq. simpl in *.
    apply index_inj in Heq as [-> ->]; done.
  - apply NoDup_scan.
  - intros [x1 y1] [H1 H2]%elem_of_scan. simpl.
    rewrite alen_replicate. unfold total, getIndex. nia.
  - simpl. rewrite alen_app. unfold alen. simpl. lia.
  - by apply elem_of_scan.
  - simpl in Hv, Hcls. exists v, t.
    destruct (fold_left (ground_cell config hm (alen own2)) cells _) as [ground rngs3].
    destruct (fold_left (object_cell config hm ground forestNoise (alen own2)) cells _).
    simpl in *. done.
Qed.

End GenerationFacts.

Lemma ground_classification_witness :
  exists g t,
    aget (ground Samples.generated) (getIndex (cfg_width Samples.config) 1 2) = Some g
    /\ classified Samples.config (heightmap Samples.generated)
                  1 2 (fst (mulberry32_next t)) g.
Proof.
  apply (@ground_classification JsFloat.number JsFloat.fractional 255 Samples.noise Samples.power
           Samples.config [] 1 2); simpl; lia.
Defined.

(** ** The heap is a priority queue *)

Section HeapOrderFacts.
Context {N : Number} {Ord : ScoreOrder N}.
Implicit Types (h : MinHeap) (scores : list num).

Lemma parent_lt i : 0 < i -> 0 <= parent i < i.
Proof. unfold parent. intros Hi. split; [apply Z.div_pos; lia|]. Z.div_mod_to_equations. lia. Qed.

Lemma parent_children j i : 0 < j -> parent j = i <-> j = i * 2 + 1 \/ j = i * 2 + 2.
Proof. unfold parent. intros Hj. Z.div_mod_to_equations. lia. Qed.

Lemma score_of_swap T scores h a b j :
  heap_wf T h -> is_Some (aget (hp_heap h) a) -> is_Some (aget (hp_heap h) b) ->
  score_of scores (swap h a b) j
  = if decide (j = b) then score_of scores h a
    else if decide (j = a) then score_of scores h b
    else score_of scores h j.
Proof.
  intros W [t Ha] [o Hb]. unfold score_of, swap. rewrite Ha, Hb. simpl.
  rewrite (swap_heap_lookup T h a b t o j W Ha Hb).
  repeat case_decide; subst; by rewrite ?Ha, ?Hb.
Qed.

Lemma score_of_comparable scores h j b :
  comparable_scores scores -> score_of scores h j = Some b -> comparable b.
Proof.
  intros C Hb. unfold score_of in Hb.
  destruct (aget (hp_heap h) j) as [n|]; [|done]. by apply (C n).
Qed.

Lemma comparable_scores_aset scores node s' :
  comparable_scores scores -> comparable s' ->
  comparable_scores (aset scores node s').
Proof.
  intros C Hs i s Hi. apply aget_aset_Some in Hi as [[_ ->]|[_ Hi]]; [done|].
  by apply (C i).
Qed.

Lemma heap_ordered_of_up scores h i :
  up_inv scores h i ->
  (forall a b, 0 < i -> score_of scores h (parent i) = Some a ->
               score_of scores h i = Some b -> n_leb a b = true) ->
  heap_ordered scores h.
Proof.
  intros [H1 _] Hi j a b Hj Ha Hb.
  destruct (decide (j = i)) as [->|Hne]; [by apply Hi|by eapply H1].
Qed.

Lemma bubbleUp_loop_ordered T scores fuel :
  comparable_scores scores ->
  forall h i,
  heap_wf T h -> up_inv scores h i -> (Z.to_nat i <= fuel)%nat ->
  heap_ordered scores (bubbleUp_loop fuel scores h i).
Proof.
  intros C. induction fuel as [|fuel IH]; intros h i W U Hf.
  - simpl. destruct (Z.gtb_spec i 0) as [?|Hi0]; [lia|].
    apply (heap_ordered_of_up scores h i U). intros; lia.
  - simpl. destruct (Z.gtb_spec i 0) as [Hi0|Hi0];
      [|apply (heap_ordered_of_up scores h i U); intros; lia].
    fold (parent i). pose proof (parent_lt i Hi0) as Hp.
    destruct (aget (hp_heap h) i) as [node|] eqn:Hn;
      [|apply (heap_ordered_of_up scores h i U); unfold score_of;
        intros ? ? _ _; by rewrite Hn].
    destruct (aget (hp_heap h) (parent i)) as [parentNode|] eqn:Hpn;
      [|apply (heap_ordered_of_up scores h i U); unfold score_of;
        intros ? ? _; by rewrite Hpn].
    destruct (aget scores node) as [nodeScore|] eqn:Hns;
      [|apply (heap_ordered_of_up scores h i U); unfold score_of;
        intros ? ? _ _; by rewrite Hn, Hns].
    destruct (aget scores parentNode) as [parentScore|] eqn:Hps;
      [|apply (heap_ordered_of_up scores h i U); unfold score_of;
        intros ? ? _; by rewrite Hpn, Hps].
    assert (score_of scores h i = Some nodeScore) as Si
      by (unfold score_of; by rewrite Hn).
    assert (score_of scores h (parent i) = Some parentScore) as Sp
      by (unfold score_of; by rewrite Hpn).
    destruct (n_leb parentScore nodeScore) eqn:Hle.
    { apply (heap_ordered_of_up scores h i U). intros a b _ Ha Hb.
      rewrite Sp in Ha. rewrite Si in Hb. by simplify_eq. }
    apply le_total in Hle; [|by apply (C parentNode)|by apply (C node)].
    apply IH; [by apply swap_wf| |lia].
    destruct U as [U1 U2].
    assert (forall j, score_of scores (swap h i (parent i)) j
              = if decide (j = parent i) then Some nodeScore
                else if decide (j = i) then Some parentScore
                else score_of scores h j) as Sw.
    { intros j. rewrite (score_of_swap T) by (done || by eexists).
      repeat case_decide; done. }
    split.
    + intros j a b Hj Hne. rewrite !Sw.
      pose proof (parent_lt j Hj) as Hpj.
      repeat case_decide; try lia; intros Ha Hb; simplify_eq; try done.
      * (* a sibling of [i] *)
        apply (le_trans _ parentScore); [done|].
        apply (U1 j); try done. congruence.
      * (* a child of [i] *)
        apply (U2 j); done.
      * by apply (U1 j).
    + intros j a b Hpi Hj Hjp. rewrite !Sw.
      pose proof (parent_lt (parent i) Hpi) as Hpp.
      repeat case_decide; try lia; intros Ha Hb; simplify_eq.
      * apply (U1 (parent i)); done || lia.
      * apply (le_trans _ parentScore); [apply (U1 (parent i)); done || lia|].
        apply (U1 j); try done. congruence.
Qed.

Lemma heap_ordered_of_down scores h i :
  down_inv scores h i ->
  (forall j a b, 0 < j -> parent j = i -> score_of scores h i = Some a ->
                 score_of scores h j = Some b -> n_leb a b = true) ->
  heap_ordered scores h.
Proof.
  intros [H1 _] Hi j a b Hj Ha Hb.
  destruct (decide (parent j = i)) as [He|Hne].
  - apply (Hi j); try done. by rewrite <- He.
  - by eapply H1.
Qed.

Lemma pick_child_spec scores h len child cand :
  (pick_child scores h len child cand = cand
   /\ forall b, child < len -> score_of scores h child = Some b ->
                n_ltb b (snd cand) = false)
  \/ (exists b, pick_child scores h len child cand = (child, b)
                /\ score_of scores h child = Some b
                /\ n_ltb b (snd cand) = true).
Proof.
  unfold pick_child, score_of.
  destruct (Z.ltb_spec child len) as [Hlt|Hge]; [|left; split; [done|]; intros; lia].
  destruct (aget (hp_heap h) child) as [n|]; [|left; by split].
  destruct (aget scores n) as [b|]; [|left; by split].
  destruct (n_ltb b (snd cand)) eqn:Hb.
  - right. by exists b.
  - left. split; [done|]. intros ? _ [= <-]. done.
Qed.

Lemma down_step T scores h i c si sc :
  heap_wf T h -> down_inv scores h i -> 0 <= i ->
  c = i * 2 + 1 \/ c = i * 2 + 2 ->
  score_of scores h i = Some si -> score_of scores h c = Some sc ->
  n_leb sc si = true ->
  (forall j b, 0 < j -> parent j = i -> j <> c ->
               score_of scores h j = Some b -> n_leb sc b = true) ->
  down_inv scores (swap h i c) c.
Proof.
  intros W [D1 D2] Hi0 Hc Si Sc Hle Hsib.
  assert (parent c = i) as Hpc by (apply parent_children; lia).
  assert (c <> i) as Hci by lia.
  assert (forall j, score_of scores (swap h i c) j
            = if decide (j = c) then Some si
              else if decide (j = i) then Some sc
              else score_of scores h j) as Sw.
  { intros j. rewrite (score_of_swap T); [|done| |].
    - repeat case_decide; done.
    - unfold score_of in Si. destruct (aget (hp_heap h) i); [by eexists|done].
    - unfold score_of in Sc. destruct (aget (hp_heap h) c); [by eexists|done]. }
  split.
  - intros j a b Hj Hne. rewrite !Sw.
    pose proof (parent_lt j Hj) as Hpj.
    destruct (decide (j = c)) as [->|Njc].
    { rewrite Hpc. repeat case_decide; try lia. intros [= <-] [= <-]. done. }
    destruct (decide (j = i)) as [->|Nji].
    { repeat case_decide; try lia. intros Ha [= <-]. apply (D2 c); try done; lia. }
    destruct (decide (parent j = i)) as [Hpj'|Hpj'].
    { repeat case_decide; try lia. intros [= <-] Hb. by apply (Hsib j). }
    repeat case_decide; try lia. intros Ha Hb. by apply (D1 j).
  - intros j a b Hc0 Hj Hjp. rewrite Hpc. rewrite !Sw.
    pose proof (parent_lt j Hj) as Hpj.
    repeat case_decide; try lia.
    intros [= <-] Hb. apply (D1 j); try done; [lia|]. by rewrite Hjp.
Qed.

Lemma score_of_range scores h j b :
  score_of scores h j = Some b -> 0 <= j < hp_size h.
Proof.
  unfold score_of, hp_size. destruct (aget (hp_heap h) j) eqn:Hj; [|done].
  intros _. by apply aget_range in Hj.
Qed.

Lemma bubbleDown_loop_ordered T scores fuel :
  comparable_scores scores ->
  forall h i,
  heap_wf T h -> 0 <= i -> down_inv scores h i ->
  (length (hp_heap h) - Z.to_nat i <= fuel)%nat ->
  heap_ordered scores (bubbleDown_loop fuel scores h i).
Proof.
  intros C. induction fuel as [|fuel IH]; intros h i W Hi0 D Hf.
  - simpl. apply (heap_ordered_of_down scores h i D).
    intros j a b Hj Hp _ Hb. apply score_of_range in Hb.
    unfold hp_size, alen in Hb. apply parent_children in Hp; lia.
  - simpl. fold (score_of scores h i).
    destruct (aget (hp_heap h) i) as [node|] eqn:Hn;
      [|apply (heap_ordered_of_down scores h i D); unfold score_of;
        intros ? ? ? _ _; by rewrite Hn].
    destruct (aget scores node) as [si|] eqn:Hns;
      [|apply (heap_ordered_of_down scores h i D); unfold score_of;
        intros ? ? ? _ _; by rewrite Hn, Hns].
    assert (score_of scores h i = Some si) as Si
      by (unfold score_of; by rewrite Hn).
    set (len := hp_size h).
    assert (forall c sc, c = i * 2 + 1 \/ c = i * 2 + 2 ->
              score_of scores h c = Some sc -> n_leb sc si = true ->
              (forall j b, 0 < j -> parent j = i -> j <> c ->
                           score_of scores h j = Some b -> n_leb sc b = true) ->
              heap_ordered scores (bubbleDown_loop fuel scores (swap h i c) c))
      as Step.
    { intros c sc Hc Sc Hle Hsib. apply IH.
      - by apply swap_wf.
      - lia.
      - by apply (down_step T scores h i c si sc).
      - apply score_of_range in Sc.
        assert (length (hp_heap (swap h i c)) = length (hp_heap h)) as ->.
        { pose proof (swap_size h i c) as Hs. unfold hp_size, alen in Hs. lia. }
        unfold hp_size, alen in Sc. lia. }
    destruct (pick_child_spec scores h len (i * 2 + 1) (i, si))
      as [[E1 L1]|(sl & E1 & Sl & L1)]; rewrite E1;
    match goal with |- context [pick_child scores h len (i * 2 + 2) ?c] =>
      destruct (pick_child_spec scores h len (i * 2 + 2) c)
        as [[E2 L2]|(sr & E2 & Sr & L2)]; rewrite E2 end;
    cbn [fst snd] in *.
    + (* no child is smaller *)
      rewrite Z.eqb_refl.
      apply (heap_ordered_of_down scores h i D).
      intros j a b Hj Hp Ha Hb. rewrite Si in Ha. injection Ha as <-.
      pose proof (score_of_range _ _ _ _ Hb) as Hjl. fold len in Hjl.
      apply nlt_le; [eapply score_of_comparable; eassumption..|].
      apply parent_children in Hp; [|done].
      destruct Hp as [->| ->]; [apply L1|apply L2]; done || lia.
    + (* the right child is the smallest *)
      destruct (Z.eqb_spec (i * 2 + 2) i) as [?|_]; [lia|].
      apply (Step _ sr); [by right|done|by apply lt_le|].
      intros j b Hj Hp Hne Hb.
      pose proof (score_of_range _ _ _ _ Hb) as Hjl. fold len in Hjl.
      apply parent_children in Hp; [|done].
      assert (j = i * 2 + 1) as -> by lia.
      apply (le_trans _ si); [by apply lt_le|].
      apply nlt_le; [eapply score_of_comparable; eassumption..|].
      apply L1; done || lia.
    + (* the left child is the smallest *)
      destruct (Z.eqb_spec (i * 2 + 1) i) as [?|_]; [lia|].
      apply (Step _ sl); [by left|done|by apply lt_le|].
      intros j b Hj Hp Hne Hb.
      pose proof (score_of_range _ _ _ _ Hb) as Hjl. fold len in Hjl.
      apply parent_children in Hp; [|done].
      assert (j = i * 2 + 2) as -> by lia.
      apply nlt_le; [eapply score_of_comparable; eassumption..|].
      apply L2; done || lia.
    + (* the right child is smaller than the left, itself smaller *)
      destruct (Z.eqb_spec (i * 2 + 2) i) as [?|_]; [lia|].
      apply (Step _ sr); [by right|done| |].
      * apply (le_trans _ sl); by apply lt_le.
      * intros j b Hj Hp Hne Hb.
        apply parent_children in Hp; [|done].
        assert (j = i * 2 + 1) as -> by lia.
        rewrite Sl in Hb. injection Hb as <-. by apply lt_le.
Qed.

Lemma heap_min T scores h :
  comparable_scores scores ->
  heap_wf T h -> alen scores = T -> heap_ordered scores h ->
  forall k i a b, Z.to_nat i = k -> 0 <= i ->
    score_of scores h 0 = Some a -> score_of scores h i = Some b ->
    n_leb a b = true.
Proof.
  intros C W L Ho k. induction k as [k IH] using lt_wf_ind.
  intros i a b Hk Hi Ha Hb.
  destruct (decide (i = 0)) as [->|Hne].
  { rewrite Ha in Hb. injection Hb as <-. apply le_refl.
    eapply score_of_comparable; eassumption. }
  assert (0 < i) as Hpos by lia.
  pose proof (parent_lt i Hpos) as Hp.
  pose proof (score_of_range _ _ _ _ Hb) as Hr.
  destruct (aget_is_Some (hp_heap h) (parent i)) as [n Hn].
  { unfold hp_size in Hr. lia. }
  destruct (wf_heap_pos _ _ W _ _ Hn) as [Rn _].
  destruct (aget_is_Some scores n) as [c Hc]; [lia|].
  assert (score_of scores h (parent i) = Some c) as Sc
    by (unfold score_of; by rewrite Hn).
  apply (le_trans _ c).
  - apply (IH (Z.to_nat (parent i))) with (i := parent i); done || lia.
  - by apply (Ho i).
Qed.

Lemma append_wf T h node :
  heap_wf T h -> 0 <= node < T -> aget (hp_positions h) node = Some (-1) ->
  heap_wf T {| hp_heap := hp_heap h ++ [node];
               hp_positions := aset (hp_positions h) node (alen (hp_heap h ++ [node]) - 1) |}.
Proof.
  intros W R Hp. pose proof (wf_pos_len _ _ W) as L.
  assert (forall i, aget (hp_heap h) i <> Some node) as Fresh.
  { intros i Hi. pose proof (aget_range _ _ _ Hi) as Hr.
    apply (wf_heap_pos _ _ W) in Hi as [_ Hi]. rewrite Hp in Hi.
    simplify_eq. lia. }
  split; simpl.
  - by rewrite alen_aset.
  - intros i n Hi. unfold aget in Hi.
    destruct (Z.ltb_spec i 0) as [?|Hi0]; [done|].
    apply lookup_app_Some in Hi as [Hi|[Hlen Hi]].
    + assert (aget (hp_heap h) i = Some n) as Hi'.
      { unfold aget. destruct (Z.ltb_spec i 0); [lia|done]. }
      destruct (wf_heap_pos _ _ W _ _ Hi') as [? ?]. split; [done|].
      rewrite aget_aset_ne; [done|]. intros ->. by eapply Fresh.
    + apply list_lookup_singleton_Some in Hi as [Hi ->].
      split; [done|]. rewrite aget_aset_eq by lia. f_equal.
      unfold alen. rewrite length_app. simpl. lia.
  - intros n q. destruct (decide (n = node)) as [->|Nn].
    + rewrite aget_aset_eq by lia. intros [= <-]. right.
      unfold aget, alen. rewrite length_app. simpl.
      destruct (Z.ltb_spec (Z.of_nat (length (hp_heap h) + 1) - 1) 0); [lia|].
      rewrite lookup_app_r by lia.
      replace (Z.to_nat (Z.of_nat (length (hp_heap h) + 1) - 1) - length (hp_heap h))%nat
        with O by lia.
      done.
    + rewrite aget_aset_ne by done. intros Hq.
      destruct (wf_pos_heap _ _ W _ _ Hq) as [?|Hh]; [by left|right].
      unfold aget in *. destruct (q <? 0); [done|].
      by apply lookup_app_l_Some.
Qed.

Lemma push_ordered T scores h node :
  comparable_scores scores ->
  heap_wf T h -> 0 <= node < T -> heap_ordered scores h ->
  heap_ordered scores (push scores h node).
Proof.
  intros C W R Ho. unfold push.
  pose proof (wf_pos_len _ _ W) as L.
  destruct (aget_is_Some (hp_positions h) node) as [p Hp]; [lia|].
  rewrite Hp. destruct (Z.eqb_spec p (-1)) as [->|Np]; [|done].
  set (h1 := {| hp_heap := hp_heap h ++ [node]; hp_positions := _ |}).
  assert (alen (hp_heap h ++ [node]) - 1 = hp_size h) as Hk.
  { unfold hp_size, alen. rewrite length_app. simpl. lia. }
  rewrite Hk. unfold bubbleUp.
  apply (bubbleUp_loop_ordered T); [done|by apply append_wf| |lia].
  assert (forall j, j < hp_size h -> score_of scores h1 j = score_of scores h j) as Sj.
  { intros j Hj. unfold score_of, h1. simpl. unfold aget.
    destruct (Z.ltb_spec j 0) as [?|Hj0]; [done|].
    rewrite lookup_app_l; [done|]. unfold hp_size, alen in Hj. lia. }
  split.
  - intros j a b Hj Hne Ha Hb.
    pose proof (parent_lt j Hj). pose proof (score_of_range _ _ _ _ Hb) as Hr.
    assert (hp_size h1 = hp_size h + 1) as Hs1.
    { unfold hp_size, h1, alen. simpl. rewrite length_app. simpl. lia. }
    rewrite Sj in Ha by lia. rewrite Sj in Hb by lia. by apply (Ho j).
  - intros j a b _ Hj Hjp _ Hb.
    pose proof (parent_lt j Hj). pose proof (score_of_range _ _ _ _ Hb) as Hr.
    assert (hp_size h1 = hp_size h + 1) as Hs1.
    { unfold hp_size, h1, alen. simpl. rewrite length_app. simpl. lia. }
    lia.
Qed.

Lemma update_ordered T scores h node s' :
  comparable_scores scores -> comparable s' ->
  heap_wf T h -> alen scores = T -> 0 <= node < T ->
  heap_ordered scores h ->
  (forall s, in_heap h node -> aget scores node = Some s -> n_leb s' s = true) ->
  heap_ordered (aset scores node s') (update (aset scores node s') h node).
Proof.
  intros C Cs W L R Ho Hdec. unfold update.
  pose proof (comparable_scores_aset scores node s' C Cs) as C'.
  pose proof (wf_pos_len _ _ W) as Lp.
  destruct (aget_is_Some (hp_positions h) node) as [p Hp]; [lia|].
  destruct (aget_is_Some scores node) as [s Hs]; [lia|].
  rewrite Hp.
  assert (forall j n, aget (hp_heap h) j = Some n -> n <> node ->
            score_of (aset scores node s') h j = score_of scores h j) as Same.
  { intros j n Hj Hn. unfold score_of. rewrite Hj. by rewrite aget_aset_ne. }
  destruct (Z.eqb_spec p (-1)) as [->|Np].
  - (* the cell is not in the heap *)
    apply (push_ordered T); [done|done|done|].
    intros j a b Hj Ha Hb.
    assert (forall i n, aget (hp_heap h) i = Some n -> n <> node) as Fresh.
    { intros i n Hi ->. pose proof (aget_range _ _ _ Hi).
      apply (wf_heap_pos _ _ W) in Hi as [_ Hi]. rewrite Hp in Hi.
      simplify_eq. lia. }
    unfold score_of in Ha, Hb.
    destruct (aget (hp_heap h) (parent j)) as [n1|] eqn:H1; [|done].
    destruct (aget (hp_heap h) j) as [n2|] eqn:H2; [|done].
    pose proof (Fresh _ _ H1) as F1. pose proof (Fresh _ _ H2) as F2.
    rewrite aget_aset_ne in Ha by congruence.
    rewrite aget_aset_ne in Hb by congruence.
    apply (Ho j); unfold score_of; by rewrite ?H1, ?H2.
  - (* its score went down *)
    destruct (wf_pos_heap _ _ W _ _ Hp) as [?|Hh]; [done|].
    assert (in_heap h node) as Hin by (by exists p).
    specialize (Hdec s Hin Hs).
    pose proof (aget_range _ _ _ Hh) as Hpr.
    assert (forall j, score_of (aset scores node s') h j
              = if decide (j = p) then Some s' else score_of scores h j) as Sc.
    { intros j. case_decide as Hjp.
      - subst j. unfold score_of. rewrite Hh. apply aget_aset_eq. lia.
      - unfold score_of. destruct (aget (hp_heap h) j) as [n|] eqn:Hj; [|done].
        apply aget_aset_ne. intros ->.
        by pose proof (heap_wf_inj _ _ _ _ _ W Hj Hh). }
    assert (score_of scores h p = Some s) as Sp
      by (unfold score_of; by rewrite Hh).
    unfold bubbleUp. apply (bubbleUp_loop_ordered T); [done|done| |lia].
    split.
    + intros j a b Hj Hne. rewrite !Sc. rewrite (decide_False (P := j = p)) by done.
      case_decide as Hpj.
      * intros [= <-] Hb. apply (le_trans _ s); [done|].
        apply (Ho j); [done| |done]. by rewrite Hpj.
      * intros Ha Hb. by apply (Ho j).
    + intros j a b Hp0 Hj Hjp. rewrite !Sc.
      pose proof (parent_lt p Hp0). pose proof (parent_lt j Hj).
      rewrite (decide_False (P := parent p = p)) by lia.
      rewrite (decide_False (P := j = p)) by lia.
      intros Ha Hb. apply (le_trans _ s); [by apply (Ho p)|].
      apply (Ho j); [done| |done]. by rewrite Hjp.
Qed.

Lemma pop_shape T scores h root h' :
  heap_wf T h -> pop scores h = (root, h') -> hp_heap h <> [] ->
  aget (hp_heap h) 0 = Some root
  /\ ((hp_size h = 1 /\ hp_heap h' = [])
      \/ exists h2,
           h' = bubbleDown scores h2 0 /\ heap_wf T h2
           /\ hp_size h2 = hp_size h - 1 /\ 2 <= hp_size h
           /\ forall i, aget (hp_heap h2) i
                = if decide (i = 0) then aget (hp_heap h) (hp_size h - 1)
                  else if decide (i < hp_size h - 1) then aget (hp_heap h) i
                  else None).
Proof.
  intros W Hpop Hne. unfold pop in Hpop.
  destruct (hp_heap h) as [|r rest] eqn:Hh; [done|].
  revert Hpop.
  assert (aget (hp_heap h) 0 = Some r) as H0 by (by rewrite Hh).
  destruct (wf_heap_pos _ _ W _ _ H0) as [Rr Pr].
  pose proof (wf_pos_len _ _ W) as L.
  rewrite <- Hh.
  destruct (last (hp_heap h)) as [l|] eqn:Hl;
    [|rewrite last_lookup, Hh in Hl; apply lookup_ge_None in Hl;
      simpl in Hl; lia].
  rewrite last_lookup in Hl.
  assert (length (hp_heap h) = S (length rest)) as Hlen by (by rewrite Hh).
  assert (aget (hp_heap h) (hp_size h - 1) = Some l) as Hl'.
  { unfold aget, hp_size, alen.
    destruct (Z.ltb_spec (Z.of_nat (length (hp_heap h)) - 1) 0); [lia|].
    rewrite <- Hl. f_equal. lia. }
  destruct (wf_heap_pos _ _ W _ _ Hl') as [Rl Pl].
  destruct (take (length (hp_heap h) - 1) (hp_heap h)) as [|x heap1'] eqn:Ht.
  - intros [= <- <-]. split; [done|]. left. split; [|done].
    apply (f_equal length) in Ht. rewrite length_take in Ht. simpl in Ht.
    unfold hp_size, alen. lia.
  - rewrite <- Ht. intros [= <- <-]. split; [done|]. right.
    assert (2 <= hp_size h) as Htwo.
    { apply (f_equal length) in Ht. rewrite length_take in Ht. simpl in Ht.
      unfold hp_size, alen. lia. }
    assert (l <> r) as Nlr.
    { intros ->. pose proof (heap_wf_inj _ _ _ _ _ W H0 Hl'). lia. }
    set (h2 := {| hp_heap := aset (take (length (hp_heap h) - 1) (hp_heap h)) 0 l;
                  hp_positions := aset (aset (hp_positions h) r (-1)) l 0 |}).
    assert (forall i, aget (hp_heap h2) i
              = if decide (i = 0) then Some l
                else if decide (i < hp_size h - 1) then aget (hp_heap h) i
                else None) as Lk.
    { intros i. simpl. destruct (decide (i = 0)) as [->|Ni].
      - rewrite aget_aset_eq; [done|]. unfold alen. rewrite length_take.
        unfold hp_size, alen in Htwo. lia.
      - rewrite aget_aset_ne by done. rewrite aget_take.
        unfold hp_size, alen. repeat case_decide; done || lia. }
    assert (forall n, aget (hp_positions h2) n
              = if decide (n = l) then Some 0
                else if decide (n = r) then Some (-1)
                else aget (hp_positions h) n) as Lp.
    { intros n. simpl. repeat case_decide; subst.
      - rewrite aget_aset_eq; [done|]. rewrite alen_aset. lia.
      - rewrite aget_aset_ne by done. rewrite aget_aset_eq; [done|lia].
      - by rewrite !aget_aset_ne. }
    exists h2. split; [done|]. split; [|split; [|split; [done|]]].
    + split.
      * simpl. by rewrite !alen_aset.
      * intros i n. rewrite Lk, Lp. repeat case_decide; subst; intros Hi;
          simplify_eq; try done;
          try (pose proof (heap_wf_inj _ _ _ _ _ W Hi Hl'));
          try (pose proof (heap_wf_inj _ _ _ _ _ W Hi H0));
          try lia.
        by apply W.
      * intros n p. rewrite Lk, Lp. repeat case_decide; subst; intros Hp;
          simplify_eq; try (by left); try (by right);
          destruct (wf_pos_heap _ _ W _ _ Hp) as [?|Hq]; try (by left);
          try (pose proof (heap_wf_inj _ _ _ _ _ W Hq Hl'));
          try (pose proof (heap_wf_inj _ _ _ _ _ W Hq H0));
          try (pose proof (aget_range _ _ _ Hq) as Hrange; unfold alen in Hrange);
          try lia; try congruence; try (by right).
        assert (p = hp_size h - 1) as -> by (unfold hp_size, alen in *; lia).
        congruence.
    + unfold hp_size, h2, alen. simpl. rewrite length_aset, length_take.
      unfold hp_size, alen in Htwo. lia.
    + intros i. rewrite Lk. by rewrite Hl'.
Qed.

Lemma pop_ordered T scores h root h' :
  comparable_scores scores ->
  heap_wf T h -> heap_ordered scores h -> pop scores h = (root, h') ->
  hp_heap h <> [] -> heap_ordered scores h'.
Proof.
  intros C W Ho Hpop Hne.
  destruct (pop_shape T scores h root h' W Hpop Hne)
    as [_ [[_ He]|(h2 & -> & W2 & Hs2 & Htwo & Lk)]].
  - intros j a b _ _ Hb. unfold score_of in Hb. rewrite He in Hb.
    unfold aget in Hb. destruct (j <? 0); by rewrite ?lookup_nil in Hb.
  - unfold bubbleDown. apply (bubbleDown_loop_ordered T); [done|done|lia| |lia].
    assert (forall j, 0 < j -> score_of scores h2 j
              = if decide (j < hp_size h - 1) then score_of scores h j else None)
      as Sj.
    { intros j Hj. unfold score_of. rewrite Lk.
      rewrite decide_False by lia. by case_decide. }
    split.
    + intros j a b Hj Hp. pose proof (parent_lt j Hj).
      rewrite !Sj by lia. repeat case_decide; try done.
      intros Ha Hb. by apply (Ho j).
    + intros; lia.
Qed.

Lemma pop_min T scores h root h' n a b :
  comparable_scores scores ->
  heap_wf T h -> alen scores = T -> heap_ordered scores h ->
  pop scores h = (root, h') -> hp_heap h <> [] ->
  in_heap h n -> aget scores root = Some a -> aget scores n = Some b ->
  n_leb a b = true.
Proof.
  intros C W L Ho Hpop Hne [i Hi] Ha Hb.
  destruct (pop_shape T scores h root h' W Hpop Hne) as [H0 _].
  pose proof (aget_range _ _ _ Hi) as Hr.
  apply (heap_min T scores h C W L Ho (Z.to_nat i) i); try done; try lia.
  - unfold score_of. by rewrite H0.
  - unfold score_of. by rewrite Hi.
Qed.

End HeapOrderFacts.

(** ** Costs of paths *)

Section CostFacts.

Lemma sqrt2_sq : (sqrt 2 * sqrt 2 = 2)%R.
Proof. apply sqrt_sqrt. lra. Qed.

Lemma sqrt2_pos : (0 < sqrt 2)%R.
Proof. apply sqrt_lt_R0. lra. Qed.

Lemma sqrt2_bounds : (1 < sqrt 2 < 2)%R.
Proof. pose proof sqrt2_sq. pose proof sqrt2_pos. split; nra. Qed.

Lemma conj_product (P Q : R) :
  ((P - Q * sqrt 2) * (P + Q * sqrt 2) = P * P - 2 * (Q * Q))%R.
Proof.
  transitivity (P * P - Q * Q * (sqrt 2 * sqrt 2))%R; [ring|].
  rewrite sqrt2_sq. ring.
Qed.

Lemma is_pos_spec p q :
  Exact.is_pos p q = true <-> (0 < IZR p + IZR q * sqrt 2)%R.
Proof.
  pose proof sqrt2_pos as Hp. pose proof (conj_product (IZR p) (IZR q)) as Hc.
  unfold Exact.is_pos.
  destruct (Z.leb_spec 0 p) as [Hp0|Hp0], (Z.leb_spec 0 q) as [Hq0|Hq0];
    cbn [andb].
  - rewrite orb_true_iff, !Z.ltb_lt.
    apply IZR_le in Hp0 as Hp0'. apply IZR_le in Hq0 as Hq0'.
    split.
    + intros [H|H]; apply IZR_lt in H; nra.
    + intros H. destruct (Z.eq_dec p 0) as [->|?]; [|lia].
      destruct (Z.eq_dec q 0) as [->|?]; [|lia]. simpl in H. lra.
  - apply IZR_lt in Hq0 as Hq0'. apply IZR_le in Hp0 as Hp0'.
    destruct (Z.leb_spec p 0) as [Hp1|Hp1], (Z.leb_spec q 0) as [Hq1|Hq1];
      cbn [andb]; try lia.
    + assert (p = 0) as -> by lia. split; [discriminate|]. intros H. nra.
    + destruct (Z.ltb_spec 0 p) as [_|?]; [|lia].
      rewrite Z.ltb_lt. apply IZR_lt in Hp1 as Hp1'.
      assert (0 < IZR p - IZR q * sqrt 2)%R as Hm by nra.
      split.
      * intros H. apply IZR_lt in H. rewrite !mult_IZR in H.
        assert (0 < (IZR p - IZR q * sqrt 2) * (IZR p + IZR q * sqrt 2))%R as Hpr
          by (rewrite Hc; lra).
        destruct (Rlt_dec 0 (IZR p + IZR q * sqrt 2)) as [?|Hn]; [done|].
        exfalso. apply Rnot_lt_le in Hn.
        assert ((IZR p - IZR q * sqrt 2) * (IZR p + IZR q * sqrt 2) <= 0)%R; [|lra].
        rewrite <- (Rmult_0_r (IZR p - IZR q * sqrt 2)).
        apply Rmult_le_compat_l; lra.
      * intros H. apply lt_IZR. rewrite !mult_IZR.
        pose proof (Rmult_lt_0_compat _ _ Hm H) as Hpr. rewrite Hc in Hpr. lra.
  - apply IZR_lt in Hp0 as Hp0'. apply IZR_le in Hq0 as Hq0'.
    destruct (Z.leb_spec p 0) as [Hp1|Hp1], (Z.leb_spec q 0) as [Hq1|Hq1];
      cbn [andb]; try lia.
    + assert (q = 0) as -> by lia. split; [discriminate|]. intros H. nra.
    + destruct (Z.ltb_spec 0 p) as [?|_]; [lia|].
      rewrite Z.ltb_lt. apply IZR_lt in Hq1 as Hq1'.
      assert (IZR p - IZR q * sqrt 2 < 0)%R as Hm by nra.
      split.
      * intros H. apply IZR_lt in H. rewrite !mult_IZR in H.
        assert ((IZR p - IZR q * sqrt 2) * (IZR p + IZR q * sqrt 2) < 0)%R as Hpr
          by (rewrite Hc; lra).
        destruct (Rlt_dec 0 (IZR p + IZR q * sqrt 2)) as [?|Hn]; [done|].
        exfalso. apply Rnot_lt_le in Hn.
        assert (0 <= (IZR p - IZR q * sqrt 2) * (IZR p + IZR q * sqrt 2))%R; [|lra].
        replace ((IZR p - IZR q * sqrt 2) * (IZR p + IZR q * sqrt 2))%R
          with ((- (IZR p - IZR q * sqrt 2)) * (- (IZR p + IZR q * sqrt 2)))%R by ring.
        apply Rmult_le_pos; lra.
      * intros H. apply lt_IZR. rewrite !mult_IZR.
        assert (0 < (- (IZR p - IZR q * sqrt 2)) * (IZR p + IZR q * sqrt 2))%R as Hpr
          by (apply Rmult_lt_0_compat; lra).
        replace ((- (IZR p - IZR q * sqrt 2)) * (IZR p + IZR q * sqrt 2))%R
          with (- ((IZR p - IZR q * sqrt 2) * (IZR p + IZR q * sqrt 2)))%R in Hpr by ring.
        rewrite Hc in Hpr. lra.
  - destruct (Z.leb_spec p 0) as [Hp1|Hp1]; [|lia].
    destruct (Z.leb_spec q 0) as [Hq1|Hq1]; [|lia]. cbn [andb].
    apply IZR_lt in Hq0. apply IZR_lt in Hp0. split; [discriminate|]. nra.
Qed.

Lemma ltb_spec x y : Exact.ltb x y = true <-> (to_R x < to_R y)%R.
Proof.
  unfold Exact.ltb. rewrite is_pos_spec. unfold to_R.
  rewrite !minus_IZR. split; intros; lra.
Qed.

End CostFacts.

(** C2 (path optimality): the path that [findPath] returns is not
    always a cheapest one.  The scores are stored rounded to single
    precision, and on the grid [Samples.maze] the sum of 517 diagonal
    moves rounds below the sum of 478 axis moves and 179 diagonal moves,
    which is the smaller one.  [findPath] returns the upper corridor
    although the lower one is a path of passable cells, the start
    included, within the slope limit, and costs less. *)
Lemma rounded_scores_miss_shorter_path :
  findPath Samples.maze Samples.maze_revealed Samples.maze_start
           Samples.maze_goal Samples.maze_walk
  = Returned (Some Samples.upper_way)
  /\ path_ok Samples.maze Samples.maze_revealed Samples.maze_walk Samples.lower_way
  /\ (forall p, p ∈ Samples.lower_way ->
        passable Samples.maze Samples.maze_revealed Samples.maze_walk p)
  /\ head Samples.lower_way = Some Samples.maze_start
  /\ last Samples.lower_way = Some Samples.maze_goal
  /\ path_cost Samples.upper_way = Exact.mk 0 517
  /\ path_cost Samples.lower_way = Exact.mk 478 179
  /\ (to_R (path_cost Samples.lower_way) < to_R (path_cost Samples.upper_way))%R.
Proof.
  assert (path_ok Samples.maze Samples.maze_revealed Samples.maze_walk
                  Samples.lower_way) as Hok.
  { apply path_okb_spec. vm_compute. reflexivity. }
  assert (path_cost Samples.lower_way = Exact.mk 478 179) as Hl
    by (vm_compute; reflexivity).
  assert (path_cost Samples.upper_way = Exact.mk 0 517) as Hu
    by (vm_compute; reflexivity).
  split; [vm_compute; reflexivity|].
  split; [done|]. split.
  - intros p Hp. apply list_elem_of_lookup in Hp as [i Hi].
    destruct i as [|i].
    + injection Hi as <-. vm_compute. reflexivity.
    + destruct (lookup_lt_is_Some_2 Samples.lower_way i) as [p0 Hp0].
      { apply lookup_lt_Some in Hi. lia. }
      by destruct (Hok i p0 p Hp0 Hi) as (_ & ? & _).
  - split; [vm_compute; reflexivity|]. split; [vm_compute; reflexivity|].
    split; [done|]. split; [done|].
    rewrite Hl, Hu. apply ltb_spec. vm_compute. reflexivity.
Qed.

(** * Spawn search *)

Section SpawnFacts.
Context {N : Number}.
Implicit Types (world : WorldData).

Lemma elem_of_span_iff r d : d ∈ span r <-> - r <= d <= r.
Proof. unfold span. rewrite elem_of_seqZ. lia. Qed.

Lemma elem_of_square cx cy r x y :
  (x, y) ∈ square cx cy r <-> chebyshev x y cx cy <= r.
Proof.
  unfold square, chebyshev. rewrite list_elem_of_In, in_flat_map. split.
  - intros (dy & Hdy & Hin). apply list_elem_of_In in Hdy.
    apply list_elem_of_In, list_elem_of_fmap in Hin as (dx & [= -> ->] & Hdx).
    apply elem_of_span_iff in Hdy, Hdx. lia.
  - intros Hr. exists (y - cy). split.
    + apply list_elem_of_In, elem_of_span_iff. lia.
    + apply list_elem_of_In, list_elem_of_fmap. exists (x - cx). split.
      * f_equal; lia.
      * apply elem_of_span_iff. lia.
Qed.

(** Every cell of the world is within the last radius of the scan. *)
Lemma inBounds_chebyshev world x y :
  inBounds world x y = true ->
  0 <= chebyshev x y (width world / 2) (height world / 2)
    < Z.max (width world) (height world).
Proof.
  rewrite inBounds_spec. unfold chebyshev. intros [Hx Hy].
  assert (forall w, 1 <= w -> 0 <= w / 2 <= w - 1) as Hhalf.
  { intros w Hw. pose proof (Z_div_mod_eq_full w 2).
    pose proof (Z.mod_pos_bound w 2). lia. }
  pose proof (Hhalf (width world)). pose proof (Hhalf (height world)). lia.
Qed.

Lemma elem_of_spawn_scan world x y :
  (x, y) ∈ spawn_scan world <->
  chebyshev x y (width world / 2) (height world / 2)
    < Z.max (width world) (height world).
Proof.
  assert (0 <= chebyshev x y (width world / 2) (height world / 2)) as Hpos
    by (unfold chebyshev; lia).
  unfold spawn_scan. rewrite list_elem_of_In, in_flat_map. split.
  - intros (r & Hr & Hin). apply list_elem_of_In, elem_of_seqZ in Hr.
    apply list_elem_of_In, elem_of_square in Hin. lia.
  - intros Hlt. exists (chebyshev x y (width world / 2) (height world / 2)). split.
    + apply list_elem_of_In, elem_of_seqZ. lia.
    + apply list_elem_of_In, elem_of_square. lia.
Qed.

Lemma find_append {B} (f : B -> bool) (l1 l2 : list B) :
  find f (l1 ++ l2)
  = match find f l1 with Some x => Some x | None => find f l2 end.
Proof. induction l1 as [|x l1 IH]; [done|]. simpl. by destruct (f x). Qed.

(** [find] on the concatenation of the lists [g r]: the result is in the
    first list that holds a match. *)
Lemma find_flat_map {A B} (f : B -> bool) (g : A -> list B) (l : list A) c :
  find f (flat_map g l) = Some c ->
  exists i r, l !! i = Some r /\ c ∈ g r /\ f c = true
    /\ forall j r' c', (j < i)%nat -> l !! j = Some r' -> c' ∈ g r' -> f c' = false.
Proof.
  induction l as [|r l IH]; [done|]. cbn [flat_map]. rewrite find_append.
  destruct (find f (g r)) as [c'|] eqn:Hr.
  - intros [= ->]. exists O, r. split; [done|].
    apply find_some in Hr as [Hin Hc]. split; [by apply list_elem_of_In|].
    split; [done|]. intros j r' c' Hj. lia.
  - intros (i & r0 & Hi & Hc & Hfc & Hno)%IH.
    exists (S i), r0. split; [done|]. split; [done|]. split; [done|].
    intros [|j] r' c' Hj Hl Hin.
    + injection Hl as <-. apply (find_none _ _ Hr). by apply list_elem_of_In.
    + apply (Hno j r'); [lia|done|done].
Qed.

(** What [find] returns on the scan by growing squares. *)
Lemma find_squares (f : Z * Z -> bool) cx cy n :
  match find f (flat_map (square cx cy) (seqZ 0 n)) with
  | Some c =>
      f c = true /\ chebyshev c.1 c.2 cx cy < n
      /\ forall x y, f (x, y) = true ->
                     chebyshev c.1 c.2 cx cy <= chebyshev x y cx cy
  | None => forall x y, chebyshev x y cx cy < n -> f (x, y) = false
  end.
Proof.
  assert (forall x y, 0 <= chebyshev x y cx cy) as Hpos
    by (intros; unfold chebyshev; lia).
  destruct (find f (flat_map (square cx cy) (seqZ 0 n))) as [c|] eqn:Hf.
  - destruct (find_flat_map _ _ _ _ Hf) as (i & r & Hi & Hc & Hfc & Hno).
    apply lookup_seqZ in Hi as [-> Hi]. destruct c as [cx' cy']. cbn [fst snd].
    apply elem_of_square in Hc.
    split; [done|]. split; [lia|]. intros x y Hxy.
    destruct (Z.le_gt_cases (chebyshev cx' cy' cx cy) (chebyshev x y cx cy))
      as [?|Hlt]; [done|].
    assert (f (x, y) = false); [|congruence].
    apply (Hno (Z.to_nat (chebyshev x y cx cy)) (chebyshev x y cx cy)).
    + specialize (Hpos x y). lia.
    + apply lookup_seqZ. specialize (Hpos x y). lia.
    + by apply elem_of_square.
  - intros x y Hlt. apply (find_none _ _ Hf). apply list_elem_of_In.
    apply list_elem_of_In, in_flat_map.
    exists (chebyshev x y cx cy). split.
    + apply list_elem_of_In, elem_of_seqZ. specialize (Hpos x y). lia.
    + apply list_elem_of_In, elem_of_square. lia.
Qed.

Lemma isCellSpawnable_true world x y ms sea bm :
  isCellSpawnable world x y ms sea bm = true ->
  inBounds world x y = true
  /\ getGround world x y <> Water
  /\ aget bm (getIndex (width world) x y) <> Some 1
  /\ cellHasObject world x y = false
  /\ (exists h, aget (heightmap world) (getIndex (width world) x y) = Some h
                /\ n_ltb h sea = false)
  /\ n_leb (getSlopeAt (heightmap world) (width world) (height world) x y) ms = true.
Proof.
  unfold isCellSpawnable, getGround.
  destruct (inBounds world x y); [|done]. cbn [negb].
  destruct (aget (heightmap world) _) as [h|]; [|done].
  destruct (n_ltb h sea) eqn:Hsea; [done|].
  destruct (aget (ground world) _) as [[| | |]|]; try done;
    (destruct (aget bm _) as [[|[| |]|]|] eqn:Hbm; try done);
    (destruct (cellHasObject world x y); [done|]);
    intros Hs; repeat split; try done; by exists h.
Qed.

Lemma spawnable_passable world x y ms sea bm revealed options :
  isCellSpawnable world x y ms sea bm = true ->
  blockedMask options = Some bm ->
  aget revealed (getIndex (width world) x y) <> Some 0 ->
  isCellPassable world revealed x y options = true.
Proof.
  intros (Hb & Hg & Hbm & Ho & _ & _)%isCellSpawnable_true Hopt Hrev.
  unfold isCellPassable, blockedAt.
  rewrite Hb, Hopt, Ho. cbn [negb].
  destruct (aget revealed _) as [[| |]|]; try done;
    (destruct (aget bm _) as [[|[| |]|]|]; try done);
    by destruct (getGround world x y).
Qed.

(** X1: a cell that [isCellSpawnable] accepts is in bounds and
    [isCellStandable]; once it is revealed, [isCellPassable] accepts it
    too under the same blocked mask, whatever the other options. *)
Theorem spawnable_is_standable world x y ms sea bm :
  isCellSpawnable world x y ms sea bm = true ->
  inBounds world x y = true
  /\ isCellStandable world x y bm = true
  /\ forall revealed options,
       blockedMask options = Some bm ->
       aget revealed (getIndex (width world) x y) <> Some 0 ->
       isCellPassable world revealed x y options = true.
Proof.
  intros Hs. pose proof Hs as (Hb & Hg & Hbm & Ho & _ & _)%isCellSpawnable_true.
  split; [done|]. split.
  - unfold isCellStandable. rewrite Ho.
    destruct (getGround world x y); try done;
      by destruct (aget bm _) as [[|[| |]|]|].
  - intros revealed options. by apply spawnable_passable with ms sea.
Qed.

(** X2: when some cell of the world is spawnable, [findSpawn] returns a
    spawnable cell, and no spawnable cell is nearer to the centre of the
    world in the distance of the scan; when none is, it returns the cell
    (0, 0). *)
Theorem findSpawn_nearest world ms sea bm :
  ((exists x y, isCellSpawnable world x y ms sea bm = true) ->
   isCellSpawnable world (gx (findSpawn world ms sea bm))
                   (gy (findSpawn world ms sea bm)) ms sea bm = true
   /\ forall x y,
        isCellSpawnable world x y ms sea bm = true ->
        chebyshev (gx (findSpawn world ms sea bm)) (gy (findSpawn world ms sea bm))
                  (width world / 2) (height world / 2)
        <= chebyshev x y (width world / 2) (height world / 2))
  /\ ((forall x y, isCellSpawnable world x y ms sea bm = false) ->
      findSpawn world ms sea bm = {| gx := 0; gy := 0 |}).
Proof.
  unfold findSpawn, spawn_scan.
  pose proof (find_squares
                (fun c => isCellSpawnable world c.1 c.2 ms sea bm)
                (width world / 2) (height world / 2)
                (Z.max (width world) (height world))) as Hfind.
  destruct (find _ _) as [[cx cy]|]; cbn [fst snd gx gy] in *.
  - destruct Hfind as (Hc & _ & Hnear). split.
    + intros _. split; [done|]. intros x y Hxy. by apply (Hnear x y).
    + intros Hnone. by rewrite Hnone in Hc.
  - split; [|done]. intros (x & y & Hxy). exfalso.
    pose proof Hxy as (Hb & _)%isCellSpawnable_true.
    apply inBounds_chebyshev in Hb.
    rewrite (Hfind x y) in Hxy; [done|lia].
Qed.

Lemma first_result_Some {A B} (f : A -> option B) l b :
  first_result f l = Some b -> exists a, a ∈ l /\ f a = Some b.
Proof.
  induction l as [|a l IH]; [done|]. simpl.
  destruct (f a) as [b'|] eqn:Ha.
  - intros [= ->]. exists a. split; [by left|done].
  - intros (a' & Hin & Hf)%IH. exists a'. split; [by right|done].
Qed.

Lemma first_result_None {A B} (f : A -> option B) l :
  first_result f l = None -> forall a, a ∈ l -> f a = None.
Proof.
  induction l as [|a l IH]; intros Hn a' Hin; [by apply not_elem_of_nil in Hin|].
  simpl in Hn. destruct (f a) as [b'|] eqn:Ha; [done|].
  apply elem_of_cons in Hin as [->|Hin]; [done|by apply IH].
Qed.

(** X3: [findSpawnNearForest] returns a spawnable cell at most three
    cells, in each direction, from a cell of the world that the mask
    blocks; it returns nothing only when the world has no such cell. *)
Theorem findSpawnNearForest_spec world ms sea bm :
  (forall p,
     findSpawnNearForest world ms sea bm = Some p ->
     isCellSpawnable world (gx p) (gy p) ms sea bm = true
     /\ exists x y,
          inBounds world x y = true
          /\ aget bm (getIndex (width world) x y) = Some 1
          /\ chebyshev (gx p) (gy p) x y <= 3)
  /\ (findSpawnNearForest world ms sea bm = None ->
      forall x y px py,
        inBounds world x y = true ->
        aget bm (getIndex (width world) x y) = Some 1 ->
        chebyshev px py x y <= 3 ->
        isCellSpawnable world px py ms sea bm = false).
Proof.
  unfold findSpawnNearForest. split.
  - intros p ([x y] & Hin & Hf)%first_result_Some.
    destruct (inBounds world x y) eqn:Hb; [|done]. cbn [negb] in Hf.
    destruct (aget bm _) as [[|[| |]|]|] eqn:Hbm; try done.
    unfold findSpawnAroundCell in Hf.
    destruct (find _ _) as [[cx cy]|] eqn:Hfind; [|done].
    injection Hf as <-. apply find_some in Hfind as [Hsq Hsp].
    apply list_elem_of_In, elem_of_square in Hsq.
    split; [done|]. by exists x, y.
  - intros Hnone x y px py Hb Hbm Hd.
    pose proof (first_result_None _ _ Hnone (x, y)) as Hxy.
    cbn beta iota in Hxy. rewrite Hb, Hbm in Hxy. cbn [negb] in Hxy.
    unfold findSpawnAroundCell in Hxy.
    destruct (find _ _) as [[cx cy]|] eqn:Hfind.
    + exfalso. assert (Some {| gx := cx; gy := cy |} = None) as Habs; [|done].
      apply Hxy. apply elem_of_spawn_scan.
      apply inBounds_chebyshev in Hb. lia.
    + apply (find_none _ _ Hfind (px, py)).
      by apply list_elem_of_In, elem_of_square.
Qed.

End SpawnFacts.

(** * More on the fog of war *)

Section RevealMore.
Context {N : Number}.
Implicit Types (world : WorldData).

Lemma mark_lookup st index c :
  aget (fst (mark st index)) c
  = match aget (fst st) c with
    | Some 0 => if decide (c = index) then Some 1 else Some 0
    | v => v
    end.
Proof.
  unfold mark. destruct (aget (fst st) index) as [v|] eqn:Hi.
  - pose proof (aget_range _ _ _ Hi) as Hr.
    destruct (decide (c = index)) as [->|Hne].
    + rewrite Hi. destruct v as [|p|p]; cbn [fst]; [|done|done].
      by rewrite aget_aset_eq.
    + assert (aget (fst (match v with
                         | 0 => (aset (fst st) index 1, snd st ++ [index])
                         | _ => st
                         end)) c = aget (fst st) c) as ->.
      { destruct v; cbn [fst]; [|done|done]. by rewrite aget_aset_ne. }
      by destruct (aget (fst st) c) as [[| |]|].
  - destruct (decide (c = index)) as [->|Hne].
    + by rewrite Hi.
    + by destruct (aget (fst st) c) as [[| |]|].
Qed.

Lemma marks_lookup l : forall st c,
  aget (fst (fold_left mark l st)) c
  = match aget (fst st) c with
    | Some 0 => if decide (c ∈ l) then Some 1 else Some 0
    | v => v
    end.
Proof.
  induction l as [|i l IH]; intros st c; cbn [fold_left].
  - by destruct (aget (fst st) c) as [[| |]|].
  - rewrite IH, mark_lookup.
    destruct (aget (fst st) c) as [[| |]|]; try done.
    destruct (decide (c = i)) as [->|Hne].
    + rewrite decide_True; [done|]. by left.
    + destruct (decide (c ∈ l)) as [Hin|Hin].
      * rewrite decide_True; [done|]. by right.
      * rewrite decide_False; [done|]. by intros [?|?]%elem_of_cons.
Qed.

Lemma marks_alen l : forall st, alen (fst (fold_left mark l st)) = alen (fst st).
Proof.
  induction l as [|i l IH]; intros st; cbn [fold_left]; [done|].
  rewrite IH. unfold mark.
  destruct (aget (fst st) i) as [[| |]|]; cbn [fst]; try done.
  apply alen_aset.
Qed.

Lemma marks_list l : forall st,
  NoDup (snd st) ->
  (forall c, c ∈ snd st -> aget (fst st) c <> Some 0) ->
  NoDup (snd (fold_left mark l st))
  /\ forall c, c ∈ snd (fold_left mark l st)
               <-> c ∈ snd st \/ (aget (fst st) c = Some 0 /\ c ∈ l).
Proof.
  induction l as [|i l IH]; intros st Hnd Hdone; cbn [fold_left].
  - split; [done|]. intros c. split; [by left|].
    intros [?|[_ Hc]]; [done|]. by apply not_elem_of_nil in Hc.
  - destruct (IH (mark st i)) as [Hnd' Hiff].
    + unfold mark. destruct (aget (fst st) i) as [[| |]|] eqn:Hi; cbn [snd]; try done.
      apply NoDup_app. split; [done|]. split; [|apply NoDup_singleton].
      intros c Hc ->%list_elem_of_singleton. by apply Hdone in Hc.
    + intros c Hc. rewrite mark_lookup.
      unfold mark in Hc. destruct (aget (fst st) i) as [[| |]|] eqn:Hi;
        cbn [snd] in Hc.
      * apply elem_of_app in Hc as [Hc| ->%list_elem_of_singleton].
        -- apply Hdone in Hc. by destruct (aget (fst st) c) as [[| |]|].
        -- rewrite Hi. by rewrite decide_True.
      * apply Hdone in Hc. by destruct (aget (fst st) c) as [[| |]|].
      * apply Hdone in Hc. by destruct (aget (fst st) c) as [[| |]|].
      * apply Hdone in Hc. by destruct (aget (fst st) c) as [[| |]|].
    + split; [done|]. intros c. rewrite Hiff, mark_lookup.
      assert (c ∈ snd (mark st i)
              <-> c ∈ snd st \/ (aget (fst st) c = Some 0 /\ c = i)) as ->.
      { unfold mark. destruct (aget (fst st) i) as [[| |]|] eqn:Hi; cbn [snd].
        - rewrite elem_of_app, list_elem_of_singleton. split.
          + intros [?| ->]; [by left|by right].
          + intros [?|[_ ->]]; [by left|by right].
        - split; [by left|]. intros [?|[Hc ->]]; [done|congruence].
        - split; [by left|]. intros [?|[Hc ->]]; [done|congruence].
        - split; [by left|]. intros [?|[Hc ->]]; [done|congruence]. }
      rewrite elem_of_cons.
      destruct (aget (fst st) c) as [[| |]|] eqn:Hc;
        destruct (decide (c = i)); intuition congruence.
Qed.

Lemma square_sum_bound a b r :
  0 <= r -> a * a + b * b <= r * r -> - r <= a <= r.
Proof.
  intros Hr Hs. assert (0 <= b * b) by nia.
  destruct (Z.le_gt_cases a r), (Z.le_gt_cases (- r) a); [lia|nia|nia|nia].
Qed.

Lemma elem_of_targets world center radius c :
  c ∈ targets world center radius <->
  exists x y,
    c = getIndex (width world) x y
    /\ inBounds world x y = true
    /\ - radius <= x - gx center <= radius
    /\ - radius <= y - gy center <= radius
    /\ (x - gx center) * (x - gx center) + (y - gy center) * (y - gy center)
       <= radius * radius.
Proof.
  unfold targets. rewrite list_elem_of_In, in_flat_map. split.
  - intros (dy & Hdy & Hin). apply in_flat_map in Hin as (dx & Hdx & Hin).
    apply list_elem_of_In, elem_of_span in Hdy.
    apply list_elem_of_In, elem_of_span in Hdx.
    destruct (Z.gtb_spec (dx * dx + dy * dy) (radius * radius)); [done|].
    destruct (inBounds world _ _) eqn:Hb; cbn [negb] in Hin; [|done].
    destruct Hin as [<-|[]].
    exists (gx center + dx), (gy center + dy).
    replace (gx center + dx - gx center) with dx by lia.
    replace (gy center + dy - gy center) with dy by lia. done.
  - intros (x & y & -> & Hb & Hx & Hy & Hd).
    exists (y - gy center). split; [by apply list_elem_of_In, elem_of_span|].
    apply in_flat_map. exists (x - gx center).
    split; [by apply list_elem_of_In, elem_of_span|].
    destruct (Z.gtb_spec ((x - gx center) * (x - gx center)
                          + (y - gy center) * (y - gy center)) (radius * radius));
      [lia|].
    replace (gx center + (x - gx center)) with x by lia.
    replace (gy center + (y - gy center)) with y by lia.
    rewrite Hb. by left.
Qed.

(** X5: what [revealAround] does to the mask.  The length is kept; an
    entry that is not 0 is kept; an entry 0 becomes 1 when it is the
    index of a cell of the world within [radius] of the centre, and is
    kept when no such cell has this index.  A negative radius changes
    nothing. *)
Theorem revealAround_mask world mask center radius :
  alen (fst (revealAround world mask center radius)) = alen mask
  /\ (forall c, aget mask c <> Some 0 ->
                aget (fst (revealAround world mask center radius)) c = aget mask c)
  /\ (forall x y,
        0 <= radius -> inBounds world x y = true ->
        (x - gx center) * (x - gx center) + (y - gy center) * (y - gy center)
          <= radius * radius ->
        aget mask (getIndex (width world) x y) = Some 0 ->
        aget (fst (revealAround world mask center radius))
             (getIndex (width world) x y) = Some 1)
  /\ (forall c,
        (forall x y, inBounds world x y = true -> c = getIndex (width world) x y ->
           radius * radius
           < (x - gx center) * (x - gx center) + (y - gy center) * (y - gy center)) ->
        aget (fst (revealAround world mask center radius)) c = aget mask c)
  /\ (radius < 0 -> revealAround world mask center radius = (mask, [])).
Proof.
  rewrite revealAround_targets. split; [by rewrite marks_alen|].
  split; [|split; [|split]].
  - intros c Hc. rewrite marks_lookup. cbn [fst].
    by destruct (aget mask c) as [[| |]|].
  - intros x y Hr Hb Hd Hm. rewrite marks_lookup. cbn [fst]. rewrite Hm.
    rewrite decide_True; [done|]. apply elem_of_targets.
    exists x, y. split; [done|]. split; [done|].
    split; [by apply square_sum_bound with (y - gy center)|].
    split; [|done]. apply square_sum_bound with (x - gx center); [done|lia].
  - intros c Hout. rewrite marks_lookup. cbn [fst].
    destruct (aget mask c) as [[| |]|]; try done.
    rewrite decide_False; [done|].
    intros (x & y & -> & Hb & _ & _ & Hd)%elem_of_targets.
    specialize (Hout x y Hb eq_refl). lia.
  - intros Hneg. unfold targets, span.
    replace (seqZ (- radius) (2 * radius + 1)) with (@nil Z); [done|].
    symmetry. unfold seqZ. by replace (Z.to_nat (2 * radius + 1)) with O by lia.
Qed.

(** X6: the list that [revealAround] returns holds exactly the indices
    whose entry the call turned from 0 to 1, each of them once. *)
Theorem revealAround_newly world mask center radius :
  NoDup (snd (revealAround world mask center radius))
  /\ forall c,
       c ∈ snd (revealAround world mask center radius)
       <-> aget mask c = Some 0
           /\ aget (fst (revealAround world mask center radius)) c = Some 1.
Proof.
  rewrite revealAround_targets.
  destruct (marks_list (targets world center radius) (mask, [])) as [Hnd Hiff].
  { constructor. }
  { intros c Hc. by apply not_elem_of_nil in Hc. }
  split; [done|]. intros c. rewrite Hiff, marks_lookup. cbn [fst snd]. split.
  - intros [Hc|[Hm Hin]]; [by apply not_elem_of_nil in Hc|].
    rewrite Hm. by rewrite decide_True.
  - intros [Hm H1]. right. split; [done|]. rewrite Hm in H1.
    by destruct (decide (c ∈ targets world center radius)).
Qed.

End RevealMore.

(** * Spawning into the fog *)

Section SpawnReveal.
Context {N : Number}.

(** X4: revealing around a spawnable cell, with any radius that is not
    negative, makes the cell passable for the path search under the same
    blocked mask: the player starts on a passable cell. *)
Theorem spawn_revealed_passable (world : WorldData) x y ms sea bm mask radius options :
  isCellSpawnable world x y ms sea bm = true ->
  0 <= radius ->
  blockedMask options = Some bm ->
  isCellPassable world
    (fst (revealAround world mask {| gx := x; gy := y |} radius)) x y options = true.
Proof.
  intros Hs Hr Hopt. apply spawnable_passable with ms sea bm; [done|done|].
  apply isCellSpawnable_true in Hs as (Hb & _).
  rewrite revealAround_targets. apply marks_cover.
  apply elem_of_targets. exists x, y. cbn [gx gy]. repeat split; try done; nia.
Qed.

End SpawnReveal.

(** * The heap, as its user sees it *)

Section HeapUse.
Context {N : Number}.
Implicit Types (h : MinHeap) (scores : list num).

Lemma empty_heap_wf T : 0 <= T -> heap_wf T (empty_heap T).
Proof.
  intros HT. split; simpl.
  - rewrite alen_replicate. lia.
  - intros i n Hi. unfold aget in Hi. destruct (i <? 0); by rewrite ?lookup_nil in Hi.
  - intros n p Hn. apply aget_replicate_Some in Hn. by left.
Qed.

Lemma empty_heap_ordered scores T : heap_ordered scores (empty_heap T).
Proof.
  intros j a b _ Ha. unfold score_of in Ha. simpl in Ha.
  unfold aget in Ha. destruct (parent j <? 0); by rewrite ?lookup_nil in Ha.
Qed.

(** X7: the methods of [MinHeap] keep the heap array and the position
    map in agreement.  [push] and [update] add the node when it is not in
    the heap and drop no node; [pop] of a heap that is not empty removes
    the node it returns and no other; [pop] of the empty heap returns -1
    and changes nothing; no node is twice in the heap array. *)
Theorem heap_sync T scores h node :
  heap_wf T h -> 0 <= node < T ->
  (heap_wf T (push scores h node)
   /\ forall n, in_heap (push scores h node) n <-> in_heap h n \/ n = node)
  /\ (heap_wf T (update scores h node)
      /\ forall n, in_heap (update scores h node) n <-> in_heap h n \/ n = node)
  /\ (hp_heap h = [] -> pop scores h = (-1, h))
  /\ (hp_heap h <> [] ->
      in_heap h (fst (pop scores h))
      /\ heap_wf T (snd (pop scores h))
      /\ forall n, in_heap (snd (pop scores h)) n
                   <-> in_heap h n /\ n <> fst (pop scores h))
  /\ (forall i j n,
        aget (hp_heap h) i = Some n -> aget (hp_heap h) j = Some n -> i = j).
Proof.
  intros W R. split; [by apply push_wf|]. split; [by apply update_wf|].
  split; [|split].
  - intros He. unfold pop, hp_size, alen. by rewrite He.
  - intros Hne. destruct (pop scores h) as [root h'] eqn:Hpop.
    by destruct (pop_wf T scores h root h' W Hpop) as [[? _]|?].
  - intros i j n. by apply heap_wf_inj with T.
Qed.


End HeapUse.

Lemma heap_sync_witness :
  let scores := HeapSamples.scores in
  let h := HeapSamples.one_node in
  (heap_wf 2 (push scores h 1)
   /\ forall n, in_heap (push scores h 1) n <-> in_heap h n \/ n = 1)
  /\ (heap_wf 2 (update scores h 1)
      /\ forall n, in_heap (update scores h 1) n <-> in_heap h n \/ n = 1)
  /\ (hp_heap h = [] -> pop scores h = (-1, h))
  /\ (hp_heap h <> [] ->
      in_heap h (fst (pop scores h))
      /\ heap_wf 2 (snd (pop scores h))
      /\ forall n, in_heap (snd (pop scores h)) n
                   <-> in_heap h n /\ n <> fst (pop scores h))
  /\ (forall i j n,
        aget (hp_heap h) i = Some n -> aget (hp_heap h) j = Some n -> i = j).
Proof.
  apply (heap_sync 2 HeapSamples.scores HeapSamples.one_node 1).
  - apply push_wf; [apply empty_heap_wf|]; lia.
  - lia.
Defined.

(** * The shape of the returned path *)

Section PathShape.
Context {N : Number}.
Implicit Types (world : WorldData) (options : PathOptions).

(** Following the parents from a closed cell visits closed cells in the
    order in which they were closed, latest first. *)
Lemma trace_sublist cf order :
  chain_ok cf order ->
  forall n l, n ∈ order -> trace cf n l -> sublist l order.
Proof.
  induction order as [|m rest IH]; intros Hch n l Hn Ht.
  - by apply not_elem_of_nil in Hn.
  - destruct Hch as [Hm Hrest].
    destruct (decide (n = m)) as [->|Hne].
    + destruct Ht as [n Hend|n p l Hp Hp1 Ht].
      * apply sublist_skip, sublist_nil_l.
      * apply sublist_skip. apply (IH Hrest p l); [|done].
        by destruct (Hm p Hp).
    + apply sublist_cons. apply (IH Hrest n l); [|done].
      by apply elem_of_cons in Hn as [?|?].
Qed.

Lemma NoDup_map_inj {A B} (f : A -> B) (l : list A) :
  (forall x y, x ∈ l -> y ∈ l -> f x = f y -> x = y) ->
  NoDup l -> NoDup (map f l).
Proof.
  induction l as [|a l IH]; intros Hinj Hnd; [constructor|].
  apply NoDup_cons in Hnd as [Ha Hnd]. cbn [map]. apply NoDup_cons. split.
  - intros Hin. apply list_elem_of_In, in_map_iff in Hin as (x & Hx & Hin).
    apply list_elem_of_In in Hin. apply Ha.
    rewrite <- (Hinj x a); [done|by right|by left|done].
  - apply IH; [|done]. intros x y Hx Hy. apply Hinj; by right.
Qed.

Lemma NoDup_rev_list {A} (l : list A) : NoDup l -> NoDup (rev l).
Proof.
  induction l as [|a l IH]; intros Hnd; [constructor|].
  apply NoDup_cons in Hnd as [Ha Hnd]. cbn [rev]. apply NoDup_app.
  split; [by apply IH|]. split; [|apply NoDup_singleton].
  intros x Hx ->%list_elem_of_singleton. apply Ha.
  by apply list_elem_of_In, in_rev, list_elem_of_In.
Qed.

Lemma point_of_inj w a b :
  0 < w -> 0 <= a -> 0 <= b -> point_of w a = point_of w b -> a = b.
Proof.
  unfold point_of. intros Hw Ha Hb [= Hr Hq].
  rewrite (Z.quot_rem' a w), (Z.quot_rem' b w).
  rewrite !Z.quot_div_nonneg by lia. by rewrite Hr, Hq.
Qed.

Lemma point_of_inBounds world n :
  0 <= n < width world * height world -> 0 < width world ->
  inBounds world (gx (point_of (width world) n)) (gy (point_of (width world) n))
  = true.
Proof.
  intros Hn Hw. apply inBounds_spec. unfold point_of. cbn [gx gy].
  rewrite Z.rem_mod_nonneg by lia.
  pose proof (Z.mod_pos_bound n (width world) Hw).
  split; [lia|]. split; [apply Z.div_pos; lia|].
  apply Z.div_lt_upper_bound; lia.
Qed.

(** The cells from which [reconstructPath] rebuilds the path when the
    goal is popped. *)
Lemma popped_cells world revealed options s0 st order current h :
  search_inv world revealed options s0 st order ->
  pop (fScore st) (openHeap st) = (current, h) ->
  hp_heap (openHeap st) <> [] ->
  exists l,
    reconstructPath (S (length (cameFrom st))) (cameFrom st) current (width world)
    = Returned (rev (map (point_of (width world)) l))
    /\ NoDup l
    /\ forall x, x ∈ l -> 0 <= x < width world * height world.
Proof.
  intros I Hpop Hne.
  destruct (close_inv _ _ _ _ _ _ _ _ I Hpop Hne) as (Hin & Hno & I').
  pose proof (inv_open _ _ _ _ _ _ I _ Hin) as Hc0.
  pose proof (aget_range _ _ _ Hc0) as Hr.
  rewrite (inv_closed_len _ _ _ _ _ _ I) in Hr.
  assert (forall n, n ∈ order -> 0 <= n < width world * height world) as Hrange.
  { intros n Hn. apply (inv_order_closed _ _ _ _ _ _ I) in Hn.
    apply aget_range in Hn. by rewrite (inv_closed_len _ _ _ _ _ _ I) in Hn. }
  assert (length (current :: order) <= Z.to_nat (width world * height world))%nat
    as Hlen.
  { apply NoDup_range_length; [apply I'|].
    intros n [->|Hn]%elem_of_cons; [done|by apply Hrange]. }
  simpl in Hlen.
  assert (Z.to_nat (width world * height world) = length (cameFrom st)) as Hcl.
  { pose proof (inv_came_len _ _ _ _ _ _ I) as Hl. unfold alen in Hl. lia. }
  assert (exists l', trace (cameFrom st) current (current :: l')
                     /\ sublist l' order) as (l' & Ht & Hsub).
  { destruct (aget_is_Some (cameFrom st) current) as [p Hp];
      [by rewrite (inv_came_len _ _ _ _ _ _ I)|].
    destruct (decide (p = -1)) as [->|Hd].
    - exists []. split; [by constructor|apply sublist_nil_l].
    - destruct (inv_edges _ _ _ _ _ _ I _ _ Hp Hd) as [Hpo _].
      destruct (trace_of_order (cameFrom st) order (inv_chain _ _ _ _ _ _ I))
        with (n := p) as (l & Ht & _); [|done|].
      { intros n Hn. apply aget_is_Some.
        rewrite (inv_came_len _ _ _ _ _ _ I). by apply Hrange. }
      exists l. split; [by econstructor|].
      by apply (trace_sublist (cameFrom st) order (inv_chain _ _ _ _ _ _ I) p). }
  exists (current :: l'). split; [|split].
  - unfold reconstructPath.
    rewrite (reconstruct_trace _ (width world) _ _ Ht); [done|].
    apply sublist_length in Hsub. simpl. lia.
  - apply NoDup_cons. split.
    + intros Hc. apply Hno. by apply (elem_of_sublist l' order).
    + apply (sublist_NoDup l' order); [apply I|done].
  - intros x [->|Hx]%elem_of_cons; [done|].
    apply Hrange. by apply (elem_of_sublist l' order).
Qed.

Lemma search_loop_cells world revealed goal goalIndex options s0 fuel :
  forall st order path,
  search_inv world revealed options s0 st order ->
  search_loop fuel world revealed goal goalIndex options st
  = Returned (Some path) ->
  exists l,
    path = rev (map (point_of (width world)) l)
    /\ NoDup l
    /\ forall x, x ∈ l -> 0 <= x < width world * height world.
Proof.
  induction fuel as [|fuel IH]; intros st order path SI Hrun.
  - simpl in Hrun. by destruct (hp_size (openHeap st) >? 0).
  - simpl in Hrun.
    destruct (Z.gtb_spec (hp_size (openHeap st)) 0) as [Hsz|Hsz]; [|done].
    destruct (pop (fScore st) (openHeap st)) as [current h] eqn:Hpop.
    assert (hp_heap (openHeap st) <> []) as Hne.
    { intros He. unfold hp_size, alen in Hsz. rewrite He in Hsz. simpl in Hsz. lia. }
    destruct (Z.eqb_spec current (-1)) as [?|_]; [done|].
    destruct (Z.eqb_spec current goalIndex) as [<-|Hng].
    + destruct (popped_cells world revealed options s0 st order current h SI Hpop Hne)
        as (l & Hrec & Hnd & Hrange).
      rewrite Hrec in Hrun. injection Hrun as <-. by exists l.
    + destruct (close_inv _ _ _ _ _ _ _ _ SI Hpop Hne) as (Hin & Hno & SI').
      refine (IH _ (current :: order) path _ Hrun).
      apply relax_all_inv; [done|by left|done].
Qed.

(** X9: the path that [findPath] returns visits no cell twice, so it has
    at most [width * height] points; all its points are cells of the
    world, and the last one is the goal. *)
Theorem findPath_simple world revealed start goal options path :
  findPath world revealed start goal options = Returned (Some path) ->
  NoDup path
  /\ (length path <= Z.to_nat (width world * height world))%nat
  /\ (forall p, p ∈ path -> inBounds world (gx p) (gy p) = true)
  /\ last path = Some goal.
Proof.
  intros Hfp.
  assert (last path = Some goal) as Hlast.
  { destruct (findPath_fuel_sound world revealed start goal options
                (S (Z.to_nat (width world * height world)))) as (r & Hr & Hpath);
      [lia|].
    unfold findPath in Hfp. rewrite Hr in Hfp. injection Hfp as ->.
    by apply Hpath. }
  unfold findPath, findPath_fuel in Hfp.
  destruct (inBounds world (gx start) (gy start)) eqn:Hs; [|done].
  destruct (inBounds world (gx goal) (gy goal)) eqn:Hg; [|done].
  cbn [negb orb] in Hfp.
  assert (search_loop (S (Z.to_nat (width world * height world)))
            world revealed goal
            (getIndex (width world) (gx goal) (gy goal)) options
            (initial world start goal) = Returned (Some path)) as Hrun.
  { destruct (aget revealed _) as [[| |]|]; try done;
      by destruct (isCellPassable world revealed (gx goal) (gy goal) options). }
  destruct (search_loop_cells world revealed goal
              (getIndex (width world) (gx goal) (gy goal)) options
              (getIndex (width world) (gx start) (gy start))
              (S (Z.to_nat (width world * height world)))
              (initial world start goal) [] path) as (l & -> & Hnd & Hrange);
    [by apply initial_inv|done|].
  assert (0 < width world) as Hw by (apply inBounds_spec in Hs; lia).
  split; [|split; [|split; [|done]]].
  - apply NoDup_rev_list, NoDup_map_inj; [|done].
    intros x y Hx Hy. apply point_of_inj; [done| |].
    + apply Hrange in Hx. lia.
    + apply Hrange in Hy. lia.
  - rewrite length_rev, length_map. by apply NoDup_range_length.
  - intros p Hp. apply list_elem_of_In, in_rev, in_map_iff in Hp as (n & <- & Hn).
    apply point_of_inBounds; [|done]. by apply Hrange, list_elem_of_In.
Qed.

End PathShape.

(** * Paths and the fog of war *)

Section RevealPaths.
Context {N : Number}.
Implicit Types (world : WorldData) (options : PathOptions).

Lemma passable_after_reveal world mask center radius options x y :
  isCellPassable world mask x y options = true ->
  isCellPassable world (fst (revealAround world mask center radius)) x y options
  = true.
Proof.
  unfold isCellPassable. destruct (negb (inBounds world x y)); [done|].
  rewrite revealAround_targets, marks_lookup. cbn [fst].
  by destruct (aget mask _) as [[| |]|].
Qed.

Lemma path_ok_after_reveal world mask center radius options q :
  path_ok world mask options q ->
  path_ok world (fst (revealAround world mask center radius)) options q.
Proof.
  intros Hok i a b Ha Hb. destruct (Hok i a b Ha Hb) as (Hadj & Hp & Hs).
  split; [done|]. split; [|done]. by apply passable_after_reveal.
Qed.

(** X12: a call of [revealAround] takes no cell away from the path
    search.  A cell that [isCellPassable] accepts is still accepted with
    the mask after the call, and a sequence of moves that was valid
    (adjacent cells, each passable, within the slope limit) is still
    valid. *)
Theorem reveal_keeps_paths world mask center radius options :
  (forall x y,
     isCellPassable world mask x y options = true ->
     isCellPassable world (fst (revealAround world mask center radius)) x y options
     = true)
  /\ (forall q,
        path_ok world mask options q ->
        path_ok world (fst (revealAround world mask center radius)) options q).
Proof.
  split.
  - intros x y. apply passable_after_reveal.
  - intros q. apply path_ok_after_reveal.
Qed.

End RevealPaths.

(** * Cell indices *)

Section IndexFacts.
Context {N : Number}.

(** X14: [getIndex] and the decoding used by [findPath] and
    [reconstructPath] ([index % width] and [floor(index / width)]) are
    inverse of each other between the cells of the world and the indices
    below [width * height]; two cells of the world never share an
    index. *)
Theorem index_round_trip (world : WorldData) :
  (forall x y,
     inBounds world x y = true ->
     0 <= getIndex (width world) x y < width world * height world
     /\ Z.rem (getIndex (width world) x y) (width world) = x
     /\ getIndex (width world) x y / width world = y)
  /\ (forall i,
        0 < width world -> 0 <= i < width world * height world ->
        inBounds world (Z.rem i (width world)) (i / width world) = true
        /\ getIndex (width world) (Z.rem i (width world)) (i / width world) = i)
  /\ (forall x y x' y',
        inBounds world x y = true -> inBounds world x' y' = true ->
        getIndex (width world) x y = getIndex (width world) x' y' ->
        x = x' /\ y = y').
Proof.
  split; [|split].
  - intros x y Hb. split; [by apply index_range|].
    apply inBounds_spec in Hb. split; [apply index_rem|apply index_div]; lia.
  - intros i Hw Hi. split.
    + by apply (point_of_inBounds world i).
    + unfold getIndex. rewrite Z.rem_mod_nonneg by lia.
      pose proof (Z_div_mod_eq_full i (width world)). lia.
  - intros x y x' y' Hb Hb' He. apply inBounds_spec in Hb, Hb'.
    apply (index_inj (width world)); [lia|lia|done].
Qed.

End IndexFacts.

(** * The mask of dense forest *)

Section ForestFacts.
Context {N : Number} {F : Fractional N}.
Implicit Types (world : WorldData) (config : WorldGenConfig).

Lemma forest_cell_spec world noise2D threshold config mask x y :
  forest_cell world noise2D threshold config mask (x, y)
  = if dense world noise2D threshold config x y
    then aset mask (getIndex (width world) x y) 1 else mask.
Proof.
  unfold forest_cell, dense.
  destruct (aget (ground world) _) as [[| | |]|]; try done.
  destruct (n_ltb (heightAt _ _) _); [done|].
  destruct (n_ltb (treeSlopeMax config) _); [done|]. cbn [negb andb].
  by destruct (n_ltb threshold _).
Qed.

Lemma forest_fold_alen world noise2D threshold config l :
  forall mask,
  alen (fold_left (forest_cell world noise2D threshold config) l mask) = alen mask.
Proof.
  induction l as [|[x y] l IH]; intros mask; cbn [fold_left]; [done|].
  rewrite IH, forest_cell_spec. destruct (dense _ _ _ _ _ _); [|done].
  apply alen_aset.
Qed.

Lemma forest_fold_other world noise2D threshold config l i :
  forall mask,
  (forall c, c ∈ l -> getIndex (width world) c.1 c.2 <> i) ->
  aget (fold_left (forest_cell world noise2D threshold config) l mask) i
  = aget mask i.
Proof.
  induction l as [|[x y] l IH]; intros mask Hl; cbn [fold_left]; [done|].
  rewrite IH by (intros c Hc; apply Hl; by right).
  rewrite forest_cell_spec. destruct (dense _ _ _ _ _ _); [|done].
  apply aget_aset_ne. apply (Hl (x, y)). by left.
Qed.

Lemma forest_fold_cell world noise2D threshold config l :
  forall mask,
  (forall c c', c ∈ l -> c' ∈ l ->
     getIndex (width world) c.1 c.2 = getIndex (width world) c'.1 c'.2 -> c = c') ->
  NoDup l ->
  (forall c, c ∈ l -> 0 <= getIndex (width world) c.1 c.2 < alen mask) ->
  forall c, c ∈ l ->
  aget (fold_left (forest_cell world noise2D threshold config) l mask)
       (getIndex (width world) c.1 c.2)
  = if dense world noise2D threshold config c.1 c.2 then Some 1
    else aget mask (getIndex (width world) c.1 c.2).
Proof.
  induction l as [|[x y] l IH]; intros mask Hinj Hnd Hrange c Hc.
  { by apply not_elem_of_nil in Hc. }
  cbn [fold_left]. apply NoDup_cons in Hnd as [Hxy Hnd].
  apply elem_of_cons in Hc as [->|Hc].
  - cbn [fst snd]. rewrite forest_fold_other.
    + rewrite forest_cell_spec. destruct (dense _ _ _ _ _ _); [|done].
      apply aget_aset_eq. apply (Hrange (x, y)). by left.
    + intros c Hc Heq. apply Hxy.
      rewrite <- (Hinj c (x, y)); [done|by right|by left|done].
  - rewrite IH; try done.
    + rewrite forest_cell_spec. destruct (dense world _ _ _ x y); [|done].
      destruct (dense world _ _ _ c.1 c.2); [done|].
      apply aget_aset_ne. intros Heq. apply Hxy.
      rewrite (Hinj (x, y) c); [done|by left|by right|done].
    + intros c1 c2 H1 H2. apply Hinj; by right.
    + intros c' Hc'. rewrite forest_cell_spec.
      destruct (dense world _ _ _ x y); rewrite ?alen_aset; apply Hrange; by right.
Qed.

(** X15: the mask that [buildDenseForestMask] returns has one entry for
    each cell of the world, 1 where the cell passes the test of the
    function (Soil, high enough above the sea, not too steep, forest
    noise above the threshold) and 0 elsewhere.  So the cells it blocks
    are Soil cells: never Water, Sand or Rock. *)
Theorem buildDenseForestMask_spec world noise2D threshold config :
  alen (buildDenseForestMask world noise2D threshold config)
  = Z.max 0 (width world * height world)
  /\ (forall x y,
        inBounds world x y = true ->
        aget (buildDenseForestMask world noise2D threshold config)
             (getIndex (width world) x y)
        = Some (if dense world noise2D threshold config x y then 1 else 0))
  /\ (forall x y,
        inBounds world x y = true ->
        aget (buildDenseForestMask world noise2D threshold config)
             (getIndex (width world) x y) = Some 1 ->
        getGround world x y = Soil).
Proof.
  unfold buildDenseForestMask.
  assert (forall x y,
            inBounds world x y = true ->
            aget (fold_left (forest_cell world noise2D threshold config)
                    (scan (width world) (height world))
                    (replicate (Z.to_nat (width world * height world)) 0))
                 (getIndex (width world) x y)
            = Some (if dense world noise2D threshold config x y then 1 else 0))
    as Hcell.
  { intros x y Hb. pose proof (index_range _ _ _ Hb) as Hr.
    apply inBounds_spec in Hb.
    rewrite (forest_fold_cell world noise2D threshold config
               (scan (width world) (height world)) _) with (c := (x, y)).
    - cbn [fst snd]. destruct (dense _ _ _ _ _ _); [done|].
      apply aget_replicate. lia.
    - intros [x1 y1] [x2 y2] [H1 ?]%elem_of_scan [H2 ?]%elem_of_scan Heq.
      cbn [fst snd] in *. apply index_inj in Heq as [-> ->]; done.
    - apply NoDup_scan.
    - intros [x1 y1] [H1 H2]%elem_of_scan. cbn [fst snd].
      rewrite alen_replicate. unfold getIndex. nia.
    - by apply elem_of_scan. }
  split; [|split].
  - rewrite forest_fold_alen, alen_replicate. lia.
  - done.
  - intros x y Hb H1. rewrite (Hcell x y Hb) in H1.
    unfold dense in H1. unfold getGround. rewrite Hb. cbn [negb].
    by destruct (aget (ground world) _) as [[| | |]|].
Qed.

End ForestFacts.

(** * The objects of a generated world *)

Section GenerationMore.
Context {N : Number} {F : Fractional N}.
Variable noise_draws : nat.
Variable noise_of : list num -> num -> num -> num.
Variable pow : num -> num -> num.

(** One pass of the third loop adds at most one object, on the cell
    visited, of the type its ground allows. *)
Lemma object_cell_adds config hm ground forestNoise objectRng st x y :
  fst (object_cell config hm ground forestNoise objectRng st (x, y)) = fst st
  \/ exists o,
       fst (object_cell config hm ground forestNoise objectRng st (x, y))
       = fst st ++ [o]
       /\ obj_cell o = (x, y)
       /\ aget ground (getIndex (cfg_width config) x y) = Some (obj_ground o).
Proof.
  unfold object_cell.
  destruct (aget ground _) as [g|]; [|by left].
  destruct g; cbn [GroundType_eqb andb]; try (by left).
  - (* Soil *)
    destruct (n_ltb _ (treeSlopeMax config)); cbn [andb]; [|by left].
    destruct (n_ltb (n_add _ _) _); [|by left].
    destruct (n_ltb (forestThreshold config) _); [|by left].
    destruct (rng_call objectRng (snd st)) as [roll rngs'].
    destruct (n_ltb roll (treeChance config)); cbn [fst]; [|by left].
    right. by eexists.
  - (* Rock *)
    destruct (n_ltb _ (rockSlopeMax config)); [|by left].
    destruct (rng_call objectRng (snd st)) as [roll rngs'].
    destruct (n_ltb roll (rockChance config)); cbn [fst]; [|by left].
    right. by eexists.
Qed.

Lemma objects_fold config hm ground forestNoise objectRng l :
  forall st,
  NoDup l ->
  NoDup (map obj_cell (fst st)) ->
  (forall o, o ∈ fst st -> obj_cell o ∉ l) ->
  NoDup (map obj_cell
           (fst (fold_left (object_cell config hm ground forestNoise objectRng)
                           l st)))
  /\ forall o,
       o ∈ fst (fold_left (object_cell config hm ground forestNoise objectRng) l st) ->
       o ∈ fst st
       \/ (obj_cell o ∈ l
           /\ aget ground (getIndex (cfg_width config) (obj_x o) (obj_y o))
              = Some (obj_ground o)).
Proof.
  induction l as [|[x y] l IH]; intros st Hnd Hobjs Hfresh; cbn [fold_left].
  { split; [done|]. intros o Ho. by left. }
  apply NoDup_cons in Hnd as [Hxy Hnd].
  destruct (object_cell_adds config hm ground forestNoise objectRng st x y)
    as [Hsame|(o & Hadd & Hcell & Hg)].
  - destruct (IH (object_cell config hm ground forestNoise objectRng st (x, y)))
      as [Hnd' Hin']; [done|by rewrite Hsame| |].
    + rewrite Hsame. intros o Ho Hin. apply (Hfresh o Ho). by right.
    + split; [done|]. intros o Ho. destruct (Hin' o Ho) as [Hold|[Hl Hg]].
      * left. by rewrite Hsame in Hold.
      * right. split; [by right|done].
  - destruct (IH (object_cell config hm ground forestNoise objectRng st (x, y)))
      as [Hnd' Hin'].
    + done.
    + rewrite Hadd, map_app. apply NoDup_app. split; [done|]. split.
      * intros c Hc Hc'. cbn [map] in Hc'.
        apply list_elem_of_singleton in Hc'. subst c.
        apply list_elem_of_In, in_map_iff in Hc as (o' & Ho' & Hin).
        apply list_elem_of_In in Hin. apply (Hfresh o' Hin).
        rewrite Ho', Hcell. by left.
      * cbn [map]. apply NoDup_singleton.
    + rewrite Hadd. intros o' [Ho'| ->%list_elem_of_singleton]%elem_of_app Hin.
      * apply (Hfresh o' Ho'). by right.
      * rewrite Hcell in Hin. done.
    + split; [done|]. intros o' Ho'. destruct (Hin' o' Ho') as [Hold|[Hl Hg']].
      * rewrite Hadd in Hold.
        apply elem_of_app in Hold as [?| ->%list_elem_of_singleton]; [by left|].
        right. split; [rewrite Hcell; by left|].
        unfold obj_cell in Hcell. by injection Hcell as -> ->.
      * right. split; [by right|done].
Qed.

Lemma ground_fold_alen config hm objectRng l :
  forall st,
  alen (fst (fold_left (ground_cell config hm objectRng) l st)) = alen (fst st).
Proof.
  induction l as [|[x y] l IH]; intros [g rngs]; cbn [fold_left]; [done|].
  rewrite IH.
  destruct (ground_cell_spec config hm objectRng g rngs x y) as (v & -> & _).
  apply alen_aset.
Qed.

(** X16: the world that [generateWorld] returns has the width and height
    of the configuration and arrays of one entry for each cell.  Its
    objects lie on cells of the world, no two on the same cell, a tree
    only on Soil and a rock only on Rock: no object is on Water or Sand. *)
Theorem generateWorld_objects config rngs :
  let world := fst (generateWorld noise_draws noise_of pow config rngs) in
  width world = cfg_width config
  /\ height world = cfg_height config
  /\ alen (heightmap world) = Z.max 0 (cfg_width config * cfg_height config)
  /\ alen (ground world) = Z.max 0 (cfg_width config * cfg_height config)
  /\ NoDup (map obj_cell (objects world))
  /\ forall o,
       o ∈ objects world ->
       inBounds world (obj_x o) (obj_y o) = true
       /\ getGround world (obj_x o) (obj_y o) = obj_ground o.
Proof.
  cbv zeta. unfold generateWorld, mulberry32_new.
  destruct (createNoise2D noise_draws noise_of _ _) as [heightNoise rngs1].
  destruct (createNoise2D noise_draws noise_of _ (rngs1 ++ _))
    as [forestNoise rngs2].
  set (hm := fold_left (height_cell pow config heightNoise) _ _).
  set (cells := scan (cfg_width config) (cfg_height config)).
  set (total := Z.to_nat (cfg_width config * cfg_height config)).
  set (objectRng := alen rngs2).
  pose proof (ground_fold_alen config hm objectRng cells
                (replicate total Water, rngs2 ++ [mulberry32 (seed config + 9001)]))
    as Hgl.
  destruct (fold_left (ground_cell config hm objectRng) cells _)
    as [gr rngs3].
  cbn [fst] in Hgl.
  destruct (objects_fold config hm gr forestNoise objectRng cells ([], rngs3))
    as [Hnd Hin]; [apply NoDup_scan|constructor| |].
  { intros o Ho. by apply not_elem_of_nil in Ho. }
  destruct (fold_left (object_cell config hm gr forestNoise objectRng) cells _)
    as [objs rngs4].
  cbn [fst width height heightmap ground objects] in *.
  split; [done|]. split; [done|]. split.
  { unfold hm. rewrite height_fold_alen, alen_replicate. unfold total. lia. }
  split.
  { rewrite Hgl, alen_replicate. unfold total. lia. }
  split; [done|]. intros o Ho.
  destruct (Hin o Ho) as [Hold|[Hc Hg]]; [by apply not_elem_of_nil in Hold|].
  unfold obj_cell in Hc. apply elem_of_scan in Hc.
  assert (inBounds {| width := cfg_width config; height := cfg_height config;
                      heightmap := hm; ground := gr; objects := objs |}
                   (obj_x o) (obj_y o) = true) as Hb.
  { apply inBounds_spec. cbn [width height]. lia. }
  split; [done|]. unfold getGround. rewrite Hb. cbn [negb width ground].
  by rewrite Hg.
Qed.

End GenerationMore.

(** * mulberry32 *)

Section RandomFacts.
Context {N : Number} {F : Fractional N}.

Lemma toUint32_wrap z k : toUint32 (z + k * 4294967296) = toUint32 z.
Proof. unfold toUint32. apply Z.mod_add. lia. Qed.

Lemma toInt32_wrap z k : toInt32 (z + k * 4294967296) = toInt32 z.
Proof. unfold toInt32. by rewrite toUint32_wrap. Qed.

Lemma ushr_wrap z k s : ushr (z + k * 4294967296) s = ushr z s.
Proof. unfold ushr. by rewrite toUint32_wrap. Qed.

Lemma toUint32_range z : 0 <= toUint32 z < 4294967296.
Proof. unfold toUint32. apply Z.mod_pos_bound. lia. Qed.

(** X17: the generator made by [mulberry32] never wraps its counter
    [t], yet a call reads it modulo 2^32 only: counters that differ by a
    multiple of 2^32 give the same value, so seeds that differ by a
    multiple of 2^32 give the same sequence.  The value is [m / 2^32] for
    an integer [0 <= m < 2^32], and the counter grows by 0x6d2b79f5. *)
Theorem mulberry32_wraps (t k : Z) :
  fst (mulberry32_next (t + k * 4294967296)) = fst (mulberry32_next t)
  /\ snd (mulberry32_next t) = t + 0x6d2b79f5
  /\ (exists m, 0 <= m < 4294967296
                /\ fst (mulberry32_next t)
                   = n_div (n_of_Z m) (n_of_Z 4294967296))
  /\ mulberry32 (t + k * 4294967296) = mulberry32 t
  /\ 0 <= mulberry32 t < 4294967296.
Proof.
  unfold mulberry32_next, mulberry32. cbn [fst snd].
  replace (t + k * 4294967296 + 0x6d2b79f5)
    with (t + 0x6d2b79f5 + k * 4294967296) by lia.
  rewrite toInt32_wrap, ushr_wrap, toUint32_wrap.
  split; [done|]. split; [done|]. split.
  - eexists. split; [apply toUint32_range|done].
  - split; [done|apply toUint32_range].
Qed.

End RandomFacts.

(** * Order of the reveals *)

Section RevealOrder.
Context {N : Number}.

Lemma aget_ext {A} (a b : list A) : (forall i, aget a i = aget b i) -> a = b.
Proof.
  intros H. apply list_eq. intros i. specialize (H (Z.of_nat i)).
  unfold aget in H. destruct (Z.ltb_spec (Z.of_nat i) 0); [lia|].
  by rewrite Nat2Z.id in H.
Qed.

(** X18: the mask after two calls of [revealAround] does not depend on
    their order: the fog of war records which cells have been near the
    player, not when. *)
Theorem reveal_commutes (world : WorldData) mask c1 r1 c2 r2 :
  fst (revealAround world (fst (revealAround world mask c1 r1)) c2 r2)
  = fst (revealAround world (fst (revealAround world mask c2 r2)) c1 r1).
Proof.
  apply aget_ext. intros i.
  rewrite !revealAround_targets.
  rewrite (marks_lookup (targets world c2 r2)), (marks_lookup (targets world c1 r1)).
  cbn [fst]. rewrite !marks_lookup. cbn [fst].
  destruct (aget mask i) as [[| |]|]; try done.
  destruct (decide (i ∈ targets world c1 r1)), (decide (i ∈ targets world c2 r2));
    done.
Qed.

End RevealOrder.

(** * Instances *)

Lemma spawnable_is_standable_witness :
  inBounds (Samples.flat 3 3) 1 1 = true
  /\ isCellStandable (Samples.flat 3 3) 1 1 (replicate 9 0) = true
  /\ forall revealed options,
       blockedMask options = Some (replicate 9 0) ->
       aget revealed (getIndex (width (Samples.flat 3 3)) 1 1) <> Some 0 ->
       isCellPassable (Samples.flat 3 3) revealed 1 1 options = true.
Proof.
  apply (spawnable_is_standable (Samples.flat 3 3) 1 1 1%float 0.25%float
           (replicate 9 0)).
  vm_compute. reflexivity.
Defined.

Lemma spawn_revealed_passable_witness :
  isCellPassable (Samples.flat 3 3)
    (fst (revealAround (Samples.flat 3 3) (replicate 9 0) {| gx := 1; gy := 1 |} 1))
    1 1 (Samples.walk true (Some (replicate 9 0))) = true.
Proof.
  apply (spawn_revealed_passable (Samples.flat 3 3) 1 1 1%float 0.25%float
           (replicate 9 0) (replicate 9 0) 1
           (Samples.walk true (Some (replicate 9 0)))).
  - vm_compute. reflexivity.
  - lia.
  - reflexivity.
Defined.

Lemma findPath_simple_witness :
  let path := [ {| gx := 0; gy := 0 |}; {| gx := 1; gy := 0 |} ] in
  NoDup path
  /\ (length path
      <= Z.to_nat (width (Samples.flat 2 1) * height (Samples.flat 2 1)))%nat
  /\ (forall p, p ∈ path -> inBounds (Samples.flat 2 1) (gx p) (gy p) = true)
  /\ last path = Some {| gx := 1; gy := 0 |}.
Proof.
  apply (findPath_simple (Samples.flat 2 1) [1; 1] {| gx := 0; gy := 0 |}
           {| gx := 1; gy := 0 |} (Samples.walk true None)).
  vm_compute. reflexivity.
Defined.

(** * Targets and unreachable goals *)

Section Targets.
Context {N : Number}.
Implicit Types (world : WorldData) (options : PathOptions).

(** X19: the tests of the click handler on the clicked cell are the goal
    tests of [findPath]: with the dense forest mask as blocked mask, the
    handler accepts a cell exactly when [isCellPassable] does, so
    [findPath] never rejects the goal that the handler passes to it. *)
Theorem click_is_goal_test world revealed bm cell options :
  blockedMask options = Some bm ->
  clickAccepts world revealed bm cell
  = isCellPassable world revealed (gx cell) (gy cell) options.
Proof.
  intros Hbm. unfold clickAccepts, isCellPassable, isCellStandable, blockedAt.
  rewrite Hbm. destruct (negb (inBounds world (gx cell) (gy cell))); [done|].
  destruct (aget revealed _) as [[| |]|]; try done;
    destruct (aget bm _) as [[|[| |]|]|]; try done;
    by destruct (getGround world (gx cell) (gy cell)).
Qed.

(** X20: when no sequence of moves between adjacent cells, each onto a
    passable cell within the slope limit, leads from the start to the
    goal, [findPath] returns null. *)
Theorem findPath_unreachable world revealed start goal options :
  (forall q, path_ok world revealed options q ->
             head q = Some start -> last q = Some goal -> False) ->
  findPath world revealed start goal options = Returned None.
Proof.
  intros Hnone.
  destruct (findPath_fuel_sound world revealed start goal options
              (S (Z.to_nat (width world * height world)))) as (r & Hr & Hpath);
    [lia|].
  unfold findPath. rewrite Hr. destruct r as [path|]; [|done].
  destruct (Hpath path eq_refl) as (Hok & Hhd & Hlast).
  by destruct (Hnone path).
Qed.

End Targets.

Lemma click_is_goal_test_witness :
  clickAccepts (Samples.flat 2 1) [0; 1] [0; 0] {| gx := 1; gy := 0 |}
  = isCellPassable (Samples.flat 2 1) [0; 1] 1 0 (Samples.walk true (Some [0; 0])).
Proof.
  apply (click_is_goal_test (Samples.flat 2 1) [0; 1] [0; 0] {| gx := 1; gy := 0 |}
           (Samples.walk true (Some [0; 0]))).
  reflexivity.
Defined.

Lemma findPath_unreachable_witness :
  findPath (Samples.flat 3 1) [1; 0; 1] {| gx := 0; gy := 0 |} {| gx := 2; gy := 0 |}
           (Samples.walk true None)
  = Returned None.
Proof.
  apply (findPath_unreachable (Samples.flat 3 1) [1; 0; 1]).
  intros [|a [|b q]] Hok Hhd Hlast; [done| |].
  - simpl in Hhd, Hlast. congruence.
  - injection Hhd as ->.
    destruct (Hok O _ b eq_refl eq_refl) as (Hadj & Hpass & _).
    unfold passable in Hpass. pose proof Hpass as Hb.
    unfold isCellPassable in Hb.
    destruct (inBounds (Samples.flat 3 1) (gx b) (gy b)) eqn:Hin; [|done].
    apply inBounds_spec in Hin. unfold adjacent in Hadj. cbn in Hadj, Hin.
    assert (gx b = 1 /\ gy b = 0) as [Hx Hy] by lia.
    destruct b as [bx by']. cbn in Hx, Hy. subst. by vm_compute in Hpass.
Defined.

(** * clamp *)

Section ClampFacts.

Lemma SFcompare_refl a : a <> S754_nan -> SFcompare a a = Some Eq.
Proof.
  destruct a as [s|s| |s m e]; try done; intros _; simpl.
  - by destruct s.
  - rewrite Z.compare_refl, Pos.compare_cont_refl. by destruct s.
Qed.

Lemma SFcompare_antisym a b :
  SFcompare b a = option_map CompOpp (SFcompare a b).
Proof.
  destruct a as [s|s| |s m e], b as [s'|s'| |s' m' e']; simpl; try done;
    try (by destruct s); try (by destruct s'); try (by destruct s, s').
  rewrite (Z.compare_antisym e e').
  assert (PosDef.Pos.compare_cont Eq m' m
          = CompOpp (PosDef.Pos.compare_cont Eq m m')) as ->
    by (symmetry; apply (Pos.compare_cont_antisym m m' Eq)).
  destruct s, s', (e ?= e'); simpl; rewrite ?CompOpp_involutive; done.
Qed.

Lemma SFcompare_defined a b :
  a <> S754_nan -> b <> S754_nan -> exists c, SFcompare a b = Some c.
Proof.
  destruct a as [s|s| |s m e], b as [s'|s'| |s' m' e']; simpl; try done;
    intros _ _; by eexists.
Qed.

Lemma same_order_refl a : same_order a a.
Proof. by intros z. Qed.

Lemma same_order_sym a b : same_order a b -> same_order b a.
Proof. intros H z. destruct (H z). by split. Qed.

Lemma same_order_trans a b c : same_order a b -> same_order b c -> same_order a c.
Proof.
  intros H1 H2 z. destruct (H1 z) as [-> ->]. apply H2.
Qed.

Lemma same_order_zero s s' : same_order (S754_zero s) (S754_zero s').
Proof. intros z. split; [done|]. by destruct z. Qed.

Lemma SFcompare_Eq a b : SFcompare a b = Some Eq -> same_order a b.
Proof.
  destruct a as [s|s| |s m e], b as [s'|s'| |s' m' e']; simpl; intros Hc;
    try discriminate; try (destruct s; discriminate);
    try (destruct s'; discriminate).
  - apply same_order_zero.
  - destruct s, s'; try discriminate; apply same_order_refl.
  - assert (s = s' /\ e = e' /\ m = m') as (-> & -> & ->);
      [|apply same_order_refl].
    destruct s, s'; try discriminate; destruct (e ?= e') eqn:He;
      try discriminate; apply Z.compare_eq in He; subst; repeat split;
      injection Hc as Hc.
    + apply CompOpp_iff in Hc. simpl in Hc. by apply Pos.compare_eq.
    + by apply Pos.compare_eq.
Qed.

Lemma is_nan_false x : PrimFloat.is_nan x = false <-> Prim2SF x <> S754_nan.
Proof.
  unfold PrimFloat.is_nan. rewrite negb_false_iff, FloatAxioms.eqb_spec. unfold SFeqb.
  split.
  - intros H Hn. rewrite Hn in H. done.
  - intros Hn. by rewrite SFcompare_refl.
Qed.

Lemma is_zero_true x :
  PrimFloat.is_zero x = true -> exists s, Prim2SF x = S754_zero s.
Proof.
  unfold PrimFloat.is_zero. rewrite FloatAxioms.eqb_spec. unfold SFeqb.
  change (Prim2SF PrimFloat.zero) with (S754_zero false).
  destruct (Prim2SF x) as [s|s| |s m e]; simpl; try done.
  - intros _. by exists s.
  - by destruct s.
  - by destruct s.
Qed.

Lemma add_zeros x y s s' :
  Prim2SF x = S754_zero s -> Prim2SF y = S754_zero s' ->
  exists s'', Prim2SF (x + y) = S754_zero s''.
Proof.
  intros Hx Hy. rewrite FloatAxioms.add_spec, Hx, Hy. unfold SF64add, SFadd.
  destruct s, s'; by eexists.
Qed.

Lemma opp_zero x s : Prim2SF x = S754_zero s -> Prim2SF (- x) = S754_zero (negb s).
Proof. intros Hx. by rewrite FloatAxioms.opp_spec, Hx. Qed.

(** What [Math.min] and [Math.max] return on numbers. *)
Lemma Math_min_cases a b :
  PrimFloat.is_nan a = false -> PrimFloat.is_nan b = false ->
  (SFltb (Prim2SF a) (Prim2SF b) = true /\ Math_min a b = a)
  \/ (SFltb (Prim2SF b) (Prim2SF a) = true /\ Math_min a b = b)
  \/ (same_order (Prim2SF a) (Prim2SF b)
      /\ same_order (Prim2SF (Math_min a b)) (Prim2SF a)).
Proof.
  intros Ha Hb. unfold Math_min. rewrite Ha, Hb. cbn [orb].
  rewrite !FloatAxioms.ltb_spec.
  destruct (SFltb (Prim2SF a) (Prim2SF b)) eqn:Hab; [by left|].
  destruct (SFltb (Prim2SF b) (Prim2SF a)) eqn:Hba; [right; by left|].
  right. right.
  apply is_nan_false in Ha, Hb.
  destruct (SFcompare_defined _ _ Ha Hb) as [c Hc].
  assert (c = Eq) as ->.
  { unfold SFltb in Hab, Hba. rewrite SFcompare_antisym, Hc in Hba.
    rewrite Hc in Hab. by destruct c. }
  pose proof (SFcompare_Eq _ _ Hc) as Hsame. split; [done|].
  destruct (PrimFloat.is_zero a) eqn:Hz; [|apply same_order_refl].
  destruct (is_zero_true a Hz) as [s Hs].
  assert (exists s', Prim2SF b = S754_zero s') as [s' Hs'].
  { rewrite Hs in Hc. destruct (Prim2SF b) as [s'|s'| |s' m e]; simpl in Hc;
      try done; [by eexists|by destruct s'|by destruct s']. }
  destruct (add_zeros (- a) (- b) _ _ (opp_zero a s Hs) (opp_zero b s' Hs'))
    as [s'' Hsum].
  rewrite (opp_zero _ _ Hsum), Hs. apply same_order_zero.
Qed.

Lemma Math_max_cases a b :
  PrimFloat.is_nan a = false -> PrimFloat.is_nan b = false ->
  (SFltb (Prim2SF a) (Prim2SF b) = true /\ JsFloat.max a b = b)
  \/ (SFltb (Prim2SF b) (Prim2SF a) = true /\ JsFloat.max a b = a)
  \/ (same_order (Prim2SF a) (Prim2SF b)
      /\ same_order (Prim2SF (JsFloat.max a b)) (Prim2SF a)).
Proof.
  intros Ha Hb. unfold JsFloat.max. rewrite Ha, Hb. cbn [orb].
  rewrite !FloatAxioms.ltb_spec.
  destruct (SFltb (Prim2SF a) (Prim2SF b)) eqn:Hab; [by left|].
  destruct (SFltb (Prim2SF b) (Prim2SF a)) eqn:Hba; [right; by left|].
  right. right.
  apply is_nan_false in Ha, Hb.
  destruct (SFcompare_defined _ _ Ha Hb) as [c Hc].
  assert (c = Eq) as ->.
  { unfold SFltb in Hab, Hba. rewrite SFcompare_antisym, Hc in Hba.
    rewrite Hc in Hab. by destruct c. }
  pose proof (SFcompare_Eq _ _ Hc) as Hsame. split; [done|].
  destruct (PrimFloat.is_zero a) eqn:Hz; [|apply same_order_refl].
  destruct (is_zero_true a Hz) as [s Hs].
  assert (exists s', Prim2SF b = S754_zero s') as [s' Hs'].
  { rewrite Hs in Hc. destruct (Prim2SF b) as [s'|s'| |s' m e]; simpl in Hc;
      try done; [by eexists|by destruct s'|by destruct s']. }
  destruct (add_zeros a b _ _ Hs Hs') as [s'' Hsum].
  rewrite Hsum, Hs. apply same_order_zero.
Qed.

Lemma SFlt_le a b : SFltb a b = true -> SFleb a b = true.
Proof. unfold SFltb, SFleb. by destruct (SFcompare a b) as [[| |]|]. Qed.

Lemma SFle_refl a : a <> S754_nan -> SFleb a a = true.
Proof. intros Ha. unfold SFleb. by rewrite SFcompare_refl. Qed.

Lemma SFlt_not_le a b : SFltb a b = true -> SFleb b a = false.
Proof.
  unfold SFltb, SFleb. rewrite (SFcompare_antisym a b).
  by destruct (SFcompare a b) as [[| |]|].
Qed.

Lemma same_order_number a b : same_order a b -> b <> S754_nan -> a <> S754_nan.
Proof.
  intros Hs Hb ->. destruct (Hs b) as [Hc _].
  rewrite (SFcompare_refl b Hb) in Hc. done.
Qed.

Lemma same_order_eqb a b : same_order a b -> b <> S754_nan -> SFeqb a b = true.
Proof.
  intros Hs Hb. unfold SFeqb. destruct (Hs b) as [-> _].
  by rewrite SFcompare_refl.
Qed.

Lemma same_order_leb_l a b z : same_order a b -> SFleb a z = SFleb b z.
Proof. intros Hs. unfold SFleb. by destruct (Hs z) as [-> _]. Qed.

Lemma same_order_leb_r a b z : same_order a b -> SFleb z a = SFleb z b.
Proof. intros Hs. unfold SFleb. by destruct (Hs z) as [_ ->]. Qed.

Lemma same_order_ltb_l a b z : same_order a b -> SFltb a z = SFltb b z.
Proof. intros Hs. unfold SFltb. by destruct (Hs z) as [-> _]. Qed.

(** X21: [clamp] returns NaN when the value is NaN.  For numbers with
    [min <= max], the result is between [min] and [max], and it equals
    the value when the value is between them already. *)
Theorem clamp_spec (value lo hi : float) :
  (PrimFloat.is_nan value = true ->
   PrimFloat.is_nan (clamp value lo hi) = true)
  /\ (PrimFloat.is_nan value = false -> PrimFloat.is_nan lo = false ->
      PrimFloat.is_nan hi = false -> PrimFloat.leb lo hi = true ->
      PrimFloat.leb lo (clamp value lo hi) = true
      /\ PrimFloat.leb (clamp value lo hi) hi = true
      /\ (PrimFloat.leb lo value = true -> PrimFloat.leb value hi = true ->
          PrimFloat.eqb (clamp value lo hi) value = true)).
Proof.
  split.
  - intros Hv. unfold clamp, Math_min. rewrite Hv, orb_true_r.
    unfold JsFloat.max.
    change (PrimFloat.is_nan PrimFloat.nan) with true. by rewrite orb_true_r.
  - intros Hv Hlo Hhi Hle. unfold clamp.
    rewrite !FloatAxioms.leb_spec, FloatAxioms.eqb_spec in *.
    pose proof Hv as Vn. pose proof Hlo as Ln. pose proof Hhi as Hn.
    apply is_nan_false in Vn, Ln, Hn.
    set (m := Math_min hi value).
    assert (SFleb (Prim2SF m) (Prim2SF hi) = true
            /\ (SFleb (Prim2SF value) (Prim2SF hi) = true ->
                same_order (Prim2SF m) (Prim2SF value))
            /\ Prim2SF m <> S754_nan) as (Mle & Mv & Mn).
    { unfold m.
      destruct (Math_min_cases hi value Hhi Hv)
        as [[Hlt ->]|[[Hlt ->]|[Hs Hsm]]].
      - split; [by apply SFle_refl|]. split; [|done].
        intros Hvh. apply SFlt_not_le in Hlt. congruence.
      - split; [by apply SFlt_le|]. split; [|done].
        intros _. apply same_order_refl.
      - split; [|split].
        + rewrite (same_order_leb_l _ _ _ Hsm). by apply SFle_refl.
        + intros _. by apply same_order_trans with (Prim2SF hi).
        + by apply (same_order_number _ _ Hsm). }
    assert (PrimFloat.is_nan m = false) as Mnan by (by apply is_nan_false).
    destruct (Math_max_cases lo m Hlo Mnan) as [[Hlt ->]|[[Hlt ->]|[Hs Hsr]]].
    + split; [by apply SFlt_le|]. split; [done|].
      intros _ Hvh. apply same_order_eqb; [by apply Mv|done].
    + split; [by apply SFle_refl|]. split; [done|].
      intros Hlv Hvh. rewrite (same_order_ltb_l _ _ _ (Mv Hvh)) in Hlt.
      apply SFlt_not_le in Hlt. congruence.
    + split; [|split].
      * rewrite (same_order_leb_r _ _ _ Hsr). by apply SFle_refl.
      * by rewrite (same_order_leb_l _ _ _ Hsr).
      * intros _ Hvh. apply same_order_eqb; [|done].
        apply same_order_trans with (Prim2SF lo); [done|].
        apply same_order_trans with (Prim2SF m); [done|by apply Mv].
Qed.

End ClampFacts.

(** * The two versions of findSpawn *)

Lemma float_not_lt_le (a b : float) :
  PrimFloat.is_nan a = false -> PrimFloat.is_nan b = false ->
  negb (PrimFloat.ltb a b) = PrimFloat.leb b a.
Proof.
  intros Ha%is_nan_false Hb%is_nan_false.
  rewrite FloatAxioms.ltb_spec, FloatAxioms.leb_spec. unfold SFltb, SFleb.
  rewrite (SFcompare_antisym (Prim2SF a) (Prim2SF b)).
  destruct (SFcompare_defined _ _ Ha Hb) as [c ->]. by destruct c.
Qed.

Lemma find_ext_all {A} (f g : A -> bool) (l : list A) :
  (forall a, f a = g a) -> find f l = find g l.
Proof.
  intros H. induction l as [|a l IH]; [done|]. simpl. by rewrite H, IH.
Qed.

(** X22: the earlier [findSpawn], with its tests inline and
    [slope > maxSlope] as the last one, and the later one, which calls
    [isCellSpawnable] and ends with [slope <= maxSlope], return the same
    cell as long as neither [maxSlope] nor the slope of a cell of the
    world is NaN. *)
Theorem findSpawn_versions_agree (world : @WorldData JsFloat.number)
    (maxSlope seaLevel : float) (bm : list Z) :
  PrimFloat.is_nan maxSlope = false ->
  (forall x y, inBounds world x y = true ->
     PrimFloat.is_nan (getSlopeAt (heightmap world) (width world) (height world) x y)
     = false) ->
  findSpawn_inline world maxSlope seaLevel bm = findSpawn world maxSlope seaLevel bm.
Proof.
  intros Hms Hslope. unfold findSpawn_inline, findSpawn.
  rewrite (find_ext_all
             (fun c => spawnTests world c.1 c.2 maxSlope seaLevel bm)
             (fun c => isCellSpawnable world c.1 c.2 maxSlope seaLevel bm)); [done|].
  intros [x y]. cbn [fst snd]. unfold spawnTests, isCellSpawnable.
  destruct (inBounds world x y) eqn:Hb; [|done]. cbn [negb].
  destruct (aget (heightmap world) _) as [h|]; [|done].
  destruct (n_ltb h seaLevel); [done|].
  destruct (aget (ground world) _) as [[| | |]|]; try done;
    (destruct (aget bm _) as [[|[| |]|]|]; try done);
    (destruct (cellHasObject world x y); [done|]);
    apply float_not_lt_le; auto.
Qed.

Lemma findSpawn_versions_agree_witness :
  findSpawn_inline (Samples.flat 3 3) 1%float 0.25%float (replicate 9 0)
  = findSpawn (Samples.flat 3 3) 1%float 0.25%float (replicate 9 0).
Proof.
  apply (findSpawn_versions_agree (Samples.flat 3 3) 1%float 0.25%float
           (replicate 9 0)).
  - reflexivity.
  - intros x y Hb. apply inBounds_spec in Hb. cbn in Hb.
    assert (x = 0 \/ x = 1 \/ x = 2) as Hx by lia.
    assert (y = 0 \/ y = 1 \/ y = 2) as Hy by lia.
    destruct Hx as [->|[->| ->]], Hy as [->|[->| ->]]; vm_compute; reflexivity.
Defined.

(** * The heap is a priority queue on the scores of the code *)

(** ** The order of the doubles that are not NaN *)

Lemma finite_compare_trans (e1 e2 e3 : Z) (m1 m2 m3 : positive) (x y z : comparison) :
  x = match e1 ?= e2 with Lt => Lt | Gt => Gt | Eq => Pos.compare m1 m2 end ->
  y = match e2 ?= e3 with Lt => Lt | Gt => Gt | Eq => Pos.compare m2 m3 end ->
  z = match e1 ?= e3 with Lt => Lt | Gt => Gt | Eq => Pos.compare m1 m3 end ->
  (x <> Gt -> y <> Gt -> z <> Gt) /\ (x <> Lt -> y <> Lt -> z <> Lt).
Proof.
  intros -> -> ->.
  destruct (Z.compare_spec e1 e2), (Z.compare_spec e2 e3), (Z.compare_spec e1 e3);
    try lia; try (split; intros; congruence);
    destruct (Pos.compare_spec m1 m2), (Pos.compare_spec m2 m3), (Pos.compare_spec m1 m3);
    try lia; split; intros; congruence.
Qed.

Lemma SFle_trans a b c : SFleb a b = true -> SFleb b c = true -> SFleb a c = true.
Proof.
  unfold SFleb.
  destruct a as [s1|s1| |s1 m1 e1], b as [s2|s2| |s2 m2 e2], c as [s3|s3| |s3 m3 e3];
    simpl; try done;
    try (destruct s1; done); try (destruct s2; done); try (destruct s3; done);
    try (destruct s1, s2; done); try (destruct s2, s3; done); try (destruct s1, s3; done);
    try (destruct s1, s2, s3; done).
  destruct (finite_compare_trans e1 e2 e3 m1 m2 m3 _ _ _ eq_refl eq_refl eq_refl)
    as [H1 H2].
  unfold Pos.compare in H1, H2.
  destruct s1, s2, s3; try done.
  all: change (PosDef.Pos.compare_cont Eq m1 m2) with (Pos.compare_cont Eq m1 m2);
       change (PosDef.Pos.compare_cont Eq m2 m3) with (Pos.compare_cont Eq m2 m3);
       change (PosDef.Pos.compare_cont Eq m1 m3) with (Pos.compare_cont Eq m1 m3);
       revert H1 H2;
       generalize (Pos.compare_cont Eq m1 m2), (Pos.compare_cont Eq m2 m3),
                  (Pos.compare_cont Eq m1 m3);
       intros c1 c2 c3;
       destruct (e1 ?= e2), (e2 ?= e3), (e1 ?= e3), c1, c2, c3; simpl;
       intros H1 H2 ? ?; try done;
       exfalso; first [by apply H1 | by apply H2].
Qed.

Lemma float_le_refl (a : float) :
  PrimFloat.is_nan a = false -> PrimFloat.leb a a = true.
Proof. intros Ha%is_nan_false. rewrite FloatAxioms.leb_spec. by apply SFle_refl. Qed.

Lemma float_le_trans (a b c : float) :
  PrimFloat.leb a b = true -> PrimFloat.leb b c = true -> PrimFloat.leb a c = true.
Proof. rewrite !FloatAxioms.leb_spec. apply SFle_trans. Qed.

Lemma float_le_total (a b : float) :
  PrimFloat.is_nan a = false -> PrimFloat.is_nan b = false ->
  PrimFloat.leb a b = false -> PrimFloat.leb b a = true.
Proof.
  intros Ha%is_nan_false Hb%is_nan_false.
  rewrite !FloatAxioms.leb_spec. unfold SFleb.
  rewrite (SFcompare_antisym (Prim2SF a) (Prim2SF b)).
  destruct (SFcompare_defined _ _ Ha Hb) as [c ->]. by destruct c.
Qed.

Lemma float_lt_le (a b : float) :
  PrimFloat.ltb a b = true -> PrimFloat.leb a b = true.
Proof. rewrite FloatAxioms.ltb_spec, FloatAxioms.leb_spec. apply SFlt_le. Qed.

Lemma float_nlt_le (a b : float) :
  PrimFloat.is_nan a = false -> PrimFloat.is_nan b = false ->
  PrimFloat.ltb a b = false -> PrimFloat.leb b a = true.
Proof. intros Ha Hb H. rewrite <- (float_not_lt_le a b Ha Hb). by rewrite H. Qed.

(** The comparisons of doubles order the doubles that are not NaN. *)
#[export] Instance float_order : ScoreOrder JsFloat.number :=
  @Build_ScoreOrder JsFloat.number
    (fun x : float => PrimFloat.is_nan x = false)
    float_le_refl float_le_trans float_le_total float_lt_le float_nlt_le.

(** X8: on scores that are doubles, compared as the code compares them,
    and of which none is NaN, the methods of [MinHeap] keep every node of
    the heap array at a score not below that of its parent, and [pop]
    returns a node whose score is least among the nodes of the heap.
    [update] restores the order after the score of its node has been
    lowered to a value that is not NaN. *)
Theorem heap_order T (scores : list float) (h : MinHeap) node :
  heap_wf T h -> alen scores = T -> 0 <= node < T ->
  (forall i s, aget scores i = Some s -> PrimFloat.is_nan s = false) ->
  heap_ordered (N := JsFloat.number) scores h ->
  heap_ordered (N := JsFloat.number) scores
               (push (N := JsFloat.number) scores h node)
  /\ (forall s' : float,
        PrimFloat.is_nan s' = false ->
        (forall s, in_heap h node -> aget scores node = Some s ->
                   PrimFloat.leb s' s = true) ->
        heap_ordered (N := JsFloat.number) (aset scores node s')
                     (update (N := JsFloat.number) (aset scores node s') h node))
  /\ (hp_heap h <> [] ->
      heap_ordered (N := JsFloat.number) scores
                   (snd (pop (N := JsFloat.number) scores h))
      /\ forall n a b,
           in_heap h n ->
           aget scores (fst (pop (N := JsFloat.number) scores h)) = Some a ->
           aget scores n = Some b ->
           PrimFloat.leb a b = true).
Proof.
  intros W L R C Ho.
  split; [by apply (push_ordered (N := JsFloat.number) T)|]. split.
  - intros s' Cs Hs. by apply (update_ordered (N := JsFloat.number) T).
  - intros Hne. destruct (pop (N := JsFloat.number) scores h) as [root h'] eqn:Hpop.
    cbn [fst snd].
    split; [by apply (pop_ordered (N := JsFloat.number) T scores h root h')|].
    intros n a b Hn Ha Hb.
    by apply (pop_min (N := JsFloat.number) T scores h root h' n a b).
Qed.

Lemma heap_order_witness :
  let scores := HeapSamples.scores in
  let h := HeapSamples.one_node in
  heap_ordered (N := JsFloat.number) scores
               (push (N := JsFloat.number) scores h 1)
  /\ (forall s' : float,
        PrimFloat.is_nan s' = false ->
        (forall s, in_heap h 1 -> aget scores 1 = Some s ->
                   PrimFloat.leb s' s = true) ->
        heap_ordered (N := JsFloat.number) (aset scores 1 s')
                     (update (N := JsFloat.number) (aset scores 1 s') h 1))
  /\ (hp_heap h <> [] ->
      heap_ordered (N := JsFloat.number) scores
                   (snd (pop (N := JsFloat.number) scores h))
      /\ forall n a b,
           in_heap h n ->
           aget scores (fst (pop (N := JsFloat.number) scores h)) = Some a ->
           aget scores n = Some b ->
           PrimFloat.leb a b = true).
Proof.
  assert (forall i s, aget HeapSamples.scores i = Some s -> PrimFloat.is_nan s = false)
    as C.
  { intros i s Hi. pose proof (aget_range _ _ _ Hi) as Hr.
    change (alen HeapSamples.scores) with 2 in Hr.
    assert (i = 0 \/ i = 1) as [-> | ->] by lia;
      injection Hi as <-; vm_compute; reflexivity. }
  apply (heap_order 2 HeapSamples.scores HeapSamples.one_node 1).
  - apply push_wf; [apply empty_heap_wf|]; lia.
  - reflexivity.
  - lia.
  - exact C.
  - apply (push_ordered (N := JsFloat.number) 2);
      [exact C|apply empty_heap_wf; lia|lia|].
    apply empty_heap_ordered.
Defined.
